(** * RTO-Validator: coverage scoring and gap analysis

    A shallow embedding of the coverage engine of [client/src/App.jsx]
    ([tokenize], [coverageCheck], [buildReportFromTGA], [validate]) and the
    properties of it that the specification states; then the handlers of the
    component around it, and the detection and lookup of unit codes of
    [server/index.js] ([findUocCandidates], [fetchFromTGA], [getUocPayload])
    in Module [Server].

    Modelling conventions.
    - A JavaScript string is a [string]: a sequence of code units, here the
      code units 0..255 (the Latin-1 range of UTF-16).
    - A JavaScript [Set] of strings is a [gset string].
    - Counts and scores are integers ([Z]); the three places where the source
      computes with fractions (the coverage ratio, the percentage and the
      sufficiency score) are computed over the rationals ([Q]).  Module
      [Binary64] replays them in IEEE binary64 arithmetic, which gives the
      same results: the sufficiency score for all percentages, the ratio test
      and the percentage for all short lists by computation, and for all
      lists by the argument of Section [Rounding].
    - A field that may be absent ([undefined] or [null]) is an [option].
    - A state setter of the component is a function on the record of its
      state; an [async] handler is cut at its [await].
    - On the server a string is the list of its UTF-16 code units, since the
      upper case of a Latin-1 text need not be Latin-1; the texts and codes
      that arrive are Latin-1 strings.  A page of the registry is the record
      of what [fetchFromTGA] reads on it. *)

From Stdlib Require Import ZArith QArith Qround Qminmax Ascii String DecimalString DecimalNat.
From Stdlib Require Import SpecFloat.
From stdpp Require Import base list gmap sets strings.

#[local] Open Scope string_scope.
#[local] Open Scope list_scope.

(** ** Code units *)

Module CodeUnit.

Definition in_range (lo hi : N) (c : ascii) : bool :=
  ((lo <=? N_of_ascii c) && (N_of_ascii c <=? hi))%N.

(** [[a-z]] and [[0-9]] of the regular expression in [tokenize]. *)
Definition is_lower (c : ascii) : bool := in_range 97 122 c.
Definition is_digit (c : ascii) : bool := in_range 48 57 c.

(** [\s]: TAB, LF, VT, FF, CR, SPACE and NO-BREAK SPACE are the white space
    and line terminator code units below 256. *)
Definition is_space (c : ascii) : bool :=
  in_range 9 13 c || (N_of_ascii c =? 32)%N || (N_of_ascii c =? 160)%N.

(** [String.prototype.toLowerCase] on one code unit: A-Z and the upper-case
    letters of Latin-1 (all of 192..222 but the multiplication sign 215)
    move up by 32; every other code unit is unchanged. *)
Definition toLowerCase (c : ascii) : ascii :=
  if in_range 65 90 c || (in_range 192 222 c && negb (N_of_ascii c =? 215)%N)
  then ascii_of_N (N_of_ascii c + 32)
  else c.

End CodeUnit.

(** ** The tokenizer *)

(** [STOP]: the stop-word set. *)
Definition STOP_words : list string :=
  [ "the";"and";"a";"an";"for";"to";"of";"in";"on";"by";"with";"as";"that";"are";"is";"be";"or";"at";
    "from";"this";"it";"into";"over";"under";"up";"down";"across";"about";"between";"their";"your";
    "you";"we";"our";"they" ].

Definition STOP : gset string := list_to_set STOP_words.

(** A string operation that acts on each code unit by itself. *)
Fixpoint map_units (f : ascii -> ascii) (s : string) : string :=
  match s with
  | EmptyString => EmptyString
  | String c s' => String (f c) (map_units f s')
  end.

(** [s.toLowerCase()] *)
Definition toLowerCase (s : string) : string := map_units CodeUnit.toLowerCase s.

(** [s.replace(/[^a-z0-9\s]/g, " ")] *)
Definition replace_non_alnum (s : string) : string :=
  map_units
    (fun c => if CodeUnit.is_lower c || CodeUnit.is_digit c || CodeUnit.is_space c
              then c else " "%char)
    s.

(** [s.split(/\s+/)].  The scanner keeps the piece read so far in [cur]; a
    separator is a maximal run of white space ([insep] tells that the scanner
    is inside one), and the piece before it is emitted when the run starts.
    The last piece is emitted at the end of the string, so the empty string
    gives one empty piece, and white space at either end gives an empty piece
    there. *)
Fixpoint split_ws_from (insep : bool) (cur : string) (s : string) : list string :=
  match s with
  | EmptyString => [cur]
  | String c s' =>
      if CodeUnit.is_space c then
        if insep then split_ws_from true cur s'
        else cur :: split_ws_from true "" s'
      else split_ws_from false (cur ++ String c "") s'
  end.

Definition split_ws (s : string) : list string := split_ws_from false "" s.

(** [(w) => w && !STOP.has(w)] *)
Definition keep_token (w : string) : Prop := w ≠ "" ∧ w ∉ STOP.

#[global] Instance keep_token_dec w : Decision (keep_token w).
Proof. unfold keep_token. apply _. Defined.

(** [tokenize]; [None] is [undefined] (or [null]), which [(t || "")] turns
    into the empty string, as it does the empty string itself. *)
Definition tokenize (t : option string) : list string :=
  filter keep_token (split_ws (replace_non_alnum (toLowerCase (default "" t)))).

(** ** Numbers *)

(** [Math.round]: the nearest integer, a tie going up. *)
Definition Math_round (x : Q) : Z := Qfloor (x + (1 # 2)).

(** ** The coverage evaluator *)

(** A requirement item [{ code, text }]. *)
Record Requirement := { req_code : option string; req_text : option string }.

Record CoverageResult := {
  total : Z;
  assessed : Z;
  percentage : Z;
  missing : list string;
}.

(** [t.code || t.text.slice(0, 60)].  The loop evaluates it only for a
    requirement whose needle is not empty, so whose [text] is a string (see
    [needle_text]); an absent text reads as the empty string here. *)
Definition label (t : Requirement) : string :=
  match req_code t with
  | Some c => if decide (c = "") then substring 0 60 (default "" (req_text t)) else c
  | None => substring 0 60 (default "" (req_text t))
  end.

(** [key.filter((k) => textTokens.has(k)).length] *)
Definition present_count (textTokens : gset string) (key : list string) : Z :=
  Z.of_nat (length (filter (λ k, k ∈ textTokens) key)).

(** [present / key.length >= 0.35] *)
Definition ratio (textTokens : gset string) (key : list string) : Q :=
  inject_Z (present_count textTokens key) / inject_Z (Z.of_nat (length key)).

Definition ratio_ok (textTokens : gset string) (key : list string) : bool :=
  Qle_bool 0.35 (ratio textTokens key).

(** The body of the [for] loop.  The loop state is [(missing, covered)]. *)
Definition check_step (textTokens : gset string)
    (st : list string * Z) (t : Requirement) : list string * Z :=
  let key := tokenize (req_text t) in
  if decide (key = []) then st
  else if ratio_ok textTokens key then (st.1, st.2 + 1)%Z
  else (st.1 ++ [label t], st.2).

Definition coverageCheck (fullText : option string) (targets : list Requirement)
  : CoverageResult :=
  let textTokens : gset string := list_to_set (tokenize (Some (default "" fullText))) in
  let st := fold_left (check_step textTokens) targets ([], 0%Z) in
  let n := Z.of_nat (length targets) in
  {| total := n;
     assessed := st.2;
     percentage :=
       if (n =? 0)%Z then 0%Z else Math_round (inject_Z (st.2 * 100) / inject_Z n);
     missing := st.1 |}.

(** ** The unit report builder *)

Inductive Status := pass | warning | fail.
Inductive GapType := critical | improvement.
Inductive Priority := HIGH | MEDIUM.

#[global] Instance Status_eq_dec : EqDecision Status.
Proof. solve_decision. Defined.

#[global] Instance GapType_eq_dec : EqDecision GapType.
Proof. solve_decision. Defined.

#[global] Instance Priority_eq_dec : EqDecision Priority.
Proof. solve_decision. Defined.

Record StatusEntry := { status : Status; score : Z }.

Record Gap := {
  type : GapType;
  element : option string;
  description : string;
  recommendation : string;
  priority : Priority;
}.

Record Unit := { code : option string; title : string; url : option string }.

Record Coverage := { performanceCriteria : CoverageResult; knowledge : CoverageResult }.

Record RulesOfEvidence := {
  validity : StatusEntry;
  sufficiency : StatusEntry;
  authenticity : StatusEntry;
  currency : StatusEntry;
}.

Record PrinciplesOfAssessment := {
  fairness : StatusEntry;
  flexibility : StatusEntry;
  poa_validity : StatusEntry;
  reliability : StatusEntry;
}.

Record UnitReport := {
  unit : Unit;
  coverage : Coverage;
  rulesOfEvidence : RulesOfEvidence;
  principlesOfAssessment : PrinciplesOfAssessment;
  gaps : list Gap;
}.

(** The payload of [/api/uoc/:code], as far as the client reads it. *)
Record PCEntry := { pcCode : option string; pc_description : option string }.
Record PayloadUnit := { pu_code : option string; pu_title : option string }.

Record TGAPayload := {
  payload_unit : option PayloadUnit;
  payload_code : option string;
  payload_title : option string;
  payload_url : option string;
  elementsAndPC : option (list PCEntry);
  knowledgeEvidence : option (list string);
  found : option bool;
}.

(** A string-valued expression is truthy when it is a non-empty string. *)
Definition truthy (v : option string) : bool :=
  match v with
  | Some s => negb (String.eqb s "")
  | None => false
  end.

(** [a || b] *)
Definition or_else (a b : option string) : option string := if truthy a then a else b.

(** Decimal numeral of a natural number, as a template literal prints it. *)
Definition decimal (n : nat) : string := NilEmpty.string_of_uint (Nat.to_uint n).

Definition pc_gap (pc : string) : Gap :=
  {| type := critical;
     element := Some pc;
     description := "Performance criterion not clearly evidenced in assessment text.";
     recommendation := "Add/clarify an assessment task or marking checklist item for this PC.";
     priority := HIGH |}.

Definition ke_gap (k : string) : Gap :=
  {| type := improvement;
     element := Some k;
     description := "Knowledge evidence coverage could be strengthened.";
     recommendation := "Add a short-answer/scenario question to explicitly test this knowledge.";
     priority := MEDIUM |}.

(** [xs.forEach((x) => gaps.push(f(x)))] *)
Definition forEach_push {A} (f : A → Gap) (xs : list A) (gaps : list Gap) : list Gap :=
  fold_left (λ gs x, gs ++ [f x]) xs gaps.

Definition validity_status (v : Z) : Status :=
  if (85 <=? v)%Z then pass else if (70 <=? v)%Z then warning else fail.

Definition sufficiency_status (s : Z) : Status :=
  if (90 <=? s)%Z then pass else if (75 <=? s)%Z then warning else fail.

(** [Math.min(100, Math.round(pc * 0.6 + ke * 0.4))] *)
Definition sufficiency_score (pc ke : Z) : Z :=
  Z.min 100 (Math_round (inject_Z pc * 0.6 + inject_Z ke * 0.4)).

Definition buildReportFromTGA (assessmentText : string) (tgaPayload : TGAPayload)
  : UnitReport :=
  let unit :=
    if truthy (payload_unit tgaPayload ≫= pu_code) then
      {| code := payload_unit tgaPayload ≫= pu_code;
         title := default ""
                    (or_else (or_else (payload_unit tgaPayload ≫= pu_title)
                                      (payload_title tgaPayload))
                             (Some ""));
         url := payload_url tgaPayload |}
    else
      {| code := payload_code tgaPayload;
         title := default "" (or_else (payload_title tgaPayload) (Some ""));
         url := payload_url tgaPayload |} in
  let pcs :=
    (λ p, {| req_code := Some ("PC " ++ default "" (pcCode p))%string;
             req_text := pc_description p |})
    <$> filter (λ p, truthy (pcCode p) && truthy (pc_description p) = true)
          (default [] (elementsAndPC tgaPayload)) in
  let kes :=
    imap (λ i t, {| req_code := Some ("K" ++ decimal (i + 1))%string; req_text := Some t |})
         (default [] (knowledgeEvidence tgaPayload)) in
  let pcCov := coverageCheck (Some assessmentText) pcs in
  let keCov := coverageCheck (Some assessmentText) kes in
  let sufficiency' := sufficiency_score (percentage pcCov) (percentage keCov) in
  let validity' := percentage pcCov in
  let rulesOfEvidence' :=
    {| validity := {| status := validity_status validity'; score := validity' |};
       sufficiency := {| status := sufficiency_status sufficiency'; score := sufficiency' |};
       authenticity := {| status := pass; score := 100 |};
       currency := {| status := pass; score := 100 |} |} in
  let principlesOfAssessment' :=
    {| fairness := {| status := pass; score := 95 |};
       flexibility := {| status := pass; score := 90 |};
       poa_validity := {| status := status (validity rulesOfEvidence'); score := validity' |};
       reliability := {| status := pass; score := 92 |} |} in
  let gaps := forEach_push pc_gap (take 5 (missing pcCov)) [] in
  let gaps := forEach_push ke_gap (take 5 (missing keCov)) gaps in
  {| unit := unit;
     coverage := {| performanceCriteria := pcCov; knowledge := keCov |};
     rulesOfEvidence := rulesOfEvidence';
     principlesOfAssessment := principlesOfAssessment';
     gaps := gaps |}.

(** ** The multi-unit aggregator *)

Inductive Tab := upload | results.

#[global] Instance Tab_eq_dec : EqDecision Tab.
Proof. solve_decision. Defined.

(** The state of the [App] component (its [useState] cells). *)
Record AppState := {
  activeTab : Tab;
  assessmentFile : option string;
  assessmentText : string;
  detectedUoCs : list string;
  reports : list UnitReport;
  activeReportIdx : nat;
  isProcessing : bool;
  uploadError : string;
}.

Definition setActiveTab (v : Tab) (s : AppState) : AppState :=
  {| activeTab := v; assessmentFile := assessmentFile s;
     assessmentText := assessmentText s; detectedUoCs := detectedUoCs s;
     reports := reports s; activeReportIdx := activeReportIdx s;
     isProcessing := isProcessing s; uploadError := uploadError s |}.

Definition setAssessmentFile (v : option string) (s : AppState) : AppState :=
  {| activeTab := activeTab s; assessmentFile := v;
     assessmentText := assessmentText s; detectedUoCs := detectedUoCs s;
     reports := reports s; activeReportIdx := activeReportIdx s;
     isProcessing := isProcessing s; uploadError := uploadError s |}.

Definition setAssessmentText (v : string) (s : AppState) : AppState :=
  {| activeTab := activeTab s; assessmentFile := assessmentFile s;
     assessmentText := v; detectedUoCs := detectedUoCs s;
     reports := reports s; activeReportIdx := activeReportIdx s;
     isProcessing := isProcessing s; uploadError := uploadError s |}.

Definition setDetectedUoCs (v : list string) (s : AppState) : AppState :=
  {| activeTab := activeTab s; assessmentFile := assessmentFile s;
     assessmentText := assessmentText s; detectedUoCs := v;
     reports := reports s; activeReportIdx := activeReportIdx s;
     isProcessing := isProcessing s; uploadError := uploadError s |}.

Definition setReports (v : list UnitReport) (s : AppState) : AppState :=
  {| activeTab := activeTab s; assessmentFile := assessmentFile s;
     assessmentText := assessmentText s; detectedUoCs := detectedUoCs s;
     reports := v; activeReportIdx := activeReportIdx s;
     isProcessing := isProcessing s; uploadError := uploadError s |}.

Definition setActiveReportIdx (v : nat) (s : AppState) : AppState :=
  {| activeTab := activeTab s; assessmentFile := assessmentFile s;
     assessmentText := assessmentText s; detectedUoCs := detectedUoCs s;
     reports := reports s; activeReportIdx := v;
     isProcessing := isProcessing s; uploadError := uploadError s |}.

Definition setIsProcessing (v : bool) (s : AppState) : AppState :=
  {| activeTab := activeTab s; assessmentFile := assessmentFile s;
     assessmentText := assessmentText s; detectedUoCs := detectedUoCs s;
     reports := reports s; activeReportIdx := activeReportIdx s;
     isProcessing := v; uploadError := uploadError s |}.

Definition setUploadError (v : string) (s : AppState) : AppState :=
  {| activeTab := activeTab s; assessmentFile := assessmentFile s;
     assessmentText := assessmentText s; detectedUoCs := detectedUoCs s;
     reports := reports s; activeReportIdx := activeReportIdx s;
     isProcessing := isProcessing s; uploadError := v |}.

Definition zero_coverage : CoverageResult :=
  {| total := 0; assessed := 0; percentage := 0; missing := [] |}.

Definition template_rules : RulesOfEvidence :=
  {| validity := {| status := fail; score := 0 |};
     sufficiency := {| status := fail; score := 0 |};
     authenticity := {| status := warning; score := 50 |};
     currency := {| status := warning; score := 50 |} |}.

Definition template_principles : PrinciplesOfAssessment :=
  {| fairness := {| status := warning; score := 50 |};
     flexibility := {| status := warning; score := 50 |};
     poa_validity := {| status := fail; score := 0 |};
     reliability := {| status := warning; score := 50 |} |}.

(** The report of the branch [!detectedUoCs.length]. *)
Definition no_uoc_report : UnitReport :=
  {| unit := {| code := Some "N/A"; title := "No UoC detected"; url := None |};
     coverage := {| performanceCriteria := zero_coverage; knowledge := zero_coverage |};
     rulesOfEvidence := template_rules;
     principlesOfAssessment := template_principles;
     gaps :=
       [ {| type := critical;
            element := Some "UoC";
            description := "No valid UoC detected in document.";
            recommendation :=
              "Ensure the assessment references the correct Unit code(s) per Training.gov.au.";
            priority := HIGH |} ] |}.

(** The report of a unit whose lookup failed; [code] is [detectedUoCs[idx]]. *)
Definition failure_report (code : option string) : UnitReport :=
  {| unit := {| code := code; title := "No TGA details available"; url := None |};
     coverage := {| performanceCriteria := zero_coverage; knowledge := zero_coverage |};
     rulesOfEvidence := template_rules;
     principlesOfAssessment := template_principles;
     gaps :=
       [ {| type := critical;
            element := code;
            description := "Could not fetch details from training.gov.au for this code.";
            recommendation := "Check the unit code or try again later.";
            priority := HIGH |} ] |}.

(** One entry of the array of [Promise.allSettled]: [fulfilled v] is
    [{ status: "fulfilled", value: v }], where [v] is a payload or [null];
    [rejected] is an entry of any other status. *)
Inductive Settled := fulfilled (value : option TGAPayload) | rejected.

(** [settled.status !== "fulfilled" || !settled.value ||
     settled.value.found === false] *)
Definition lookup_failed (settled : Settled) : bool :=
  match settled with
  | rejected => true
  | fulfilled None => true
  | fulfilled (Some v) => bool_decide (found v = Some false)
  end.

(** The callback of [results.map]. *)
Definition per_unit_report (assessmentText : string) (detectedUoCs : list string)
    (idx : nat) (settled : Settled) : UnitReport :=
  let code := detectedUoCs !! idx in
  if lookup_failed settled then failure_report code
  else
    match settled with
    | fulfilled (Some v) => buildReportFromTGA assessmentText v
    | _ => failure_report code
    end.

(** [Promise.allSettled(promises)].  The promises settle one by one, in the
    order [order] of their indices; the one of index [i] stores its outcome
    in slot [i] of the result array, which is delivered once no slot is
    empty.  [None]: some promise never settles, the [await] does not
    return. *)
Definition settle (outcomes : list Settled) (slots : list (option Settled)) (i : nat)
  : list (option Settled) :=
  match outcomes !! i with
  | Some o => <[i := Some o]> slots
  | None => slots
  end.

Definition allSettled (outcomes : list Settled) (order : list nat) : option (list Settled) :=
  mapM id (fold_left (settle outcomes) order (replicate (length outcomes) None)).

(** [validate], run to its end with no other handler in between.  [fetchUoc]
    is the outcome of the lookup of a code, [order] the order in which the
    lookups complete. *)
Definition validate (fetchUoc : string → Settled) (order : list nat) (s : AppState)
  : AppState :=
  if decide (length (detectedUoCs s) = 0) then
    setReports [no_uoc_report] (setActiveTab results s)
  else
    let s1 := setActiveTab results (setIsProcessing true s) in
    match allSettled (fetchUoc <$> detectedUoCs s) order with
    | None => s1
    | Some results' =>
        let perUnitReports :=
          imap (per_unit_report (assessmentText s) (detectedUoCs s)) results' in
        setIsProcessing false (setActiveReportIdx 0 (setReports perUnitReports s1))
    end.

(** ** The handlers of the component *)

(** The handlers as events.  [handleUpload] runs in two
    parts, before and after its request to [/api/extract]; [pending] counts
    the requests that have not been answered yet. *)
Record World := { app : AppState; pending : nat }.

Inductive Event :=
| ChooseFile (file : string)
| ExtractResponse (detected : list string) (text : string)
| ClickValidate (fetchUoc : string → Settled) (order : list nat)
| SelectReport (idx : nat)
| SelectTab (tab : Tab).

(** [handleUpload], up to the request. *)
Definition handleUpload_start (file : string) (s : AppState) : AppState :=
  setAssessmentFile (Some file)
    (setActiveReportIdx 0
       (setReports []
          (setAssessmentText "" (setDetectedUoCs [] (setUploadError "" s))))).

(** [handleUpload], from the answer [{ text, detected }] of the request on. *)
Definition handleUpload_done (detected : list string) (text : string) (s : AppState)
  : AppState :=
  setUploadError "" (setAssessmentText text (setDetectedUoCs detected s)).

(** One event, when the page allows it: the file input and the Validate
    button are on the upload tab, the button is disabled without a file and
    while processing, the list of reports is on the results tab, and the
    results tab is disabled without reports.  [ClickValidate] is a call of
    [validate] whose lookups settle before anything else happens; a call
    that waits while other handlers run is the pair of steps [ValidateStart]
    and [LookupsDone] of [handle_step] below. *)
Definition handle (e : Event) (w : World) : option World :=
  let s := app w in
  match e with
  | ChooseFile file =>
      if decide (activeTab s = upload) then
        Some {| app := handleUpload_start file s; pending := S (pending w) |}
      else None
  | ExtractResponse detected text =>
      match pending w with
      | S n => Some {| app := handleUpload_done detected text s; pending := n |}
      | O => None
      end
  | ClickValidate fetchUoc order =>
      if decide (activeTab s = upload ∧ is_Some (assessmentFile s)
                 ∧ isProcessing s = false)
      then Some {| app := validate fetchUoc order s; pending := pending w |}
      else None
  | SelectReport idx =>
      if decide (activeTab s = results ∧ (idx < length (reports s))%nat)
      then Some {| app := setActiveReportIdx idx s; pending := pending w |}
      else None
  | SelectTab tab =>
      if decide (tab = upload ∨ length (reports s) ≠ 0%nat)
      then Some {| app := setActiveTab tab s; pending := pending w |}
      else None
  end.

Fixpoint run (events : list Event) (w : World) : option World :=
  match events with
  | [] => Some w
  | e :: events' => handle e w ≫= run events'
  end.

(** ** The tokenizer, split at every white-space code unit *)

(** Splitting at every white-space code unit: two adjacent ones have an empty
    piece between them. *)
Definition prepend (cur : string) (ps : list string) : list string :=
  match ps with
  | w :: ws => (cur ++ w)%string :: ws
  | [] => [cur]
  end.

Fixpoint pieces (s : string) : list string :=
  match s with
  | EmptyString => [""]
  | String c s' =>
      if CodeUnit.is_space c then "" :: pieces s'
      else prepend (String c "") (pieces s')
  end.

(** [tokenize] with the runs of white space split at each of their code
    units, and the empty pieces between them dropped with the others: an
    intermediate form for the proofs.  The tokenizer that the specification
    words is [Utf16.tokenize_spec]. *)
Definition tokenize_spec (t : string) : list string :=
  let lowered := map_units CodeUnit.toLowerCase t in
  let cleaned :=
    map_units
      (fun c => if CodeUnit.is_lower c || CodeUnit.is_digit c || CodeUnit.is_space c
                then c else " "%char) lowered in
  filter (λ w, w ∉ STOP) (filter (λ w, w ≠ "") (pieces cleaned)).

(** A string all of whose code units satisfy [P]. *)
Fixpoint all_units (P : ascii → bool) (s : string) : bool :=
  match s with
  | EmptyString => true
  | String c s' => P c && all_units P s'
  end.

(** The shape of a token: not empty, not a stop word, made of [a-z0-9]. *)
Definition token_shape (w : string) : Prop :=
  w ≠ "" ∧ (w ∉ STOP)
  ∧ (all_units (λ c, CodeUnit.is_lower c || CodeUnit.is_digit c) w = true).

(** ** The tokenizer on every string *)

(** [tokenize] on a JavaScript string whatever its code units, and the
    tokenizer that the specification words, stated on its own.  The
    definitions above are the same pipeline on the strings of code units
    0..255. *)
Module Utf16.

(** A JavaScript string: the list of its UTF-16 code units. *)
Abbreviation jsstring := (list N).

Definition units (s : string) : jsstring := N_of_ascii <$> list_ascii_of_string s.

(** [[A-Z]], [[a-z]], [[0-9]] and [\s] (white space and line terminators). *)
Definition is_upper (c : N) : bool := ((65 <=? c) && (c <=? 90))%N.
Definition is_lower (c : N) : bool := ((97 <=? c) && (c <=? 122))%N.
Definition is_digit (c : N) : bool := ((48 <=? c) && (c <=? 57))%N.
Definition is_space (c : N) : bool :=
  ((9 <=? c) && (c <=? 13) || (c =? 32) || (c =? 160) || (c =? 0x1680)
   || (0x2000 <=? c) && (c <=? 0x200A) || (c =? 0x2028) || (c =? 0x2029)
   || (c =? 0x202F) || (c =? 0x205F) || (c =? 0x3000) || (c =? 0xFEFF))%N.

(** The code units whose lower case is spelled out below: the letters A-Z,
    what is already a lower-case letter, a digit or white space, and the two
    code units whose lower case has an ASCII letter, LATIN CAPITAL LETTER I
    WITH DOT ABOVE (U+0130, which becomes i followed by COMBINING DOT ABOVE)
    and KELVIN SIGN (U+212A, which becomes k). *)
Definition listed (c : N) : bool :=
  is_upper c || is_lower c || is_digit c || is_space c
  || (c =? 0x130)%N || (c =? 0x212A)%N.

(** [String.prototype.toLowerCase] follows the case table of Unicode.  The
    table is a parameter for the code units that are not listed:
    [lower_other s i c] is what the unit [c] at index [i] of [s] becomes (a
    surrogate becomes its half of the lower case of the pair, and a sigma
    depends on what follows it). *)
Definition lower_unit (lower_other : jsstring → nat → N → jsstring)
    (s : jsstring) (i : nat) (c : N) : jsstring :=
  if is_upper c then [(c + 32)%N]
  else if is_lower c || is_digit c || is_space c then [c]
  else if (c =? 0x130)%N then [0x69; 0x307]%N
  else if (c =? 0x212A)%N then [0x6B]%N
  else lower_other s i c.

Fixpoint toLowerCase_from (lower_other : jsstring → nat → N → jsstring)
    (s : jsstring) (i : nat) (rest : jsstring) : jsstring :=
  match rest with
  | [] => []
  | c :: rest' =>
      lower_unit lower_other s i c ++ toLowerCase_from lower_other s (S i) rest'
  end.

(** [s.toLowerCase()] *)
Definition toLowerCase (lower_other : jsstring → nat → N → jsstring) (s : jsstring)
  : jsstring :=
  toLowerCase_from lower_other s 0 s.

(** [s.replace(/[^a-z0-9\s]/g, " ")]: without the flag [u] the expression
    is matched code unit by code unit. *)
Definition replace_non_alnum (s : jsstring) : jsstring :=
  (λ c, if is_lower c || is_digit c || is_space c then c else 32%N) <$> s.

(** [s.split(/\s+/)] *)
Fixpoint split_ws_from (insep : bool) (cur : jsstring) (s : jsstring) : list jsstring :=
  match s with
  | [] => [cur]
  | c :: s' =>
      if is_space c then
        if insep then split_ws_from true cur s'
        else cur :: split_ws_from true [] s'
      else split_ws_from false (cur ++ [c]) s'
  end.

Definition split_ws (s : jsstring) : list jsstring := split_ws_from false [] s.

Definition STOP : gset jsstring := list_to_set (units <$> STOP_words).

(** [(w) => w && !STOP.has(w)] *)
Definition keep_token (w : jsstring) : Prop := w ≠ [] ∧ w ∉ STOP.

#[global] Instance keep_token_dec w : Decision (keep_token w).
Proof. unfold keep_token. apply _. Defined.

(** [tokenize] *)
Definition tokenize (lower_other : jsstring → nat → N → jsstring)
    (t : option jsstring) : list jsstring :=
  filter keep_token
    (split_ws (replace_non_alnum (toLowerCase lower_other (default [] t)))).

(** What is assumed of the case table: a code unit that is not listed
    becomes at least one code unit, none of them a letter a-z, a digit or
    white space. *)
Definition case_table (lower_other : jsstring → nat → N → jsstring) : Prop :=
  ∀ s i c, listed c = false →
    lower_other s i c ≠ []
    ∧ Forall (λ u, is_lower u || is_digit u || is_space u = false) (lower_other s i c).

(** The case table of the code units 0..255, and the table that changes
    nothing. *)
Definition latin1_other (s : jsstring) (i : nat) (c : N) : jsstring :=
  if ((192 <=? c) && (c <=? 222) && negb (c =? 215))%N then [(c + 32)%N] else [c].

Definition no_other (s : jsstring) (i : nat) (c : N) : jsstring := [c].

(** *** The tokenizer as the specification words it

    "Lower-cases input.  Replaces every character outside [a-z0-9
    whitespace] with a space.  Splits on runs of whitespace.  Drops empty
    strings and any token present in a fixed stop-word set: the, and, a, an,
    for, to, of, in, on, by, with, as, that, are, is, be, or, at, from, this,
    it, into, over, under, up, down, across, about, between, their, your,
    you, we, our, they."

    The definitions below use nothing of the ones above.  A character is
    looked up in the alphabet; white space is replaced by a space with the
    characters outside [a-z0-9], which gives the same pieces; the runs of
    spaces are split at each space and the empty pieces between them are
    dropped with the others. *)
Definition spec_upper : jsstring := units "ABCDEFGHIJKLMNOPQRSTUVWXYZ".
Definition spec_lower : jsstring := units "abcdefghijklmnopqrstuvwxyz".
Definition spec_digits : jsstring := units "0123456789".

Definition spec_stop_words : list jsstring :=
  units <$>
    [ "the"; "and"; "a"; "an"; "for"; "to"; "of"; "in"; "on"; "by"; "with"; "as";
      "that"; "are"; "is"; "be"; "or"; "at"; "from"; "this"; "it"; "into"; "over";
      "under"; "up"; "down"; "across"; "about"; "between"; "their"; "your"; "you";
      "we"; "our"; "they" ].

(** The position of a code unit in an alphabet. *)
Fixpoint position (c : N) (alphabet : jsstring) : option nat :=
  match alphabet with
  | [] => None
  | a :: alphabet' => if decide (a = c) then Some 0%nat else S <$> position c alphabet'
  end.

(** The lower case of a character and the replacement of what is outside
    [a-z0-9] by a space, in one step. *)
Definition spec_clean (c : N) : jsstring :=
  match position c spec_upper with
  | Some i => option_list (spec_lower !! i)
  | None =>
      if decide (c ∈ spec_lower ++ spec_digits) then [c]
      else if decide (c = 0x212A%N) then units "k"
      else if decide (c = 0x130%N) then units "i "
      else units " "
  end.

Definition spec_prepend (c : N) (ps : list jsstring) : list jsstring :=
  match ps with
  | w :: ws => (c :: w) :: ws
  | [] => [[c]]
  end.

(** The pieces between the spaces. *)
Fixpoint spec_pieces (s : jsstring) : list jsstring :=
  match s with
  | [] => [[]]
  | c :: s' =>
      if decide (c = 32%N) then [] :: spec_pieces s'
      else spec_prepend c (spec_pieces s')
  end.

Definition tokenize_spec (t : jsstring) : list jsstring :=
  filter (λ w, w ∉ spec_stop_words)
    (filter (λ w, w ≠ []) (spec_pieces (t ≫= spec_clean))).

(** The non-empty runs between separators, read from left to right: [cur]
    is the run read so far. *)
Fixpoint words_from (sep : N → bool) (cur : jsstring) (s : jsstring) : list jsstring :=
  match s with
  | [] => if decide (cur = []) then [] else [cur]
  | c :: s' =>
      if sep c then
        (if decide (cur = []) then [] else [cur]) ++ words_from sep [] s'
      else words_from sep (cur ++ [c]) s'
  end.

(** A text with the Kelvin sign, the dotted capital I, a no-break space, a
    line separator and a stop word. *)
Definition sample_text : jsstring :=
  [0x212A%N] ++ units "elvin" ++ [160%N; 0x130%N] ++ units "stanbul"
  ++ [0x2028%N] ++ units "THE Deck-42" ++ [233%N; 0xD83D%N; 0xDE00%N] ++ units "x".

End Utf16.

(** ** Verdicts, and the statements of the specification *)

(** The haystack: [new Set(tokenize(fullText || ""))]. *)
Definition haystack (fullText : option string) : gset string :=
  list_to_set (tokenize (Some (default "" fullText))).

(** The needle of a requirement. *)
Definition needle (t : Requirement) : list string := tokenize (req_text t).

(** The three verdicts of the loop body. *)
Definition skipped (t : Requirement) : Prop := needle t = [].

Definition covered (hay : gset string) (t : Requirement) : Prop :=
  needle t ≠ [] ∧ ratio_ok hay (needle t) = true.

Definition uncovered (hay : gset string) (t : Requirement) : Prop :=
  needle t ≠ [] ∧ ratio_ok hay (needle t) = false.

#[global] Instance skipped_dec t : Decision (skipped t).
Proof. unfold skipped. apply _. Defined.

#[global] Instance covered_dec hay t : Decision (covered hay t).
Proof. unfold covered. apply _. Defined.

#[global] Instance uncovered_dec hay t : Decision (uncovered hay t).
Proof. unfold uncovered. apply _. Defined.

(** The invariant as the data model states it, for the result [r] of a
    requirement list [targets]. *)
Definition coverage_invariant_spec (targets : list Requirement) (r : CoverageResult)
  : Prop :=
  (0 ≤ assessed r ≤ total r)%Z
  ∧ percentage r
    = (if decide (0 < total r)%Z
       then Math_round (inject_Z (assessed r * 100) / inject_Z (total r))
       else 0%Z)
  ∧ Z.of_nat (length (missing r)) = (total r - assessed r)%Z
  ∧ missing r `sublist_of` (label <$> targets).

(** C2, as stated: [total] is the number of requirements whose needle is not
    empty. *)
Definition total_counts_scored_spec (targets : list Requirement) (r : CoverageResult)
  : Prop :=
  total r = Z.of_nat (length (filter (λ t, ¬ skipped t) targets)).

(** The number of needle tokens that are members of the haystack, every
    occurrence of a token counted. *)
Fixpoint token_hits (hay : gset string) (key : list string) : Z :=
  match key with
  | [] => 0
  | k :: key' => ((if decide (k ∈ hay) then 1 else 0) + token_hits hay key')%Z
  end.

(** The first 60 code units of a string. *)
Definition first_60 (s : string) : string := substring 0 60 s.

(** A coverage result [rB] that is nowhere lower than [rA]. *)
Definition not_lower (rA rB : CoverageResult) : Prop :=
  (assessed rA ≤ assessed rB)%Z
  ∧ (percentage rA ≤ percentage rB)%Z
  ∧ missing rB `sublist_of` missing rA.

(** The standardized report of a failed lookup, field by field. *)
Definition standard_failure (code : option string) (r : UnitReport) : Prop :=
  unit r = {| code := code; title := "No TGA details available"; url := None |}
  ∧ performanceCriteria (coverage r)
    = {| total := 0; assessed := 0; percentage := 0; missing := [] |}
  ∧ knowledge (coverage r)
    = {| total := 0; assessed := 0; percentage := 0; missing := [] |}
  ∧ validity (rulesOfEvidence r) = {| status := fail; score := 0 |}
  ∧ sufficiency (rulesOfEvidence r) = {| status := fail; score := 0 |}
  ∧ authenticity (rulesOfEvidence r) = {| status := warning; score := 50 |}
  ∧ currency (rulesOfEvidence r) = {| status := warning; score := 50 |}
  ∧ fairness (principlesOfAssessment r) = {| status := warning; score := 50 |}
  ∧ flexibility (principlesOfAssessment r) = {| status := warning; score := 50 |}
  ∧ reliability (principlesOfAssessment r) = {| status := warning; score := 50 |}
  ∧ ∃ g, gaps r = [g] ∧ type g = critical ∧ priority g = HIGH ∧ element g = code.

(** ** Sample data *)

(** A knowledge item made of stop words only. *)
Definition stop_word_item : Requirement :=
  {| req_code := Some "K1"; req_text := Some "It is of the up and down." |}.

Definition deck_item : Requirement :=
  {| req_code := Some "PC 1.1";
     req_text := Some "Maintain safe deck practices and housekeeping." |}.

(** A needle of 20 tokens, of which the assessment text has 7, then 6. *)
Definition twenty_token_item : Requirement :=
  {| req_code := Some "PC 2.1";
     req_text := Some ("alpha bravo charlie delta echo foxtrot golf hotel india juliet "
                       ++ "kilo lima mike november oscar papa quebec romeo sierra tango")%string |}.

Definition eight_pc_payload : TGAPayload :=
  {| payload_unit := Some {| pu_code := Some "MARN008"; pu_title := Some "Seamanship" |};
     payload_code := None; payload_title := None; payload_url := None;
     elementsAndPC :=
       Some ((λ n, {| pcCode := Some n; pc_description := Some "Handle mooring lines." |})
             <$> ["1.1"; "1.2"; "1.3"; "1.4"; "2.1"; "2.2"; "2.3"; "2.4"]);
     knowledgeEvidence := Some ["Hazards of lines under load."];
     found := None |}.

Definition initial_state : AppState :=
  {| activeTab := upload; assessmentFile := None; assessmentText := "";
     detectedUoCs := []; reports := []; activeReportIdx := 0;
     isProcessing := false; uploadError := "" |}.

Definition marn008_payload : TGAPayload :=
  {| payload_unit :=
       Some {| pu_code := Some "MARN008";
               pu_title := Some "Apply seamanship skills aboard a vessel up to 12 metres (Mock)" |};
     payload_code := None; payload_title := None;
     payload_url := Some "https://training.gov.au/Training/Details/MARN008";
     elementsAndPC :=
       Some [ {| pcCode := Some "1.1";
                 pc_description := Some "Maintain safe deck practices and housekeeping." |};
              {| pcCode := Some "1.2";
                 pc_description := Some "Perform mooring and anchoring operations." |} ];
     knowledgeEvidence := Some ["Basic seamanship terminology and safety practices."];
     found := None |}.

(** A provider that knows MARN008 only. *)
Definition marn008_only (code : string) : Settled :=
  if decide (code = "MARN008") then fulfilled (Some marn008_payload)
  else fulfilled None.

Definition two_codes_state : AppState :=
  setAssessmentText "Maintain safe deck practices. Perform mooring operations."
    (setDetectedUoCs ["MARN008"; "UNKNOWNXYZ"] initial_state).

(** A first file, without unit codes and slow to extract; a second file with
    two codes, validated, and its second report selected; then the answer for
    the first file arrives and Validate is clicked again. *)
Definition stale_answer_run : list Event :=
  [ ChooseFile "first.docx";
    ChooseFile "second.docx";
    ExtractResponse ["MARN008"; "UNKNOWNXYZ"] "Maintain safe deck practices.";
    ClickValidate marn008_only [0; 1]%nat;
    SelectReport 1;
    ExtractResponse [] "No unit is named here.";
    SelectTab upload;
    ClickValidate marn008_only [] ].

Definition initial_world : World := {| app := initial_state; pending := 0 |}.

(** ** The same arithmetic in IEEE binary64 *)

Module Binary64.

Definition prec : Z := 53.
Definition emax : Z := 1024.

(** The double nearest to an integer. *)
Definition of_Z (z : Z) : spec_float := binary_normalize prec emax z 0 false.

Definition div : spec_float → spec_float → spec_float := SFdiv prec emax.
Definition mul : spec_float → spec_float → spec_float := SFmul prec emax.
Definition add : spec_float → spec_float → spec_float := SFadd prec emax.

(** The literals [0.35], [0.6] and [0.4]: the doubles nearest to 35/100,
    6/10 and 4/10, which is what the correctly rounded quotients are. *)
Definition lit_0_35 : spec_float := div (of_Z 35) (of_Z 100).
Definition lit_0_6 : spec_float := div (of_Z 6) (of_Z 10).
Definition lit_0_4 : spec_float := div (of_Z 4) (of_Z 10).

(** The double [0.35] as a rational number, and the double just below it. *)
Definition double_0_35 : Q := 6305039478318694 # 2 ^ 54.
Definition below_0_35 : Q := 6305039478318693 # 2 ^ 54.

(** The rational number that a finite double stands for. *)
Definition to_Q (f : spec_float) : Q :=
  match f with
  | S754_finite s m e =>
      inject_Z (if s then Z.neg m else Z.pos m) * (2 ^ e)%Q
  | _ => 0
  end.

(** [Math.round] of a finite double. *)
Definition round (f : spec_float) : Z := Math_round (to_Q f).

(** [present / key.length >= 0.35] *)
Definition b64_ratio_ok (present len : Z) : bool :=
  SFleb lit_0_35 (div (of_Z present) (of_Z len)).

(** [Math.round((covered * 100) / targets.length)] *)
Definition b64_percentage (covered n : Z) : Z :=
  round (div (mul (of_Z covered) (of_Z 100)) (of_Z n)).

(** [Math.min(100, Math.round(pc * 0.6 + ke * 0.4))] *)
Definition b64_sufficiency_score (pc ke : Z) : Z :=
  Z.min 100 (round (add (mul (of_Z pc) lit_0_6) (mul (of_Z ke) lit_0_4))).

(** The integers [lo, lo + 1, ..., lo + n - 1]. *)
Definition range (lo : Z) (n : nat) : list Z := (λ i, lo + Z.of_nat i)%Z <$> seq 0 n.

(** The checks: sufficiency for all percentages 0..100; the ratio test and
    the percentage for all lengths up to [n] and all counts up to the
    length. *)
Definition sufficiency_agrees : bool :=
  forallb (λ pc, forallb (λ ke,
      (b64_sufficiency_score pc ke =? sufficiency_score pc ke)%Z)
    (range 0 101)) (range 0 101).

Definition ratio_agrees (n : nat) : bool :=
  forallb (λ len, forallb (λ present,
      Bool.eqb (b64_ratio_ok present len)
               (Qle_bool 0.35 (inject_Z present / inject_Z len)))
    (range 0 (Z.to_nat len + 1))) (range 1 n).

Definition percentage_agrees (n : nat) : bool :=
  forallb (λ len, forallb (λ covered,
      (b64_percentage covered len
       =? Math_round (inject_Z (covered * 100) / inject_Z len))%Z)
    (range 0 (Z.to_nat len + 1))) (range 1 n).

End Binary64.

(** ** Further parts of the component *)

(** The coverage result for a given haystack: the loop and the returned
    object of [coverageCheck]. *)
Definition coverage_of (hay : gset string) (targets : list Requirement) : CoverageResult :=
  let st := fold_left (check_step hay) targets ([], 0%Z) in
  let n := Z.of_nat (length targets) in
  {| total := n;
     assessed := st.2;
     percentage :=
       if (n =? 0)%Z then 0%Z else Math_round (inject_Z (st.2 * 100) / inject_Z n);
     missing := st.1 |}.

(** [(p) => p.pcCode && p.description], the filter of [elementsAndPC]. *)
Definition pc_usable (p : PCEntry) : Prop :=
  truthy (pcCode p) && truthy (pc_description p) = true.

(** The statuses, from worst to best. *)
Definition status_rank (s : Status) : nat :=
  match s with fail => 0 | warning => 1 | pass => 2 end.

(** The scores and counts of a report are percentages and consistent
    counts. *)
Definition entry_in_range (e : StatusEntry) : Prop := (0 ≤ score e ≤ 100)%Z.

Definition result_in_range (r : CoverageResult) : Prop :=
  (0 ≤ assessed r ≤ total r)%Z ∧ (0 ≤ percentage r ≤ 100)%Z.

Definition report_in_range (r : UnitReport) : Prop :=
  result_in_range (performanceCriteria (coverage r))
  ∧ result_in_range (knowledge (coverage r))
  ∧ entry_in_range (validity (rulesOfEvidence r))
  ∧ entry_in_range (sufficiency (rulesOfEvidence r))
  ∧ entry_in_range (authenticity (rulesOfEvidence r))
  ∧ entry_in_range (currency (rulesOfEvidence r))
  ∧ entry_in_range (fairness (principlesOfAssessment r))
  ∧ entry_in_range (flexibility (principlesOfAssessment r))
  ∧ entry_in_range (poa_validity (principlesOfAssessment r))
  ∧ entry_in_range (reliability (principlesOfAssessment r)).

(** The badge of the summary tiles:
    [performanceCriteria.percentage >= 90 && knowledge.percentage >= 85]
    shows "Looks Good", anything else "Needs Review". *)
Definition looks_good (r : UnitReport) : bool :=
  (90 <=? percentage (performanceCriteria (coverage r)))%Z
  && (85 <=? percentage (knowledge (coverage r)))%Z.

#[global] Instance pc_usable_dec p : Decision (pc_usable p).
Proof. unfold pc_usable. apply _. Defined.

(** The requirement items that [buildReportFromTGA] makes of the payload. *)
Definition pc_requirement (p : PCEntry) : Requirement :=
  {| req_code := Some ("PC " ++ default "" (pcCode p))%string;
     req_text := pc_description p |}.

Definition ke_requirement (i : nat) (t : string) : Requirement :=
  {| req_code := Some ("K" ++ decimal (i + 1))%string; req_text := Some t |}.

(** Ten performance criteria of which nine are evidenced by the text
    ["alpha"], and twenty knowledge items of which seventeen are. *)
Definition ninety_eighty_five_payload : TGAPayload :=
  {| payload_unit := Some {| pu_code := Some "MARN008"; pu_title := None |};
     payload_code := None; payload_title := None; payload_url := None;
     elementsAndPC :=
       Some ((λ d, {| pcCode := Some "1.1"; pc_description := Some d |})
             <$> (replicate 9 "alpha" ++ ["zulu"]));
     knowledgeEvidence := Some (replicate 17 "alpha" ++ replicate 3 "zulu");
     found := None |}.

(** A payload whose only entry has no description. *)
Definition no_description_payload : TGAPayload :=
  {| payload_unit := None; payload_code := Some "MARN008"; payload_title := None;
     payload_url := None;
     elementsAndPC := Some [ {| pcCode := Some "1.1"; pc_description := None |} ];
     knowledgeEvidence := Some ["Safe deck practices."];
     found := None |}.

(** The reset at the start of [handleUpload]. *)
Definition handleUpload_reset (s : AppState) : AppState :=
  setActiveReportIdx 0
    (setReports []
       (setAssessmentText "" (setDetectedUoCs [] (setUploadError "" s)))).

(** The body of an answer that is not [ok]: its text, and what
    [JSON.parse] makes of the text: [None] when it is not JSON, else
    [Some error], where [error] is the field of that name of the value, when
    it has one that is a string. *)
Record ErrorBody := {
  body_text : string;
  body_json : option (option string);
}.

(** [resp.json()] and [resp.text()].  The body of a response is a stream
    that can be read once: a reader rejects ([None]) when the body was read
    before, and marks it read ([bodyUsed]) otherwise; [resp.json()] reads the
    body to its end before it parses the text.  (An answer that has no body
    at all reads as the empty text every time, which [handleUpload] treats
    as it treats a rejection.) *)
Definition resp_json (body : ErrorBody) (bodyUsed : bool) : option (option string) * bool :=
  if bodyUsed then (None, true) else (body_json body, true).

Definition resp_text (body : ErrorBody) (bodyUsed : bool) : option string * bool :=
  if bodyUsed then (None, true) else (Some (body_text body), true).

(** The message of [handleUpload] for an answer that is not [ok]. *)
Definition upload_failure_message (status : nat) (body : ErrorBody) : string :=
  let msg := ("Upload failed: HTTP " ++ decimal status)%string in
  let maybe := resp_json body false in
  let msg :=
    match maybe.1 with
    | Some error => if truthy error then default "" error else msg
    | None =>
        match (resp_text body maybe.2).1 with
        | Some t => if truthy (Some t) then substring 0 400 t else msg
        | None => msg
        end
    end in
  if truthy (Some msg) then msg else "Upload failed".

(** The component with a call of [validate] that waits for its lookups:
    [validating] holds what the call has read of the state when it started,
    the assessment text and the detected codes, which it uses when it
    resumes. *)
Record Session := {
  world : World;
  validating : option (string * list string);
}.

(** All that can happen to the component: the events above; the file dialog
    closed without a file; an answer of [/api/extract] that is not [ok]; a
    request that fails, or whose answer is not JSON; a call of [validate] up
    to its [await]; the lookups of the waiting call settled, and the call
    run to its end. *)
Inductive Step :=
| Do (e : Event)
| ChooseNothing
| ExtractRefused (status : nat) (body : ErrorBody)
| ExtractFailed
| ValidateStart
| LookupsDone (fetchUoc : string → Settled) (order : list nat).

Definition handle_step (st : Step) (x : Session) : option Session :=
  let w := world x in
  let s := app w in
  let now (s' : AppState) (pending' : nat) : Session :=
    {| world := {| app := s'; pending := pending' |}; validating := validating x |} in
  match st with
  | Do e => (λ w', {| world := w'; validating := validating x |}) <$> handle e w
  | ChooseNothing =>
      if decide (activeTab s = upload) then Some (now (handleUpload_reset s) (pending w))
      else None
  | ExtractRefused status body =>
      match pending w with
      | S n => Some (now (setUploadError (upload_failure_message status body) s) n)
      | O => None
      end
  | ExtractFailed =>
      match pending w with
      | S n => Some (now (setUploadError "Network error while uploading file." s) n)
      | O => None
      end
  | ValidateStart =>
      if decide (activeTab s = upload ∧ is_Some (assessmentFile s)
                 ∧ isProcessing s = false)
      then
        if decide (length (detectedUoCs s) = 0) then
          Some (now (setReports [no_uoc_report] (setActiveTab results s)) (pending w))
        else
          Some {| world := {| app := setActiveTab results (setIsProcessing true s);
                              pending := pending w |};
                  validating := Some (assessmentText s, detectedUoCs s) |}
      else None
  | LookupsDone fetchUoc order =>
      match validating x with
      | Some (text, codes) =>
          match allSettled (fetchUoc <$> codes) order with
          | Some results' =>
              let perUnitReports := imap (per_unit_report text codes) results' in
              Some {| world :=
                        {| app := setIsProcessing false
                                    (setActiveReportIdx 0 (setReports perUnitReports s));
                           pending := pending w |};
                      validating := None |}
          | None => None
          end
      | None => None
      end
  end.

Fixpoint run_steps (steps : list Step) (x : Session) : option Session :=
  match steps with
  | [] => Some x
  | st :: steps' => handle_step st x ≫= run_steps steps'
  end.

Definition initial_session : Session :=
  {| world := initial_world; validating := None |}.

(** A run in which a file is chosen only when no extraction request is
    pending, and the file input is used only when no call of [validate]
    waits for its lookups. *)
Definition starts_upload (st : Step) : Prop :=
  match st with Do (ChooseFile _) => True | _ => False end.

Definition uses_file_input (st : Step) : Prop :=
  match st with Do (ChooseFile _) | ChooseNothing => True | _ => False end.

Fixpoint one_at_a_time (steps : list Step) (x : Session) : Prop :=
  match steps with
  | [] => True
  | st :: steps' =>
      (starts_upload st → pending (world x) = 0%nat)
      ∧ (uses_file_input st → validating x = None)
      ∧ match handle_step st x with
        | Some x' => one_at_a_time steps' x'
        | None => True
        end
  end.

(** What such a run keeps true. *)
Definition selection_invariant (x : Session) : Prop :=
  let w := world x in
  (detectedUoCs (app w) = [] →
     activeReportIdx (app w) = 0%nat ∧ (length (reports (app w)) ≤ 1)%nat)
  ∧ ((0 < pending w)%nat → detectedUoCs (app w) = [])
  ∧ (reports (app w) ≠ [] →
       (activeReportIdx (app w) < length (reports (app w)))%nat)
  ∧ (pending w ≤ 1)%nat
  ∧ (∀ text codes, validating x = Some (text, codes) →
       codes = detectedUoCs (app w) ∧ codes ≠ [] ∧ pending w = 0%nat).

(** The answer of the server to a file that is neither a document nor a
    text, and the answer of a proxy that is not JSON. *)
Definition quoted (s : string) : string := String "034" (s ++ String "034" "").

Definition unsupported_type_body : ErrorBody :=
  {| body_text :=
       "{" ++ quoted "error" ++ ":" ++ quoted "Unsupported file type: image/png" ++ "}";
     body_json := Some (Some "Unsupported file type: image/png") |}.


(** Two files chosen one after the other, each answered before the next
    event, and the lookups of the validation settled before the second file
    is chosen. *)
Definition patient_run : list Step :=
  [ Do (ChooseFile "first.docx");
    Do (ExtractResponse ["MARN008"; "UNKNOWNXYZ"] "Maintain safe deck practices.");
    ValidateStart;
    Do (SelectTab upload);
    LookupsDone marn008_only [1; 0]%nat;
    Do (SelectTab results);
    Do (SelectReport 1);
    Do (SelectTab upload);
    Do (ChooseFile "second.docx");
    ExtractRefused 400 unsupported_type_body;
    ValidateStart ].

(** A second file chosen while the validation of the first waits for its
    lookups. *)
Definition impatient_run : list Step :=
  [ Do (ChooseFile "first.docx");
    Do (ExtractResponse ["MARN008"; "UNKNOWNXYZ"] "Maintain safe deck practices.");
    ValidateStart;
    Do (SelectTab upload);
    Do (ChooseFile "second.docx");
    Do (ExtractResponse [] "");
    LookupsDone marn008_only [1; 0]%nat;
    Do (SelectTab results);
    Do (SelectReport 1);
    Do (SelectTab upload);
    ValidateStart ].

(** ** The server: unit codes in a text *)

Module Server.

(** A JavaScript string that need not stay within the code units 0..255: the
    list of its UTF-16 code units. *)
Abbreviation jsstring := (list N).

Definition units (s : string) : jsstring := N_of_ascii <$> list_ascii_of_string s.

(** [String.prototype.toUpperCase] on one code unit below 256: a-z and the
    lower-case letters of Latin-1 (all of 224..254 but the division sign 247)
    move down by 32; the sharp s becomes SS; y with diaeresis and the micro
    sign become U+0178 and U+039C; every other code unit is unchanged. *)
Definition upper_unit (n : N) : jsstring :=
  if ((97 <=? n) && (n <=? 122))%N then [n - 32]%N
  else if ((224 <=? n) && (n <=? 254) && negb (n =? 247))%N then [n - 32]%N
  else if (n =? 223)%N then [83; 83]%N
  else if (n =? 255)%N then [376]%N
  else if (n =? 181)%N then [924]%N
  else [n].

(** [s.toUpperCase()] *)
Definition toUpperCase (s : string) : jsstring := units s ≫= upper_unit.

(** The classes [[A-Z]], [\d] and [\w] of a regular expression without
    flags. *)
Definition is_upper (n : N) : bool := ((65 <=? n) && (n <=? 90))%N.
Definition is_digit (n : N) : bool := ((48 <=? n) && (n <=? 57))%N.
Definition is_word (n : N) : bool :=
  is_upper n || ((97 <=? n) && (n <=? 122))%N || is_digit n || (n =? 95)%N.

(** A backtracking matcher.  A piece of a pattern is a function of what
    follows it in the pattern ([k], which receives the code unit before the
    position reached, the rest of the input and the number of code units
    matched so far) that gives the length of the match found first, if
    any. *)
Definition Continuation : Type := option N → jsstring → nat → option nat.

(** [P{min,max}], greedy: one more code unit is tried before stopping;
    [max = None] is no upper bound, so [P*] is [rep P 0 None]. *)
Fixpoint rep (P : N → bool) (min : nat) (max : option nat) (k : Continuation)
    (prev : option N) (s : jsstring) (n : nat) : option nat :=
  let stop := match min with O => k prev s n | S _ => None end in
  match s with
  | c :: s' =>
      if P c && match max with Some O => false | _ => true end then
        match rep P (pred min) (pred <$> max) k (Some c) s' (S n) with
        | Some r => Some r
        | None => stop
        end
      else stop
  | [] => stop
  end.

(** [\b]: exactly one of the code units before and after the position is a
    word character. *)
Definition at_boundary (prev : option N) (s : jsstring) : bool :=
  xorb (from_option is_word false prev) (from_option is_word false (head s)).

Definition boundary (k : Continuation) : Continuation :=
  λ prev s n, if at_boundary prev s then k prev s n else None.

(** [UOC_CANDIDATE_REGEX], [/\b([A-Z]{3,10}[A-Z]*\d{2,4})\b/], tried at one
    position: the length of the match.  The group spans all of the match. *)
Definition match_here (prev : option N) (s : jsstring) : option nat :=
  boundary
    (rep is_upper 3 (Some 10)
       (rep is_upper 0 None
          (rep is_digit 2 (Some 4)
             (boundary (λ _ _ n, Some n)))))
    prev s 0.

(** [s.matchAll(UOC_CANDIDATE_REGEX)], the captured groups: the pattern is
    tried at each position from left to right, and after a match the search
    goes on at its end ([skip] counts the code units of the last match that
    are still to be passed). *)
Fixpoint matchAll_from (skip : nat) (prev : option N) (s : jsstring) : list jsstring :=
  match s with
  | [] =>
      match skip, match_here prev [] with
      | O, Some _ => [[]]
      | _, _ => []
      end
  | c :: s' =>
      match skip with
      | S k => matchAll_from k (Some c) s'
      | O =>
          match match_here prev s with
          | Some len => take len s :: matchAll_from (len - 1) (Some c) s'
          | None => matchAll_from 0 (Some c) s'
          end
      end
  end.

Definition matchAll (s : jsstring) : list jsstring := matchAll_from 0 None s.

Definition BLACKLIST : gset jsstring :=
  list_to_set (units <$> ["PDF2023"; "DOCX2021"; "COVID19"; "ABN2021"; "ISO9001"]).

(** [/[A-Z]/.test(code)], [/\d/.test(code)] *)
Definition test (P : N → bool) (s : jsstring) : bool := existsb P s.

(** [hits.add(code)] on a [Set], which keeps the order of insertion. *)
Definition add (code : jsstring) (hits : list jsstring) : list jsstring :=
  if decide (code ∈ hits) then hits else hits ++ [code].

(** The body of the loop over the matches. *)
Definition collect (hits : list jsstring) (code : jsstring) : list jsstring :=
  if negb (bool_decide (code ∈ BLACKLIST)) && test is_upper code && test is_digit code
  then add code hits
  else hits.

(** [findUocCandidates]; [None] is a text that is [undefined] or [null]. *)
Definition findUocCandidates (text : option string) : list jsstring :=
  match text with
  | None => []
  | Some t =>
      if decide (t = "") then []
      else fold_left collect (matchAll (toUpperCase t)) []
  end.

(** The shape of a unit code: three letters or more, then two to four
    digits. *)
Definition uoc_shape (code : jsstring) : Prop :=
  ∃ letters digits,
    code = letters ++ digits
    ∧ Forall (λ c, is_upper c = true) letters ∧ (3 ≤ length letters)%nat
    ∧ Forall (λ c, is_digit c = true) digits ∧ (2 ≤ length digits ≤ 4)%nat.

(** A position between words: nothing, or a code unit that is not a word
    character. *)
Definition not_word (c : option N) : Prop := from_option is_word false c = false.

(** The code unit before the position reached after [xs]. *)
Definition prev_after (prev : option N) (xs : jsstring) : option N :=
  match last xs with Some c => Some c | None => prev end.

(** *** The payload of a unit *)

(** [String.prototype.trim]: white space and line terminators are removed at
    both ends. *)
Definition is_trim_space (n : N) : bool :=
  ((9 <=? n) && (n <=? 13) || (n =? 32) || (n =? 160) || (n =? 0x1680)
   || (0x2000 <=? n) && (n <=? 0x200A) || (n =? 0x2028) || (n =? 0x2029)
   || (n =? 0x202F) || (n =? 0x205F) || (n =? 0x3000) || (n =? 0xFEFF))%N.

Fixpoint trimStart (s : jsstring) : jsstring :=
  match s with
  | c :: s' => if is_trim_space c then trimStart s' else s
  | [] => []
  end.

Definition trim (s : jsstring) : jsstring := reverse (trimStart (reverse (trimStart s))).

(** [encodeURIComponent]: the code units [A-Z a-z 0-9 - _ . ! ~ * ' ( )]
    stand for themselves, every other code point is written as the bytes of
    its UTF-8 form, each byte as [%XX]; [None] is the [URIError] of a
    surrogate without its pair. *)
Definition unreserved (n : N) : bool :=
  is_upper n || ((97 <=? n) && (n <=? 122))%N || is_digit n
  || bool_decide (n ∈ [45; 95; 46; 33; 126; 42; 39; 40; 41]%N).

Definition hex_digit (n : N) : N := (if n <? 10 then 48 + n else 55 + n)%N.

Definition percent (byte : N) : jsstring :=
  [37%N; hex_digit (byte / 16); hex_digit (byte mod 16)].

Definition utf8 (cp : N) : list N :=
  (if cp <? 0x80 then [cp]
   else if cp <? 0x800 then [0xC0 + cp / 64; 0x80 + cp mod 64]
   else if cp <? 0x10000 then
     [0xE0 + cp / 4096; 0x80 + (cp / 64) mod 64; 0x80 + cp mod 64]
   else
     [0xF0 + cp / 262144; 0x80 + (cp / 4096) mod 64; 0x80 + (cp / 64) mod 64;
      0x80 + cp mod 64])%N.

Definition is_high_surrogate (n : N) : bool := ((0xD800 <=? n) && (n <=? 0xDBFF))%N.
Definition is_low_surrogate (n : N) : bool := ((0xDC00 <=? n) && (n <=? 0xDFFF))%N.

Fixpoint encodeURIComponent (s : jsstring) : option jsstring :=
  match s with
  | [] => Some []
  | c :: s' =>
      if unreserved c then (λ e, c :: e) <$> encodeURIComponent s'
      else if is_low_surrogate c then None
      else if is_high_surrogate c then
        match s' with
        | d :: s'' =>
            if is_low_surrogate d then
              (λ e, (utf8 ((c - 0xD800) * 0x400 + (d - 0xDC00) + 0x10000)%N ≫= percent) ++ e)
              <$> encodeURIComponent s''
            else None
        | [] => None
        end
      else (λ e, (utf8 c ≫= percent) ++ e) <$> encodeURIComponent s'
  end.

Record PC := { pcCode : jsstring; description : jsstring }.

(** A payload [{ unit: { code, title }, url, elementsAndPC,
    knowledgeEvidence, source }]. *)
Record Payload := {
  unit_code : jsstring;
  unit_title : jsstring;
  url : jsstring;
  elementsAndPC : list PC;
  knowledgeEvidence : list jsstring;
  source : jsstring;
}.

(** An entry of [MOCKS], and the mock of a code that [MOCKS] does not have. *)
Record Mock := {
  mock_code : jsstring;
  mock_title : jsstring;
  mock_elementsAndPC : list PC;
  mock_knowledgeEvidence : list jsstring;
}.

Definition pc (code text : string) : PC :=
  {| pcCode := units code; description := units text |}.

Definition MOCKS : list (jsstring * Mock) :=
  [ (units "MARN008",
     {| mock_code := units "MARN008";
        mock_title := units "Apply seamanship skills aboard a vessel up to 12 metres (Mock)";
        mock_elementsAndPC :=
          [ pc "1.1" "Maintain safe deck practices and housekeeping.";
            pc "1.2" "Perform mooring and anchoring operations.";
            pc "2.1" "Handle lines, ropes and knots for small vessel operations." ];
        mock_knowledgeEvidence :=
          units <$> [ "Basic seamanship terminology and safety practices.";
                      "Characteristics and safe use of common knots and splices.";
                      "Hazards associated with lines under load and snap-back zones." ] |});
    (units "MARJ006",
     {| mock_code := units "MARJ006";
        mock_title := units "Follow environmental work practices (Mock)";
        mock_elementsAndPC :=
          [ pc "1.1" "Identify environmental requirements in the work area.";
            pc "1.2" "Handle waste, spills and emissions correctly." ];
        mock_knowledgeEvidence :=
          units <$> [ "Company procedures for waste segregation and disposal.";
                      "Reporting requirements for environmental incidents." ] |});
    (units "MARK007",
     {| mock_code := units "MARK007";
        mock_title := units "Handle a vessel up to 24 metres (Mock)";
        mock_elementsAndPC :=
          [ pc "1.1" "Plan and conduct basic manoeuvres considering wind and tide.";
            pc "1.2" "Use helm and engine controls to maintain course and speed." ];
        mock_knowledgeEvidence :=
          units <$> [ "Effects of wind, tide and current on vessel handling.";
                      "Use of propulsion and rudder to pivot and stop a vessel." ] |});
    (units "MARC037",
     {| mock_code := units "MARC037";
        mock_title := units "Operate deck machinery (Mock)";
        mock_elementsAndPC :=
          [ pc "1.1" "Prepare, operate and secure windlass and capstan safely.";
            pc "1.2" "Communicate effectively during lifting operations." ];
        mock_knowledgeEvidence :=
          units <$> [ "Safe working loads and risk controls for deck machinery.";
                      "Lock-out/tag-out procedures." ] |});
    (units "MARI003",
     {| mock_code := units "MARI003";
        mock_title := units "Comply with regulations to ensure safe operation (Mock)";
        mock_elementsAndPC :=
          [ pc "1.1" "Identify applicable maritime regulations and codes.";
            pc "1.2" "Apply organisational procedures to maintain compliance." ];
        mock_knowledgeEvidence :=
          units <$> [ "Key provisions of local marine safety legislation.";
                      "Recordkeeping and reporting obligations." ] |}) ].

(** [MOCKS[code]].  The names that an object inherits (as [constructor]) have
    lower-case letters, which an upper-cased code has not. *)
Definition MOCKS_lookup (code : jsstring) : option Mock :=
  (λ found : nat * (jsstring * Mock), found.2.2) <$> list_find (λ e, e.1 = code) MOCKS.

Definition generic_mock (code : jsstring) : Mock :=
  {| mock_code := code;
     mock_title := code ++ units " (Mock Unit for testing)";
     mock_elementsAndPC :=
       [ pc "1.1" "Example performance criterion.";
         pc "1.2" "Another performance criterion." ];
     mock_knowledgeEvidence :=
       units <$> ["Example knowledge item A."; "Example knowledge item B."] |}.

Definition details_url : jsstring := units "https://training.gov.au/Training/Details/".

(** What the registry answers to a request, as far as [fetchFromTGA] reads
    it: the HTTP status, the text of the first [h1], the texts of the cells
    of each table row of the section of performance criteria, and the texts
    of the items of the list of knowledge evidence. *)
Record Page := {
  status : N;
  h1 : jsstring;
  pc_rows : list (list jsstring);
  ke_items : list jsstring;
}.

(** The body of [pcSection.find("tr").each]. *)
Definition pc_of_row (cols : list jsstring) : list PC :=
  match cols with
  | c0 :: c1 :: _ =>
      if decide (trim c0 ≠ [] ∧ trim c1 ≠ [])
      then [ {| pcCode := trim c0; description := trim c1 |} ]
      else []
  | _ => []
  end.

(** [fetchFromTGA]; [page = None] is a request that fails; the result
    [None] is an exception. *)
Definition fetchFromTGA (page : option Page) (code : jsstring) : option Payload :=
  encoded ← encodeURIComponent code;
  p ← page;
  if decide (status p ≠ 200%N) then None
  else if decide (trim (h1 p) = []) then None
  else
    Some {| unit_code := code;
            unit_title := trim (h1 p);
            url := details_url ++ encoded;
            elementsAndPC := pc_rows p ≫= pc_of_row;
            knowledgeEvidence := filter (λ t, t ≠ []) (trim <$> ke_items p);
            source := units "tga" |}.

(** [{ ...mock, url, source: "mock" }] *)
Definition mock_payload (code : jsstring) : Payload :=
  let mock := default (generic_mock code) (MOCKS_lookup code) in
  {| unit_code := mock_code mock;
     unit_title := mock_title mock;
     url := details_url ++ code;
     elementsAndPC := mock_elementsAndPC mock;
     knowledgeEvidence := mock_knowledgeEvidence mock;
     source := units "mock" |}.

(** [getUocPayload], run to its end with no other request handled in
    between: the result ([None] is the exception "No code") and the cache
    after it.  [page] is what the registry answers, should it be asked. *)
Definition getUocPayload (page : option Page) (codeRaw : option string)
    (cache : gmap jsstring Payload) : option Payload * gmap jsstring Payload :=
  let code := toUpperCase (default "" codeRaw) in
  if decide (code = []) then (None, cache)
  else
    match cache !! code with
    | Some payload => (Some payload, cache)
    | None =>
        match fetchFromTGA page code with
        | Some live => (Some live, <[code := live]> cache)
        | None =>
            let payload := mock_payload code in
            (Some payload, <[code := payload]> cache)
        end
    end.

(** [getUocPayload] waits for the registry between reading the cache and
    writing it, and other requests are handled meanwhile.  The state of the
    server: the cache, and the codes of the lookups that wait for the
    registry. *)
Record ServerState := {
  cache : gmap jsstring Payload;
  waiting : list jsstring;
}.

(** [Lookup codeRaw]: a call of [getUocPayload], up to the request to the
    registry.  [Arrive i page]: the registry answers the lookup of index [i]
    among the waiting ones, which runs to its end. *)
Inductive ServerEvent :=
| Lookup (codeRaw : option string)
| Arrive (i : nat) (page : option Page).

(** One event: the state after it and the answers given, each with the code
    it answers. *)
Definition server_step (s : ServerState) (e : ServerEvent)
  : ServerState * list (jsstring * Payload) :=
  match e with
  | Lookup codeRaw =>
      let code := toUpperCase (default "" codeRaw) in
      if decide (code = []) then (s, [])
      else
        match cache s !! code with
        | Some payload => (s, [(code, payload)])
        | None =>
            match encodeURIComponent code with
            | Some _ => ({| cache := cache s; waiting := waiting s ++ [code] |}, [])
            | None =>
                let payload := mock_payload code in
                ({| cache := <[code := payload]> (cache s); waiting := waiting s |},
                 [(code, payload)])
            end
        end
  | Arrive i page =>
      match waiting s !! i with
      | Some code =>
          let payload := default (mock_payload code) (fetchFromTGA page code) in
          ({| cache := <[code := payload]> (cache s); waiting := delete i (waiting s) |},
           [(code, payload)])
      | None => (s, [])
      end
  end.

Fixpoint server_run (events : list ServerEvent) (s : ServerState)
  : ServerState * list (jsstring * Payload) :=
  match events with
  | [] => (s, [])
  | e :: events' =>
      let step := server_step s e in
      let rest := server_run events' step.1 in
      (rest.1, step.2 ++ rest.2)
  end.

Definition server_start : ServerState := {| cache := ∅; waiting := [] |}.

(** A payload as the client needs it: every performance criterion with a
    code and a description, every knowledge item with a text. *)
Definition usable (p : Payload) : Prop :=
  Forall (λ e, pcCode e ≠ [] ∧ description e ≠ []) (elementsAndPC p)
  ∧ Forall (λ t, t ≠ []) (knowledgeEvidence p).

(** A payload that answers a request for [code]. *)
Definition answer_for (code : jsstring) (p : Payload) : Prop :=
  unit_code p = code ∧ unit_title p ≠ [] ∧ usable p
  ∧ (source p = units "tga" ∨ source p = units "mock").

(** An answer as the lookup of a code should get it; the link of a unit code
    is the address of the registry followed by the code. *)
Definition good_answer (a : jsstring * Payload) : Prop :=
  answer_for a.1 a.2 ∧ (uoc_shape a.1 → url a.2 = details_url ++ a.1).

Definition server_invariant (s : ServerState) : Prop :=
  map_Forall (λ k p, good_answer (k, p)) (cache s)
  ∧ Forall (λ c, c ≠ []) (waiting s).

(** A registry page with a padded title, a header row, a row with an empty
    description and an empty list item. *)
Definition sample_page : Page :=
  {| status := 200;
     h1 := units "  MARN008 Apply seamanship skills  ";
     pc_rows :=
       [ [units "Element"];
         [units " 1.1 "; units "Maintain safe deck practices."; units "extra"];
         [units "1.2"; units "   "] ];
     ke_items := [units "Knots and splices. "; units " "] |}.

End Server.

(** * Properties *)

(** ** Sample runs *)

Example tokenize_ex1 :
  tokenize (Some "Maintain safe deck practices. Perform mooring operations.")
  = ["maintain"; "safe"; "deck"; "practices"; "perform"; "mooring"; "operations"].
Proof. vm_compute. reflexivity. Qed.

Example split_ws_ex1 : split_ws " a  b " = [""; "a"; "b"; ""].
Proof. reflexivity. Qed.

Example split_ws_ex2 : split_ws "" = [""].
Proof. reflexivity. Qed.

Example coverage_scenario :
  coverageCheck (Some "Maintain safe deck practices. Perform mooring operations.")
    [ {| req_code := Some "PC 1.1";
         req_text := Some "Maintain safe deck practices and housekeeping." |};
      {| req_code := Some "PC 1.2";
         req_text := Some "Perform mooring and anchoring operations." |} ]
  = {| total := 2; assessed := 2; percentage := 100; missing := [] |}.
Proof. vm_compute. reflexivity. Qed.

(** ** Strings *)

Lemma append_cons c (s t : string) : (String c s ++ t)%string = String c (s ++ t)%string.
Proof. reflexivity. Qed.

Lemma append_empty_l (s : string) : ("" ++ s)%string = s.
Proof. reflexivity. Qed.

Lemma append_empty_r (s : string) : (s ++ "")%string = s.
Proof. induction s as [|c s IH]; [done | by rewrite append_cons, IH]. Qed.

Lemma append_assoc (a b c : string) : ((a ++ b) ++ c)%string = (a ++ (b ++ c))%string.
Proof. induction a as [|x a IH]; [done | by rewrite !append_cons, IH]. Qed.

Lemma map_units_app f (a b : string) :
  map_units f (a ++ b)%string = (map_units f a ++ map_units f b)%string.
Proof. induction a as [|x a IH]; [done | simpl; by rewrite !append_cons, <- IH]. Qed.

Lemma pieces_not_nil s : pieces s ≠ [].
Proof.
  destruct s as [|c s]; simpl; [done|].
  destruct (CodeUnit.is_space c); [done|].
  by destruct (pieces s).
Qed.

Lemma prepend_prepend a b ps :
  prepend a (prepend b ps) = prepend (a ++ b)%string ps.
Proof. destruct ps; simpl; [done | by rewrite append_assoc]. Qed.

(** The scanner of [split] and the splitting at every code unit differ by
    empty pieces only. *)
Lemma split_ws_from_pieces (s : string) :
  (∀ cur, filter (λ w, w ≠ "") (split_ws_from false cur s)
          = filter (λ w, w ≠ "") (prepend cur (pieces s)))
  ∧ filter (λ w, w ≠ "") (split_ws_from true "" s)
    = filter (λ w, w ≠ "") (pieces s).
Proof.
  induction s as [|c s [IHf IHt]]; simpl.
  - split; [intros cur; by rewrite append_empty_r | done].
  - destruct (CodeUnit.is_space c) eqn:Hc; simpl; split.
    + intros cur. rewrite append_empty_r, !filter_cons, IHt. done.
    + rewrite filter_cons. by destruct (decide ("" ≠ "")).
    + intros cur. by rewrite IHf, prepend_prepend.
    + by rewrite IHf, append_empty_l.
Qed.

Lemma split_ws_pieces (s : string) :
  filter (λ w, w ≠ "") (split_ws s) = filter (λ w, w ≠ "") (pieces s).
Proof.
  unfold split_ws. destruct (split_ws_from_pieces s) as [H _].
  rewrite H. by destruct (pieces s).
Qed.

Lemma filter_keep_token (l : list string) :
  filter keep_token l = filter (λ w, w ∉ STOP) (filter (λ w, w ≠ "") l).
Proof.
  rewrite list_filter_filter. apply list_filter_iff. intros w.
  unfold keep_token. tauto.
Qed.

Lemma tokenize_tokenize_spec (s : string) : tokenize (Some s) = tokenize_spec s.
Proof.
  unfold tokenize, tokenize_spec, replace_non_alnum, toLowerCase. simpl.
  by rewrite filter_keep_token, split_ws_pieces.
Qed.

Lemma pieces_all_units (P : ascii → bool) (s : string) :
  all_units (λ c, P c || CodeUnit.is_space c) s = true →
  (∀ c, CodeUnit.is_space c = true → P c = false) →
  Forall (λ w, all_units P w = true) (pieces s).
Proof.
  intros Hs Hsp. induction s as [|c s IH]; simpl in *.
  - by repeat constructor.
  - apply andb_true_iff in Hs as [Hc Hs]. specialize (IH Hs).
    destruct (CodeUnit.is_space c) eqn:Hspace.
    + by constructor.
    + rewrite orb_false_r in Hc.
      destruct (pieces s) as [|w ws]; simpl.
      * constructor; [simpl; by rewrite Hc | done].
      * inversion IH as [|? ? Hw Hws]; subst.
        constructor; [|done]. rewrite append_cons, append_empty_l. simpl.
        by rewrite Hc, Hw.
Qed.

Lemma replace_non_alnum_units (s : string) :
  all_units (λ c, (CodeUnit.is_lower c || CodeUnit.is_digit c) || CodeUnit.is_space c)
    (replace_non_alnum s) = true.
Proof.
  induction s as [|c s IH]; [done|]. unfold replace_non_alnum in *. simpl.
  rewrite IH, andb_true_r.
  destruct (CodeUnit.is_lower c || CodeUnit.is_digit c || CodeUnit.is_space c) eqn:Hc;
    [exact Hc | reflexivity].
Qed.

Lemma space_not_alnum (c : ascii) :
  CodeUnit.is_space c = true → CodeUnit.is_lower c || CodeUnit.is_digit c = false.
Proof.
  unfold CodeUnit.is_space, CodeUnit.is_lower, CodeUnit.is_digit, CodeUnit.in_range.
  intros H. apply orb_false_iff. rewrite !andb_false_iff, !N.leb_gt.
  rewrite !orb_true_iff, andb_true_iff, !N.leb_le, !N.eqb_eq in H. lia.
Qed.

Lemma tokenize_token_shape (t : option string) : Forall token_shape (tokenize t).
Proof.
  unfold tokenize. apply Forall_forall. intros w Hw.
  apply list_elem_of_filter in Hw as [[Hne Hstop] Hw].
  split; [done|]. split; [done|].
  assert (Hin : w ∈ filter (λ w, w ≠ "")
                      (split_ws (replace_non_alnum (toLowerCase (default "" t)))))
    by (by apply list_elem_of_filter).
  rewrite split_ws_pieces in Hin. apply list_elem_of_filter in Hin as [_ Hin].
  pose proof (pieces_all_units _ _ (replace_non_alnum_units (toLowerCase (default "" t)))
                space_not_alnum) as Hall.
  rewrite Forall_forall in Hall. by apply Hall.
Qed.

(** ** The tokenizer on every string *)

Section Utf16Tokenizer.
Import Utf16.

Lemma filter_nonempty_cons (w : jsstring) (l : list jsstring) :
  filter (λ w, w ≠ []) (w :: l)
  = (if decide (w = []) then [] else [w]) ++ filter (λ w, w ≠ []) l.
Proof.
  rewrite filter_cons. destruct (decide (w = [])) as [->|H].
  - by rewrite decide_False by auto.
  - by rewrite decide_True.
Qed.

(** The non-empty pieces of [split_ws] are the words. *)
Lemma split_ws_from_words (s : jsstring) :
  ∀ cur,
    filter (λ w, w ≠ []) (split_ws_from false cur s) = words_from is_space cur s
    ∧ filter (λ w, w ≠ []) (split_ws_from true [] s) = words_from is_space [] s.
Proof.
  induction s as [|c s IH]; intros cur; cbn [split_ws_from words_from].
  - rewrite !filter_nonempty_cons, filter_nil, !app_nil_r. done.
  - destruct (is_space c).
    + rewrite filter_nonempty_cons. destruct (IH []) as [_ ->]. done.
    + destruct (IH (cur ++ [c])) as [-> _]. destruct (IH ([] ++ [c])) as [-> _]. done.
Qed.

(** So are the non-empty pieces between the spaces. *)
Lemma spec_pieces_words (s : jsstring) :
  ∀ cur,
    filter (λ w, w ≠ [])
      (match spec_pieces s with w :: ws => (cur ++ w) :: ws | [] => [cur] end)
    = words_from (λ c, bool_decide (c = 32%N)) cur s.
Proof.
  induction s as [|c s IH]; intros cur; cbn [spec_pieces words_from].
  - by rewrite app_nil_r, filter_nonempty_cons, filter_nil, app_nil_r.
  - destruct (decide (c = 32%N)) as [->|Hc].
    + rewrite bool_decide_eq_true_2 by done. rewrite app_nil_r, filter_nonempty_cons.
      rewrite <- (IH []). f_equal. by destruct (spec_pieces s).
    + rewrite bool_decide_eq_false_2 by done. rewrite <- (IH (cur ++ [c])).
      unfold spec_prepend. destruct (spec_pieces s) as [|w ws]; [done|].
      by rewrite <- app_assoc.
Qed.

Lemma words_from_seps (sep : N → bool) (seps rest : jsstring) :
  Forall (λ c, sep c = true) seps →
  words_from sep [] (seps ++ rest) = words_from sep [] rest.
Proof.
  induction 1 as [|c seps Hc _ IH]; [done|].
  rewrite <- app_comm_cons. cbn [words_from].
  by rewrite Hc, decide_True, app_nil_l.
Qed.

Lemma words_from_break (sep : N → bool) (cur seps rest : jsstring) :
  seps ≠ [] → Forall (λ c, sep c = true) seps →
  words_from sep cur (seps ++ rest)
  = (if decide (cur = []) then [] else [cur]) ++ words_from sep [] rest.
Proof.
  intros Hne Hall. destruct Hall as [|c seps Hc Hall]; [done|].
  rewrite <- app_comm_cons. cbn [words_from]. by rewrite Hc, words_from_seps.
Qed.

(** The lists that the specification names. *)
Lemma position_None (c : N) (alphabet : jsstring) :
  c ∉ alphabet → position c alphabet = None.
Proof.
  induction alphabet as [|a l IH]; [done|]. intros Hc. cbn [position].
  rewrite decide_False by (intros ->; apply Hc; left).
  rewrite IH; [done|]. intros ?. apply Hc. by right.
Qed.

Lemma in_range (lo len : nat) (c : N) :
  (N.of_nat lo ≤ c < N.of_nat (lo + len))%N → c ∈ (N.of_nat <$> seq lo len).
Proof.
  intros H. apply list_elem_of_fmap. exists (N.to_nat c).
  split; [lia|]. apply elem_of_seq. lia.
Qed.

Lemma spec_clean_upper (c : N) : is_upper c = true → spec_clean c = [(c + 32)%N].
Proof.
  intros H. apply andb_true_iff in H as [H1%N.leb_le H2%N.leb_le].
  assert (Hin : c ∈ (N.of_nat <$> seq 65 26)) by (apply in_range; lia).
  clear H1 H2. revert c Hin. apply Forall_forall, (bool_decide_unpack _).
  vm_compute. exact I.
Qed.

Lemma spec_clean_lower (c : N) : is_lower c = true → spec_clean c = [c].
Proof.
  intros H. apply andb_true_iff in H as [H1%N.leb_le H2%N.leb_le].
  assert (Hin : c ∈ (N.of_nat <$> seq 97 26)) by (apply in_range; lia).
  clear H1 H2. revert c Hin. apply Forall_forall, (bool_decide_unpack _).
  vm_compute. exact I.
Qed.

Lemma spec_clean_digit (c : N) : is_digit c = true → spec_clean c = [c].
Proof.
  intros H. apply andb_true_iff in H as [H1%N.leb_le H2%N.leb_le].
  assert (Hin : c ∈ (N.of_nat <$> seq 48 10)) by (apply in_range; lia).
  clear H1 H2. revert c Hin. apply Forall_forall, (bool_decide_unpack _).
  vm_compute. exact I.
Qed.

Lemma spec_alphabets :
  Forall (λ c, is_upper c = true) spec_upper
  ∧ Forall (λ c, is_lower c || is_digit c = true) (spec_lower ++ spec_digits).
Proof. split; apply (bool_decide_unpack _); vm_compute; exact I. Qed.

Lemma spec_clean_other (c : N) :
  is_upper c = false → is_lower c = false → is_digit c = false →
  c ≠ 0x130%N → c ≠ 0x212A%N → spec_clean c = [32%N].
Proof.
  intros Hu Hl Hd Hi Hk. destruct spec_alphabets as [Hup Hlow].
  rewrite Forall_forall in Hup, Hlow. unfold spec_clean.
  rewrite position_None.
  - rewrite decide_False; [by rewrite !decide_False|].
    intros Hin. apply Hlow in Hin. by rewrite Hl, Hd in Hin.
  - intros Hin. apply Hup in Hin. congruence.
Qed.

Ltac to_props :=
  repeat match goal with
         | H : (_ && _) = true |- _ => apply andb_true_iff in H as [? ?]
         | H : (_ || _) = false |- _ => apply orb_false_iff in H as [? ?]
         | H : (_ <=? _)%N = true |- _ => apply N.leb_le in H
         | H : (_ <=? _)%N = false |- _ => apply N.leb_gt in H
         | H : (_ =? _)%N = true |- _ => apply N.eqb_eq in H
         | H : (_ =? _)%N = false |- _ => apply N.eqb_neq in H
         end.

Lemma alnum_not_space (l : N) :
  is_lower l || is_digit l = true → is_space l = false ∧ l ≠ 32%N.
Proof.
  unfold is_lower, is_digit, is_space. intros H.
  apply orb_true_iff in H as [H|H]; to_props;
    (split; [|lia]);
    repeat (apply orb_false_iff; split); try (apply N.eqb_neq; lia);
    apply andb_false_iff; (left; apply N.leb_gt; lia) || (right; apply N.leb_gt; lia).
Qed.

Lemma space_not_listed (c : N) : is_space c = true → c ≠ 0x130%N ∧ c ≠ 0x212A%N.
Proof. intros H. split; intros ->; discriminate. Qed.

(** One code unit, lower-cased and cleaned by the program, and cleaned by
    the specification: a letter or digit for both, or a letter and a break
    for both, or a break for both. *)
Lemma clean_unit (lower_other : jsstring → nat → N → jsstring) (s : jsstring)
    (i : nat) (c : N) :
  case_table lower_other →
  (∃ l, is_lower l || is_digit l = true
        ∧ replace_non_alnum (lower_unit lower_other s i c) = [l]
        ∧ spec_clean c = [l])
  ∨ (∃ l, is_lower l || is_digit l = true
          ∧ replace_non_alnum (lower_unit lower_other s i c) = [l; 32%N]
          ∧ spec_clean c = [l; 32%N])
  ∨ (replace_non_alnum (lower_unit lower_other s i c) ≠ []
     ∧ Forall (λ u, is_space u = true) (replace_non_alnum (lower_unit lower_other s i c))
     ∧ spec_clean c = [32%N]).
Proof.
  intros Htable. unfold lower_unit.
  destruct (is_upper c) eqn:Hu.
  { left. exists (c + 32)%N.
    assert (Hl : is_lower (c + 32) = true).
    { unfold is_upper in Hu. to_props. unfold is_lower.
      apply andb_true_iff. split; apply N.leb_le; lia. }
    split; [by rewrite Hl|]. split; [|by apply spec_clean_upper].
    unfold replace_non_alnum. cbn [fmap list_fmap]. by rewrite Hl. }
  destruct (is_lower c || is_digit c || is_space c) eqn:Hkeep.
  { assert (Hcode : replace_non_alnum [c] = [c]).
    { unfold replace_non_alnum. cbn [fmap list_fmap]. by rewrite Hkeep. }
    rewrite Hcode.
    destruct (is_lower c) eqn:Hl.
    { left. exists c. rewrite Hl. split; [done|]. split; [done|]. by apply spec_clean_lower. }
    destruct (is_digit c) eqn:Hd.
    { left. exists c. rewrite Hl. split; [done|]. split; [done|]. by apply spec_clean_digit. }
    right. right. cbn [orb] in Hkeep.
    destruct (space_not_listed c Hkeep) as [Hi Hk].
    split; [done|]. split; [by repeat constructor|]. by apply spec_clean_other. }
  destruct (c =? 0x130)%N eqn:Hi.
  { apply N.eqb_eq in Hi as ->. right. left. exists 0x69%N. by vm_compute. }
  destruct (c =? 0x212A)%N eqn:Hk.
  { apply N.eqb_eq in Hk as ->. left. exists 0x6B%N. by vm_compute. }
  right. right.
  apply orb_false_iff in Hkeep as [Hkeep Hs]. apply orb_false_iff in Hkeep as [Hl Hd].
  assert (Hlisted : listed c = false).
  { unfold listed. by rewrite Hu, Hl, Hd, Hs, Hi, Hk. }
  destruct (Htable s i c Hlisted) as [Hne Hall].
  apply N.eqb_neq in Hi, Hk.
  split; [|split; [|by apply spec_clean_other]].
  - unfold replace_non_alnum. by destruct (lower_other s i c).
  - unfold replace_non_alnum. apply Forall_fmap.
    eapply Forall_impl; [exact Hall|]. intros u Hu'. cbn. by rewrite Hu'.
Qed.

(** The words of the cleaned lower case are the words that the
    specification cleans. *)
Lemma clean_words (lower_other : jsstring → nat → N → jsstring) (s : jsstring) :
  case_table lower_other →
  ∀ rest i cur,
    words_from is_space cur (replace_non_alnum (toLowerCase_from lower_other s i rest))
    = words_from (λ c, bool_decide (c = 32%N)) cur (rest ≫= spec_clean).
Proof.
  intros Htable. induction rest as [|c rest IH]; intros i cur; [done|].
  cbn [toLowerCase_from]. unfold replace_non_alnum. rewrite fmap_app, bind_cons.
  fold (replace_non_alnum (lower_unit lower_other s i c)).
  fold (replace_non_alnum (toLowerCase_from lower_other s (S i) rest)).
  destruct (clean_unit lower_other s i c Htable)
    as [(l & Hl & -> & ->)|[(l & Hl & -> & ->)|(Hne & Hsp & ->)]].
  - destruct (alnum_not_space l Hl) as [Hs H32].
    rewrite <- !app_comm_cons, !app_nil_l. cbn [words_from].
    rewrite Hs, bool_decide_eq_false_2 by done. apply IH.
  - destruct (alnum_not_space l Hl) as [Hs H32].
    rewrite <- !app_comm_cons, !app_nil_l. cbn [words_from].
    rewrite Hs, bool_decide_eq_false_2 by done.
    change (is_space 32) with true. cbv iota.
    rewrite bool_decide_eq_true_2 by done. by rewrite IH.
  - rewrite (words_from_break is_space cur _ _ Hne Hsp).
    rewrite (words_from_break (λ c, bool_decide (c = 32%N)) cur [32%N]);
      [|done|by repeat constructor].
    by rewrite IH.
Qed.

Lemma STOP_spec (w : jsstring) : w ∈ STOP ↔ w ∈ spec_stop_words.
Proof. unfold STOP. by rewrite elem_of_list_to_set. Qed.

Lemma tokenize_tokenize_spec16 (lower_other : jsstring → nat → N → jsstring)
    (t : jsstring) :
  case_table lower_other → tokenize lower_other (Some t) = tokenize_spec t.
Proof.
  intros Htable. unfold tokenize, tokenize_spec. cbn [default from_option id].
  rewrite list_filter_filter.
  rewrite (list_filter_iff keep_token (λ w, (w ∉ spec_stop_words) ∧ w ≠ [])).
  2: { intros w. unfold keep_token. rewrite STOP_spec. tauto. }
  rewrite <- !list_filter_filter. f_equal.
  unfold split_ws, toLowerCase.
  destruct (split_ws_from_words
              (replace_non_alnum (toLowerCase_from lower_other t 0 t)) []) as [-> _].
  rewrite (clean_words lower_other t Htable t 0 []).
  rewrite <- (spec_pieces_words (t ≫= spec_clean) []).
  destruct (spec_pieces _) as [|w ws]; [|done].
  by rewrite filter_nonempty_cons, decide_True.
Qed.

Lemma no_other_case_table : case_table no_other.
Proof.
  intros s i c H. unfold no_other. split; [done|]. constructor; [|constructor].
  unfold listed in H.
  apply orb_false_iff in H as [H _]. apply orb_false_iff in H as [H _].
  apply orb_false_iff in H as [H Hs]. apply orb_false_iff in H as [H Hd].
  apply orb_false_iff in H as [_ Hl]. by rewrite Hl, Hd, Hs.
Qed.

End Utf16Tokenizer.

(** *** The strings of code units 0..255 *)

Lemma units_cons (c : ascii) (s : string) :
  Utf16.units (String c s) = N_of_ascii c :: Utf16.units s.
Proof. reflexivity. Qed.

Lemma units_app (a b : string) :
  Utf16.units (a ++ b)%string = Utf16.units a ++ Utf16.units b.
Proof.
  induction a as [|c a IH]; [by rewrite append_empty_l|].
  by rewrite append_cons, !units_cons, IH.
Qed.

Lemma units_inj (a b : string) : Utf16.units a = Utf16.units b → a = b.
Proof.
  revert b. induction a as [|c a IH]; intros [|d b]; try done.
  rewrite !units_cons. intros [= Hc Hs].
  f_equal; [|by apply IH].
  by rewrite <- (ascii_N_embedding c), <- (ascii_N_embedding d), Hc.
Qed.

Lemma lower_unit_latin1 (whole : Utf16.jsstring) (i : nat) (c : ascii) :
  Utf16.lower_unit Utf16.latin1_other whole i (N_of_ascii c)
  = [N_of_ascii (CodeUnit.toLowerCase c)].
Proof. destruct c as [[] [] [] [] [] [] [] []]; reflexivity. Qed.

Lemma units_toLowerCase (whole : Utf16.jsstring) (s : string) :
  ∀ i, Utf16.toLowerCase_from Utf16.latin1_other whole i (Utf16.units s)
       = Utf16.units (toLowerCase s).
Proof.
  induction s as [|c s IH]; intros i; [done|].
  unfold toLowerCase. cbn [map_units]. rewrite !units_cons.
  cbn [Utf16.toLowerCase_from]. rewrite lower_unit_latin1, IH. done.
Qed.

Lemma units_replace (s : string) :
  Utf16.replace_non_alnum (Utf16.units s) = Utf16.units (replace_non_alnum s).
Proof.
  induction s as [|c s IH]; [done|].
  unfold replace_non_alnum. cbn [map_units]. rewrite !units_cons.
  unfold Utf16.replace_non_alnum. rewrite fmap_cons. f_equal; [|exact IH].
  destruct c as [[] [] [] [] [] [] [] []]; reflexivity.
Qed.

Lemma is_space_units (c : ascii) : Utf16.is_space (N_of_ascii c) = CodeUnit.is_space c.
Proof. destruct c as [[] [] [] [] [] [] [] []]; reflexivity. Qed.

Lemma units_split (s : string) :
  ∀ insep cur,
    Utf16.split_ws_from insep (Utf16.units cur) (Utf16.units s)
    = Utf16.units <$> split_ws_from insep cur s.
Proof.
  induction s as [|c s IH]; intros insep cur; [done|].
  rewrite units_cons. cbn [Utf16.split_ws_from split_ws_from].
  rewrite is_space_units. destruct (CodeUnit.is_space c).
  - destruct insep; [apply IH|]. rewrite fmap_cons. f_equal. apply (IH true "").
  - rewrite <- (IH false). by rewrite units_app.
Qed.

Lemma keep_token_units (w : string) : Utf16.keep_token (Utf16.units w) ↔ keep_token w.
Proof.
  unfold Utf16.keep_token, keep_token, Utf16.STOP, STOP.
  rewrite !elem_of_list_to_set, list_elem_of_fmap. split.
  - intros [Hne Hstop]. split; [by intros ->|].
    intros Hin. apply Hstop. by exists w.
  - intros [Hne Hstop]. split; [by destruct w|].
    intros (v & Hv%units_inj & Hin). by subst.
Qed.

Lemma filter_units (l : list string) :
  filter Utf16.keep_token (Utf16.units <$> l) = Utf16.units <$> filter keep_token l.
Proof.
  induction l as [|w l IH]; [done|]. rewrite fmap_cons, !filter_cons.
  destruct (decide (keep_token w)) as [Hk|Hk].
  - rewrite decide_True by (by apply keep_token_units). by rewrite fmap_cons, IH.
  - rewrite decide_False by (by rewrite keep_token_units). exact IH.
Qed.

Lemma latin1_case_table : Utf16.case_table Utf16.latin1_other.
Proof.
  intros s i c H. unfold Utf16.latin1_other.
  unfold Utf16.listed in H.
  apply orb_false_iff in H as [H _]. apply orb_false_iff in H as [H _].
  apply orb_false_iff in H as [H Hs]. apply orb_false_iff in H as [H Hd].
  apply orb_false_iff in H as [_ Hl].
  destruct ((192 <=? c) && (c <=? 222) && negb (c =? 215))%N eqn:Hc.
  - split; [done|]. constructor; [|constructor].
    apply andb_true_iff in Hc as [Hc _]. apply andb_true_iff in Hc as [H1%N.leb_le H2%N.leb_le].
    unfold Utf16.is_lower, Utf16.is_digit, Utf16.is_space.
    repeat (apply orb_false_iff; split); try (apply N.eqb_neq; lia);
      apply andb_false_iff;
      (left; apply N.leb_gt; lia) || (right; apply N.leb_gt; lia).
  - split; [done|]. constructor; [|constructor]. by rewrite Hl, Hd, Hs.
Qed.

Lemma tokenize_units (s : string) :
  Utf16.units <$> tokenize (Some s)
  = Utf16.tokenize Utf16.latin1_other (Some (Utf16.units s)).
Proof.
  unfold tokenize, Utf16.tokenize, split_ws, Utf16.split_ws, Utf16.toLowerCase.
  cbn [default from_option id].
  rewrite units_toLowerCase, units_replace.
  rewrite (units_split _ false ""). by rewrite filter_units.
Qed.

Example tokenize_sample_text :
  Utf16.tokenize Utf16.latin1_other (Some Utf16.sample_text)
  = Utf16.units <$> ["kelvin"; "i"; "stanbul"; "deck"; "42"; "x"].
Proof. vm_compute. reflexivity. Qed.

(** C9: [tokenize] lower-cases its input, replaces every code unit outside
    [a-z0-9] and white space by a space, splits on runs of white space and
    drops the empty strings and the stop words: on every JavaScript string,
    and whatever the case table does to the code units that it does not turn
    into letters a-z, digits or white space, [tokenize] returns what the
    tokenizer of the specification returns, which is stated with its own
    alphabet, stop words and splitting; the tokenizer on the strings of code
    units 0..255, which the other statements use, is the same function
    there; every token is a non-empty word over [a-z0-9] that is not a stop
    word; [tokenize] is a total function, and for the empty string and for
    [undefined] its result is empty. *)
Theorem tokenize_refines_spec :
  (∀ lower_other, Utf16.case_table lower_other →
     ∀ t, Utf16.tokenize lower_other (Some t) = Utf16.tokenize_spec t)
  ∧ (∀ s : string,
       Utf16.units <$> tokenize (Some s) = Utf16.tokenize_spec (Utf16.units s))
  ∧ (∀ t : option string, Forall token_shape (tokenize t))
  ∧ tokenize None = [] ∧ tokenize (Some "") = []
  ∧ (∀ lower_other,
       Utf16.tokenize lower_other None = []
       ∧ Utf16.tokenize lower_other (Some []) = []).
Proof.
  split; [intros lo Hlo t; by apply tokenize_tokenize_spec16|].
  split.
  { intros s. rewrite tokenize_units.
    apply tokenize_tokenize_spec16, latin1_case_table. }
  split; [exact tokenize_token_shape|].
  split; [reflexivity|]. split; [reflexivity|]. intros lo. split; reflexivity.
Qed.

(** C9 at the case table that changes no other code unit, and a text with
    the Kelvin sign and the dotted capital I. *)
Lemma tokenize_refines_spec_witness :
  Utf16.tokenize Utf16.no_other (Some Utf16.sample_text)
  = Utf16.tokenize_spec Utf16.sample_text.
Proof.
  apply (proj1 tokenize_refines_spec Utf16.no_other).
  exact no_other_case_table.
Defined.

(** ** Numbers *)

Lemma Math_round_quotient (a n : Z) :
  (0 < n)%Z → Math_round (inject_Z a / inject_Z n) = ((2 * a + n) / (2 * n))%Z.
Proof.
  intros Hn. destruct n as [|q|q]; try lia.
  unfold Math_round, Qfloor, Qdiv, Qinv, Qmult, Qplus, inject_Z. simpl.
  f_equal; lia.
Qed.

Lemma Math_round_mono (x y : Q) : (x <= y)%Q → (Math_round x ≤ Math_round y)%Z.
Proof.
  intros H. unfold Math_round. apply Qfloor_resp_le.
  by apply Qplus_le_compat.
Qed.

Lemma Math_round_inject_Z (z : Z) : Math_round (inject_Z z) = z.
Proof.
  unfold Math_round, Qfloor, Qplus, inject_Z. simpl.
  rewrite Z.mul_1_r. symmetry. apply Z.div_unique with (r := 1%Z); lia.
Qed.

(** The quotient [present / len] is at least 0.35 exactly when
    [7 * len <= 20 * present]. *)
Lemma Qle_035_quotient (p n : Z) :
  (0 < n)%Z → Qle_bool 0.35 (inject_Z p / inject_Z n) = true ↔ (7 * n ≤ 20 * p)%Z.
Proof.
  intros Hn. rewrite Qle_bool_iff. destruct n as [|q|q]; try lia.
  unfold Qle, Qdiv, Qinv, Qmult, inject_Z. simpl. lia.
Qed.

(** ** The coverage evaluator *)

(** A requirement that is not skipped has a text. *)
Lemma needle_text (t : Requirement) :
  needle t ≠ [] → ∃ s, req_text t = Some s ∧ s ≠ "".
Proof.
  unfold needle. destruct (req_text t) as [s|]; [|done].
  intros Hne. exists s. split; [done|]. by intros ->.
Qed.

Lemma check_step_skipped hay st t : skipped t → check_step hay st t = st.
Proof. unfold skipped, needle, check_step. intros ->. done. Qed.

Lemma check_step_covered hay st t :
  covered hay t → check_step hay st t = (st.1, st.2 + 1)%Z.
Proof.
  unfold covered, needle, check_step. intros [Hne ->].
  by destruct (decide (tokenize (req_text t) = [])).
Qed.

Lemma check_step_uncovered hay st t :
  uncovered hay t → check_step hay st t = (st.1 ++ [label t], st.2).
Proof.
  unfold uncovered, needle, check_step. intros [Hne ->].
  by destruct (decide (tokenize (req_text t) = [])).
Qed.

Lemma verdict_cases hay t :
  (skipped t ∧ ¬ covered hay t ∧ ¬ uncovered hay t)
  ∨ (¬ skipped t ∧ covered hay t ∧ ¬ uncovered hay t)
  ∨ (¬ skipped t ∧ ¬ covered hay t ∧ uncovered hay t).
Proof.
  unfold skipped, covered, uncovered.
  destruct (decide (needle t = [])) as [He|Hne]; [left; tauto|].
  destruct (ratio_ok hay (needle t)); [right; left | right; right];
    repeat split; try done; intros [_ ?]; done.
Qed.

(** The loop, in closed form: the labels of the uncovered requirements are
    appended in the order of the list, and the counter grows by the number of
    covered requirements. *)
Lemma loop_closed_form hay targets st :
  fold_left (check_step hay) targets st
  = (st.1 ++ (label <$> filter (uncovered hay) targets),
     st.2 + Z.of_nat (length (filter (covered hay) targets)))%Z.
Proof.
  revert st. induction targets as [|t targets IH]; intros [m c]; simpl.
  - by rewrite app_nil_r, Z.add_0_r.
  - rewrite IH, !filter_cons.
    destruct (verdict_cases hay t) as [(Hs & Hc & Hu)|[(Hs & Hc & Hu)|(Hs & Hc & Hu)]].
    + rewrite check_step_skipped by done.
      rewrite decide_False, (decide_False (P := covered hay t)) by done. done.
    + rewrite check_step_covered by done.
      rewrite decide_False, (decide_True (P := covered hay t)) by done.
      simpl. f_equal. lia.
    + rewrite check_step_uncovered by done.
      rewrite decide_True, (decide_False (P := covered hay t)) by done.
      simpl. by rewrite <- app_assoc.
Qed.

Lemma coverageCheck_total fullText targets :
  total (coverageCheck fullText targets) = Z.of_nat (length targets).
Proof. reflexivity. Qed.

Lemma coverageCheck_assessed fullText targets :
  assessed (coverageCheck fullText targets)
  = Z.of_nat (length (filter (covered (haystack fullText)) targets)).
Proof.
  unfold coverageCheck, haystack. simpl. by rewrite loop_closed_form.
Qed.

Lemma coverageCheck_missing fullText targets :
  missing (coverageCheck fullText targets)
  = label <$> filter (uncovered (haystack fullText)) targets.
Proof.
  unfold coverageCheck, haystack. simpl. by rewrite loop_closed_form.
Qed.

Lemma coverageCheck_percentage fullText targets :
  percentage (coverageCheck fullText targets)
  = if decide (0 < total (coverageCheck fullText targets))%Z
    then Math_round (inject_Z (assessed (coverageCheck fullText targets) * 100)
                     / inject_Z (total (coverageCheck fullText targets)))
    else 0%Z.
Proof.
  unfold coverageCheck. simpl.
  destruct (Z.eqb_spec (Z.of_nat (length targets)) 0) as [->|Hne].
  - by rewrite decide_False by lia.
  - by rewrite decide_True by lia.
Qed.

(** Every requirement gets exactly one of the three verdicts. *)
Lemma verdict_partition hay targets :
  length targets
  = (length (filter (covered hay) targets)
     + length (filter (uncovered hay) targets)
     + length (filter skipped targets))%nat.
Proof.
  induction targets as [|t targets IH]; [done|].
  rewrite !filter_cons.
  destruct (verdict_cases hay t) as [(Hs & Hc & Hu)|[(Hs & Hc & Hu)|(Hs & Hc & Hu)]].
  - rewrite (decide_False (P := covered hay t)), (decide_False (P := uncovered hay t)),
      (decide_True (P := skipped t)) by done. simpl. lia.
  - rewrite (decide_True (P := covered hay t)), (decide_False (P := uncovered hay t)),
      (decide_False (P := skipped t)) by done. simpl. lia.
  - rewrite (decide_False (P := covered hay t)), (decide_True (P := uncovered hay t)),
      (decide_False (P := skipped t)) by done. simpl. lia.
Qed.

(** *** The invariant of a coverage result *)

Example stop_word_item_needle : needle stop_word_item = [].
Proof. vm_compute. reflexivity. Qed.

Example stop_word_item_result :
  coverageCheck (Some "Maintain safe deck practices.") [stop_word_item]
  = {| total := 1; assessed := 0; percentage := 0; missing := [] |}.
Proof. vm_compute. reflexivity. Qed.

(** C1, as stated, fails: a requirement with an empty needle is counted in
    [total] and is neither assessed nor missing. *)
Lemma coverage_invariant_spec_fails :
  ¬ coverage_invariant_spec [stop_word_item]
      (coverageCheck (Some "Maintain safe deck practices.") [stop_word_item]).
Proof.
  rewrite stop_word_item_result. unfold coverage_invariant_spec. simpl.
  intros (_ & _ & H & _). discriminate H.
Qed.

(** C1, amended: [0 <= assessed <= total]; [percentage] is
    [round(assessed * 100 / total)] when [total > 0] and [0] otherwise; the
    length of [missing] is [total - assessed] less the number of requirements
    with an empty needle; and [missing] lists the labels of the uncovered
    requirements in the order of the requirement list. *)
Theorem coverage_invariant (fullText : option string) (targets : list Requirement) :
  let r := coverageCheck fullText targets in
  (0 ≤ assessed r ≤ total r)%Z
  ∧ percentage r
    = (if decide (0 < total r)%Z
       then Math_round (inject_Z (assessed r * 100) / inject_Z (total r))
       else 0%Z)
  ∧ Z.of_nat (length (missing r))
    = (total r - assessed r - Z.of_nat (length (filter skipped targets)))%Z
  ∧ missing r = label <$> filter (uncovered (haystack fullText)) targets
  ∧ missing r `sublist_of` (label <$> targets).
Proof.
  intros r. subst r.
  pose proof (verdict_partition (haystack fullText) targets) as Hp.
  rewrite coverageCheck_percentage, coverageCheck_missing, coverageCheck_assessed,
    coverageCheck_total.
  repeat split.
  - lia.
  - lia.
  - rewrite length_fmap. lia.
  - apply fmap_sublist, sublist_filter.
Qed.

(** Where no requirement has an empty needle, the invariant holds as the
    data model states it. *)
Lemma coverage_invariant_all_scored fullText targets :
  Forall (λ t, ¬ skipped t) targets →
  coverage_invariant_spec targets (coverageCheck fullText targets).
Proof.
  intros Hall. unfold coverage_invariant_spec.
  pose proof (verdict_partition (haystack fullText) targets) as Hp.
  assert (filter skipped targets = []) as Hs.
  { clear Hp. induction Hall as [|t l Ht _ IH]; [done|].
    by rewrite filter_cons, decide_False. }
  rewrite Hs in Hp.
  rewrite coverageCheck_percentage, coverageCheck_missing, coverageCheck_assessed,
    coverageCheck_total.
  repeat split.
  - lia.
  - lia.
  - rewrite length_fmap. simpl in Hp. lia.
  - apply fmap_sublist, sublist_filter.
Qed.

(** *** Requirements with an empty needle *)

(** A requirement with an empty needle lowers the percentage and is not
    listed as missing. *)
Example stop_word_item_lowers_percentage :
  coverageCheck (Some "Maintain safe deck practices.") [deck_item; stop_word_item]
  = {| total := 2; assessed := 1; percentage := 50; missing := [] |}.
Proof. vm_compute. reflexivity. Qed.

(** C2, as stated, fails. *)
Lemma total_counts_scored_spec_fails :
  ¬ total_counts_scored_spec [stop_word_item]
      (coverageCheck (Some "Maintain safe deck practices.") [stop_word_item]).
Proof.
  rewrite stop_word_item_result. unfold total_counts_scored_spec.
  rewrite filter_cons, decide_False; [discriminate|].
  intros H. apply H. exact stop_word_item_needle.
Qed.

Lemma filter_covered_scored hay (targets : list Requirement) :
  filter (covered hay) (filter (λ t, ¬ skipped t) targets) = filter (covered hay) targets.
Proof.
  rewrite list_filter_filter. apply list_filter_iff. intros t.
  unfold covered, skipped. tauto.
Qed.

Lemma filter_uncovered_scored hay (targets : list Requirement) :
  filter (uncovered hay) (filter (λ t, ¬ skipped t) targets)
  = filter (uncovered hay) targets.
Proof.
  rewrite list_filter_filter. apply list_filter_iff. intros t.
  unfold uncovered, skipped. tauto.
Qed.

Lemma length_filter_not {A} (P : A → Prop) `{!∀ x, Decision (P x)} (l : list A) :
  length l = (length (filter (λ x, ¬ P x) l) + length (filter P l))%nat.
Proof.
  induction l as [|x l IH]; [done|].
  rewrite !filter_cons. destruct (decide (P x)).
  - rewrite decide_False by tauto. simpl. lia.
  - rewrite decide_True by tauto. simpl. lia.
Qed.

(** C2, amended: a requirement whose needle is empty is neither assessed nor
    missing (removing these requirements from the list changes neither
    [assessed] nor [missing]), but it is counted in [total], which is the
    length of the requirement list: the number of requirements with a
    non-empty needle plus the number of those with an empty one. *)
Theorem empty_needle_skipped (fullText : option string) (targets : list Requirement) :
  let r := coverageCheck fullText targets in
  let scored := filter (λ t, ¬ skipped t) targets in
  assessed r = assessed (coverageCheck fullText scored)
  ∧ missing r = missing (coverageCheck fullText scored)
  ∧ total r = Z.of_nat (length targets)
  ∧ total r = (Z.of_nat (length scored) + Z.of_nat (length (filter skipped targets)))%Z
  ∧ total (coverageCheck fullText scored) = Z.of_nat (length scored).
Proof.
  intros r scored. subst r scored.
  rewrite !coverageCheck_assessed, !coverageCheck_missing, !coverageCheck_total.
  rewrite filter_covered_scored, filter_uncovered_scored.
  repeat split. rewrite (length_filter_not skipped targets) at 1. lia.
Qed.

(** *** The threshold *)

Lemma present_count_token_hits hay key : present_count hay key = token_hits hay key.
Proof.
  unfold present_count. induction key as [|k key IH]; [done|].
  rewrite filter_cons. simpl. destruct (decide (k ∈ hay)); simpl; lia.
Qed.

Lemma token_hits_range hay key : (0 ≤ token_hits hay key ≤ Z.of_nat (length key))%Z.
Proof. induction key as [|k key IH]; simpl; [lia|]. destruct (decide (k ∈ hay)); lia. Qed.

Lemma ratio_ok_iff hay key :
  key ≠ [] →
  ratio_ok hay key = true
  ↔ (0.35 <= inject_Z (token_hits hay key) / inject_Z (Z.of_nat (length key)))%Q.
Proof.
  intros _. unfold ratio_ok, ratio.
  by rewrite present_count_token_hits, Qle_bool_iff.
Qed.

Lemma ratio_ok_iff_Z hay key :
  key ≠ [] →
  ratio_ok hay key = true
  ↔ (7 * Z.of_nat (length key) ≤ 20 * token_hits hay key)%Z.
Proof.
  intros Hne. unfold ratio_ok, ratio. rewrite present_count_token_hits.
  apply Qle_035_quotient. destruct key; [done | simpl; lia].
Qed.

Lemma coverageCheck_insert_assessed fullText before after t :
  assessed (coverageCheck fullText (before ++ t :: after))
  = (assessed (coverageCheck fullText (before ++ after))
     + if decide (covered (haystack fullText) t) then 1 else 0)%Z.
Proof.
  rewrite !coverageCheck_assessed, !filter_app, !length_app, filter_cons.
  destruct (decide (covered (haystack fullText) t)); simpl; lia.
Qed.

Lemma coverageCheck_insert_missing fullText before after t :
  missing (coverageCheck fullText (before ++ t :: after))
  = missing (coverageCheck fullText before)
    ++ (if decide (uncovered (haystack fullText) t) then [label t] else [])
    ++ missing (coverageCheck fullText after).
Proof.
  rewrite !coverageCheck_missing, filter_app, fmap_app, filter_cons.
  by destruct (decide (uncovered (haystack fullText) t)).
Qed.

Lemma coverageCheck_app_missing fullText before after :
  missing (coverageCheck fullText (before ++ after))
  = missing (coverageCheck fullText before) ++ missing (coverageCheck fullText after).
Proof. by rewrite !coverageCheck_missing, filter_app, fmap_app. Qed.

Lemma substring_0_length (n : nat) (s : string) :
  String.length (substring 0 n s) = Nat.min n (String.length s).
Proof.
  revert s. induction n as [|n IH]; intros [|c s]; simpl; try done.
  by rewrite IH.
Qed.

Lemma substring_0_prefix (n : nat) (s : string) :
  String.prefix (substring 0 n s) s = true.
Proof.
  revert s. induction n as [|n IH]; intros [|c s]; simpl; try done.
  rewrite IH. by destruct (ascii_dec c c).
Qed.

(** C3: for a requirement [t] whose needle is not empty, at any place in the
    requirement list, the evaluator counts the needle tokens that are in the
    haystack set, every occurrence counted; [t] is covered exactly when that
    count divided by the length of the needle is at least 0.35, and
    otherwise one label is added to [missing], after the labels of the
    requirements before [t]: the code of [t] if it has a non-empty one, else
    the first 60 code units of its text.  With a needle of 20 tokens, 7
    present tokens make [t] covered and 6 make it missing. *)
Theorem coverage_threshold (fullText : option string)
    (before after : list Requirement) (t : Requirement) (Hneedle : needle t ≠ []) :
  let hay := haystack fullText in
  let presentCount := token_hits hay (needle t) in
  let needleLength := Z.of_nat (length (needle t)) in
  let r0 := coverageCheck fullText (before ++ after) in
  let r := coverageCheck fullText (before ++ t :: after) in
  let is_covered := assessed r = (assessed r0 + 1)%Z ∧ missing r = missing r0 in
  let is_missing :=
    assessed r = assessed r0
    ∧ missing r = missing (coverageCheck fullText before)
                  ++ label t :: missing (coverageCheck fullText after) in
  present_count hay (needle t) = presentCount
  ∧ ((0.35 <= inject_Z presentCount / inject_Z needleLength)%Q → is_covered)
  ∧ (¬ (0.35 <= inject_Z presentCount / inject_Z needleLength)%Q → is_missing)
  ∧ (∀ c, req_code t = Some c → c ≠ "" → label t = c)
  ∧ (req_code t = None ∨ req_code t = Some "" →
      ∃ s, req_text t = Some s ∧ label t = first_60 s
           ∧ String.length (label t) = Nat.min 60 (String.length s)
           ∧ String.prefix (label t) s = true)
  ∧ (needleLength = 20%Z → presentCount = 7%Z → is_covered)
  ∧ (needleLength = 20%Z → presentCount = 6%Z → is_missing).
Proof.
  cbv zeta.
  set (hay := haystack fullText).
  set (p := token_hits hay (needle t)).
  set (n := Z.of_nat (length (needle t))).
  rewrite coverageCheck_insert_assessed, coverageCheck_insert_missing,
    coverageCheck_app_missing.
  fold hay.
  set (a0 := assessed (coverageCheck fullText (before ++ after))).
  set (mb := missing (coverageCheck fullText before)).
  set (ma := missing (coverageCheck fullText after)).
  assert (Hcov : (0.35 <= inject_Z p / inject_Z n)%Q → covered hay t ∧ ¬ uncovered hay t).
  { intros Hq. apply (ratio_ok_iff hay) in Hq; [|done].
    split; [by split | intros [_ ?]; congruence]. }
  assert (Hmiss : ¬ (0.35 <= inject_Z p / inject_Z n)%Q →
                  ¬ covered hay t ∧ uncovered hay t).
  { intros Hq. unfold p, n in Hq. rewrite <- (ratio_ok_iff hay) in Hq by done.
    apply not_true_is_false in Hq.
    split; [intros [_ ?]; congruence | by split]. }
  assert (Hyes : covered hay t ∧ ¬ uncovered hay t →
    (a0 + (if decide (covered hay t) then 1 else 0))%Z = (a0 + 1)%Z
    ∧ mb ++ (if decide (uncovered hay t) then [label t] else []) ++ ma = mb ++ ma).
  { intros [Hc Hu]. by rewrite decide_True, decide_False by done. }
  assert (Hno : ¬ covered hay t ∧ uncovered hay t →
    (a0 + (if decide (covered hay t) then 1 else 0))%Z = a0
    ∧ mb ++ (if decide (uncovered hay t) then [label t] else []) ++ ma
      = mb ++ label t :: ma).
  { intros [Hc Hu]. rewrite decide_False, decide_True by done.
    split; [lia | done]. }
  split; [apply present_count_token_hits|].
  split; [intros Hq; apply Hyes, Hcov, Hq|].
  split; [intros Hq; apply Hno, Hmiss, Hq|].
  split.
  { intros c Hc Hne. unfold label. rewrite Hc. by rewrite decide_False. }
  split.
  { intros Hc. unfold needle in Hneedle.
    destruct (req_text t) as [s|] eqn:Ht; [|done].
    exists s. assert (label t = first_60 s) as ->.
    { unfold label. rewrite Ht. by destruct Hc as [-> | ->]. }
    split; [done|]. split; [done|].
    split; [apply substring_0_length | apply substring_0_prefix]. }
  split.
  - intros Hn Hp. apply Hyes, Hcov. rewrite Hn, Hp. by vm_compute.
  - intros Hn Hp. apply Hno, Hmiss. rewrite Hn, Hp. by vm_compute.
Qed.

(** C3 at a requirement with 2 of its 5 needle tokens in the text. *)
Lemma coverage_threshold_witness :
  needle deck_item ≠ []
  ∧ assessed (coverageCheck (Some "Safe deck.") ([stop_word_item] ++ deck_item :: []))
    = 1%Z.
Proof.
  assert (Hne : needle deck_item ≠ []) by (vm_compute; discriminate).
  split; [exact Hne|].
  destruct (coverage_threshold (Some "Safe deck.") [stop_word_item] [] deck_item Hne)
    as (_ & Hcov & _).
  apply Hcov. vm_compute. discriminate.
Defined.

Example twenty_tokens : length (needle twenty_token_item) = 20%nat.
Proof. vm_compute. reflexivity. Qed.

Example seven_of_twenty_covered :
  coverageCheck (Some "Alpha, bravo, charlie, delta, echo, foxtrot and golf.")
    [twenty_token_item]
  = {| total := 1; assessed := 1; percentage := 100; missing := [] |}.
Proof. vm_compute. reflexivity. Qed.

Example six_of_twenty_missing :
  coverageCheck (Some "Alpha, bravo, charlie, delta, echo and foxtrot.")
    [twenty_token_item]
  = {| total := 1; assessed := 0; percentage := 0; missing := ["PC 2.1"] |}.
Proof. vm_compute. reflexivity. Qed.

(** Every occurrence of a needle token counts. *)
Example repeated_token_counts :
  token_hits (haystack (Some "deck")) (tokenize (Some "deck deck deck hull")) = 3%Z.
Proof. vm_compute. reflexivity. Qed.

(** *** Monotonicity in the assessment text *)

Lemma token_hits_mono (hayA hayB : gset string) key :
  hayA ⊆ hayB → (token_hits hayA key ≤ token_hits hayB key)%Z.
Proof.
  intros Hsub. induction key as [|k key IH]; simpl; [lia|].
  destruct (decide (k ∈ hayA)) as [HA|HA].
  - rewrite decide_True by set_solver. lia.
  - destruct (decide (k ∈ hayB)); lia.
Qed.

Lemma covered_mono (hayA hayB : gset string) t :
  hayA ⊆ hayB → covered hayA t → covered hayB t.
Proof.
  intros Hsub [Hne HA]. split; [done|].
  apply ratio_ok_iff_Z; [done|]. apply ratio_ok_iff_Z in HA; [|done].
  pose proof (token_hits_mono hayA hayB (needle t) Hsub). lia.
Qed.

Lemma uncovered_anti (hayA hayB : gset string) t :
  hayA ⊆ hayB → uncovered hayB t → uncovered hayA t.
Proof.
  intros Hsub [Hne HB]. split; [done|].
  destruct (ratio_ok hayA (needle t)) eqn:HA; [|done].
  assert (covered hayB t) as [_ ?] by (apply (covered_mono hayA); done).
  congruence.
Qed.

Lemma length_filter_mono {A} (P Q : A → Prop)
    `{!∀ x, Decision (P x), !∀ x, Decision (Q x)} (l : list A) :
  (∀ x, P x → Q x) → (length (filter P l) ≤ length (filter Q l))%nat.
Proof.
  intros HPQ. induction l as [|x l IH]; [done|].
  rewrite !filter_cons. destruct (decide (P x)).
  - rewrite decide_True by auto. simpl. lia.
  - destruct (decide (Q x)); simpl; lia.
Qed.

Lemma sublist_filter_mono {A} (P Q : A → Prop)
    `{!∀ x, Decision (P x), !∀ x, Decision (Q x)} (l : list A) :
  (∀ x, P x → Q x) → filter P l `sublist_of` filter Q l.
Proof.
  intros HPQ. induction l as [|x l IH]; [done|].
  rewrite !filter_cons. destruct (decide (P x)).
  - rewrite decide_True by auto. by apply sublist_skip.
  - destruct (decide (Q x)); [by apply sublist_cons | done].
Qed.

Lemma coverageCheck_mono (A B : option string) (targets : list Requirement) :
  haystack A ⊆ haystack B →
  not_lower (coverageCheck A targets) (coverageCheck B targets).
Proof.
  intros Hsub.
  assert (Ha : (assessed (coverageCheck A targets)
                ≤ assessed (coverageCheck B targets))%Z).
  { rewrite !coverageCheck_assessed. apply inj_le, length_filter_mono.
    intros t. by apply covered_mono. }
  split; [exact Ha|]. split.
  - rewrite !coverageCheck_percentage, !coverageCheck_total.
    destruct (decide (0 < Z.of_nat (length targets))%Z) as [Hn|Hn]; [|done].
    rewrite !Math_round_quotient by done.
    apply Z.div_le_mono; lia.
  - rewrite !coverageCheck_missing. apply fmap_sublist, sublist_filter_mono.
    intros t. by apply uncovered_anti.
Qed.

(** Tokens of a text that continues after a space. *)
Lemma pieces_app (a c : string) (sp : ascii) :
  CodeUnit.is_space sp = true →
  pieces (a ++ String sp c)%string = pieces a ++ pieces c.
Proof.
  intros Hsp. induction a as [|x a IH].
  - rewrite append_empty_l. simpl. by rewrite Hsp.
  - rewrite append_cons. simpl. rewrite IH.
    destruct (CodeUnit.is_space x); [done|].
    pose proof (pieces_not_nil a). by destruct (pieces a).
Qed.

Lemma tokenize_app_space (a c : string) :
  tokenize (Some (a ++ String " " c)%string) = tokenize (Some a) ++ tokenize (Some c).
Proof.
  rewrite !tokenize_tokenize_spec. unfold tokenize_spec.
  rewrite !map_units_app. simpl map_units at 3.
  change (CodeUnit.toLowerCase " ") with " "%char.
  simpl map_units at 2.
  rewrite pieces_app by done. by rewrite !filter_app.
Qed.

Lemma tokenize_default (t : option string) : tokenize (Some (default "" t)) = tokenize t.
Proof. by destruct t. Qed.

Lemma haystack_app_space (a c : string) :
  haystack (Some a) ⊆ haystack (Some (a ++ String " " c)%string).
Proof.
  unfold haystack. simpl. rewrite tokenize_app_space, list_to_set_app_L. set_solver.
Qed.

(** C10: if every token of [tokenize A] is in the token set of [B] then the
    result for [B] has [assessed] and [percentage] at least those of the
    result for [A], and its [missing] is a subsequence of that of [A]; so
    it is, in particular, when [B] is [A] followed by a space and more
    text. *)
Theorem coverage_monotone (A B : option string) (targets : list Requirement)
    (Htokens : ∀ k, k ∈ tokenize A → k ∈ (list_to_set (tokenize B) : gset string)) :
  not_lower (coverageCheck A targets) (coverageCheck B targets)
  ∧ ∀ extra : string,
      not_lower (coverageCheck A targets)
        (coverageCheck (Some (default "" A ++ String " " extra)%string) targets).
Proof.
  split.
  - apply coverageCheck_mono. unfold haystack. rewrite !tokenize_default.
    intros k Hk. apply Htokens. set_solver.
  - intros extra. apply coverageCheck_mono.
    change (haystack A) with (haystack (Some (default "" A))).
    apply haystack_app_space.
Qed.

(** C10 at two texts and two requirements. *)
Lemma coverage_monotone_witness :
  (∀ k, k ∈ tokenize (Some "Safe deck.")
        → k ∈ (list_to_set (tokenize (Some "Deck practices are safe.")) : gset string))
  ∧ not_lower (coverageCheck (Some "Safe deck.") [deck_item; twenty_token_item])
      (coverageCheck (Some "Deck practices are safe.") [deck_item; twenty_token_item]).
Proof.
  assert (H : ∀ k, k ∈ tokenize (Some "Safe deck.")
        → k ∈ (list_to_set (tokenize (Some "Deck practices are safe.")) : gset string)).
  { apply Forall_forall, (bool_decide_unpack _). vm_compute. exact I. }
  split; [exact H|].
  exact (proj1 (coverage_monotone (Some "Safe deck.") (Some "Deck practices are safe.")
                  [deck_item; twenty_token_item] H)).
Defined.

(** ** The unit report builder *)

Lemma forEach_push_fmap {A} (f : A → Gap) (xs : list A) (gs : list Gap) :
  forEach_push f xs gs = gs ++ (f <$> xs).
Proof.
  unfold forEach_push. revert gs. induction xs as [|x xs IH]; intros gs; simpl.
  - by rewrite app_nil_r.
  - by rewrite IH, <- app_assoc.
Qed.

Lemma percentage_range fullText targets :
  (0 ≤ percentage (coverageCheck fullText targets) ≤ 100)%Z.
Proof.
  pose proof (verdict_partition (haystack fullText) targets) as Hp.
  rewrite coverageCheck_percentage, coverageCheck_assessed, coverageCheck_total.
  destruct (decide _) as [Hn|Hn]; [|lia].
  rewrite Math_round_quotient by done. split.
  - apply Z.div_pos; lia.
  - apply Z.lt_succ_r, Z.div_lt_upper_bound; lia.
Qed.

(** [Math.min(100, Math.round(x))] is [round(min(100, x))]. *)
Lemma min_round_round_min (x : Q) :
  Z.min 100 (Math_round x) = Math_round (Qmin 100 x).
Proof.
  assert (Hge : (100 <= x)%Q → Z.min 100 (Math_round x) = Math_round 100).
  { intros Hle. change (Math_round 100) with 100%Z.
    apply Z.min_l. rewrite <- (Math_round_inject_Z 100) at 1.
    by apply Math_round_mono. }
  unfold Qmin, GenericMinMax.gmin. destruct (100 ?= x)%Q eqn:Hc.
  - apply Hge. apply Qeq_alt in Hc. rewrite Hc. apply Qle_refl.
  - apply Hge. apply Qlt_alt in Hc. by apply Qlt_le_weak.
  - apply Qgt_alt in Hc. apply Z.min_r.
    rewrite <- (Math_round_inject_Z 100).
    apply Math_round_mono, Qlt_le_weak, Hc.
Qed.

Lemma validity_status_cases (v : Z) :
  ((85 ≤ v)%Z → validity_status v = pass)
  ∧ ((70 ≤ v < 85)%Z → validity_status v = warning)
  ∧ ((v < 70)%Z → validity_status v = fail).
Proof.
  unfold validity_status.
  destruct (Z.leb_spec 85 v), (Z.leb_spec 70 v); repeat split; intros; done || lia.
Qed.

Lemma sufficiency_status_cases (v : Z) :
  ((90 ≤ v)%Z → sufficiency_status v = pass)
  ∧ ((75 ≤ v < 90)%Z → sufficiency_status v = warning)
  ∧ ((v < 75)%Z → sufficiency_status v = fail).
Proof.
  unfold sufficiency_status.
  destruct (Z.leb_spec 90 v), (Z.leb_spec 75 v); repeat split; intros; done || lia.
Qed.

(** C4: in the report of a resolved unit, [pcCov] is the coverage by the
    assessment text of the performance criteria of the payload that have a
    code and a description, [keCov] that of its knowledge items, and both
    are the coverage results of the report; validity is the percentage of
    [pcCov]; sufficiency is [round(min(100, pc * 0.6 + ke * 0.4))]; the
    status of validity is pass from 85, warning from 70 and fail below, that
    of sufficiency pass from 90, warning from 75 and fail below, each with
    its score; authenticity and currency are pass/100; fairness is pass/95,
    flexibility pass/90, reliability pass/92, and the validity principle
    repeats the validity rule. *)
Theorem report_scores (assessmentText : string) (tgaPayload : TGAPayload) :
  let rep := buildReportFromTGA assessmentText tgaPayload in
  let pcCov :=
    coverageCheck (Some assessmentText)
      (pc_requirement <$> filter pc_usable (default [] (elementsAndPC tgaPayload))) in
  let keCov :=
    coverageCheck (Some assessmentText)
      (imap ke_requirement (default [] (knowledgeEvidence tgaPayload))) in
  let validity' := score (validity (rulesOfEvidence rep)) in
  let sufficiency' := score (sufficiency (rulesOfEvidence rep)) in
  performanceCriteria (coverage rep) = pcCov
  ∧ knowledge (coverage rep) = keCov
  ∧ validity' = percentage pcCov
  ∧ sufficiency'
    = Math_round (Qmin 100 (inject_Z (percentage pcCov) * 0.6
                            + inject_Z (percentage keCov) * 0.4))
  ∧ ((85 ≤ validity')%Z → status (validity (rulesOfEvidence rep)) = pass)
  ∧ ((70 ≤ validity' < 85)%Z → status (validity (rulesOfEvidence rep)) = warning)
  ∧ ((validity' < 70)%Z → status (validity (rulesOfEvidence rep)) = fail)
  ∧ ((90 ≤ sufficiency')%Z → status (sufficiency (rulesOfEvidence rep)) = pass)
  ∧ ((75 ≤ sufficiency' < 90)%Z → status (sufficiency (rulesOfEvidence rep)) = warning)
  ∧ ((sufficiency' < 75)%Z → status (sufficiency (rulesOfEvidence rep)) = fail)
  ∧ authenticity (rulesOfEvidence rep) = {| status := pass; score := 100 |}
  ∧ currency (rulesOfEvidence rep) = {| status := pass; score := 100 |}
  ∧ fairness (principlesOfAssessment rep) = {| status := pass; score := 95 |}
  ∧ flexibility (principlesOfAssessment rep) = {| status := pass; score := 90 |}
  ∧ reliability (principlesOfAssessment rep) = {| status := pass; score := 92 |}
  ∧ poa_validity (principlesOfAssessment rep) = validity (rulesOfEvidence rep).
Proof.
  cbv zeta. unfold buildReportFromTGA. cbn [coverage rulesOfEvidence
    principlesOfAssessment performanceCriteria knowledge validity sufficiency
    authenticity currency fairness flexibility reliability poa_validity status score].
  split; [reflexivity|]. split; [reflexivity|].
  split; [reflexivity|]. split; [apply min_round_round_min|].
  pose proof (validity_status_cases) as Hv.
  pose proof (sufficiency_status_cases) as Hs.
  repeat split; try done; try apply Hv; try apply Hs.
Qed.

(** C5: with [pcCov] the coverage by the assessment text of the performance
    criteria of the payload that have a code and a description, and [keCov]
    that of its knowledge items, the gaps of the report of a resolved unit
    are the first 5 entries at most of the missing performance criteria,
    each a critical gap of priority HIGH, followed by the first 5 entries at
    most of the missing knowledge items, each an improvement gap of priority
    MEDIUM; there are at most 10 gaps, at most 5 of them critical, and
    exactly 5 critical ones when 8 performance criteria are missing. *)
Theorem report_gaps (assessmentText : string) (tgaPayload : TGAPayload) :
  let rep := buildReportFromTGA assessmentText tgaPayload in
  let pcCov :=
    coverageCheck (Some assessmentText)
      (pc_requirement <$> filter pc_usable (default [] (elementsAndPC tgaPayload))) in
  let keCov :=
    coverageCheck (Some assessmentText)
      (imap ke_requirement (default [] (knowledgeEvidence tgaPayload))) in
  let pcGap pc :=
    {| type := critical; element := Some pc;
       description := "Performance criterion not clearly evidenced in assessment text.";
       recommendation := "Add/clarify an assessment task or marking checklist item for this PC.";
       priority := HIGH |} in
  let keGap k :=
    {| type := improvement; element := Some k;
       description := "Knowledge evidence coverage could be strengthened.";
       recommendation := "Add a short-answer/scenario question to explicitly test this knowledge.";
       priority := MEDIUM |} in
  gaps rep = (pcGap <$> take 5 (missing pcCov)) ++ (keGap <$> take 5 (missing keCov))
  ∧ (length (gaps rep) ≤ 10)%nat
  ∧ (length (filter (λ g, type g = critical) (gaps rep)) ≤ 5)%nat
  ∧ (length (missing pcCov) = 8%nat →
      length (filter (λ g, type g = critical) (gaps rep)) = 5%nat).
Proof.
  cbv zeta.
  set (rep := buildReportFromTGA assessmentText tgaPayload).
  set (pcm := missing (coverageCheck (Some assessmentText)
                (pc_requirement <$> filter pc_usable (default [] (elementsAndPC tgaPayload))))).
  set (kem := missing (coverageCheck (Some assessmentText)
                (imap ke_requirement (default [] (knowledgeEvidence tgaPayload))))).
  assert (Hg : gaps rep = (pc_gap <$> take 5 pcm) ++ (ke_gap <$> take 5 kem)).
  { unfold rep, buildReportFromTGA. cbn [gaps].
    rewrite !forEach_push_fmap. reflexivity. }
  assert (Hc : filter (λ g, type g = critical) (gaps rep) = pc_gap <$> take 5 pcm).
  { rewrite Hg, filter_app.
    assert (∀ l : list string,
      filter (λ g, type g = critical) (pc_gap <$> l) = pc_gap <$> l) as ->.
    { intros l. induction l as [|x l IH]; [done|].
      rewrite fmap_cons, filter_cons, decide_True by done. by rewrite IH. }
    assert (∀ l : list string,
      filter (λ g, type g = critical) (ke_gap <$> l) = []) as ->.
    { intros l. induction l as [|x l IH]; [done|].
      rewrite fmap_cons, filter_cons, decide_False by done. by rewrite IH. }
    by rewrite app_nil_r. }
  split; [exact Hg|]. split; [|split].
  - rewrite Hg, length_app, !length_fmap, !length_take. lia.
  - rewrite Hc, length_fmap, length_take. lia.
  - intros H8. rewrite Hc, length_fmap, length_take, H8. done.
Qed.

Example eight_missing_five_gaps :
  let rep := buildReportFromTGA "Nothing relevant here." eight_pc_payload in
  missing (performanceCriteria (coverage rep))
  = ["PC 1.1"; "PC 1.2"; "PC 1.3"; "PC 1.4"; "PC 2.1"; "PC 2.2"; "PC 2.3"; "PC 2.4"]
  ∧ element <$> gaps rep
    = [Some "PC 1.1"; Some "PC 1.2"; Some "PC 1.3"; Some "PC 1.4"; Some "PC 2.1"; Some "K1"]
  ∧ type <$> gaps rep = [critical; critical; critical; critical; critical; improvement].
Proof. vm_compute. repeat split. Qed.

(** ** The multi-unit aggregator *)

Lemma settle_length outcomes slots i : length (settle outcomes slots i) = length slots.
Proof. unfold settle. destruct (outcomes !! i); [apply length_insert | done]. Qed.

Lemma fold_settle_length outcomes order slots :
  length (fold_left (settle outcomes) order slots) = length slots.
Proof.
  revert slots. induction order as [|j order IH]; intros slots; simpl; [done|].
  by rewrite IH, settle_length.
Qed.

(** The slot of a lookup that has completed holds its outcome, whatever
    completed before or after it. *)
Lemma fold_settle_lookup outcomes order slots i :
  length slots = length outcomes → (i < length outcomes)%nat →
  fold_left (settle outcomes) order slots !! i
  = if decide (i ∈ order) then Some (outcomes !! i) else slots !! i.
Proof.
  intros Hlen Hi. revert slots Hlen.
  induction order as [|j order IH]; intros slots Hlen; cbn [fold_left].
  - rewrite decide_False; [done | apply not_elem_of_nil].
  - rewrite IH by (by rewrite settle_length).
    destruct (decide (i ∈ order)) as [Hin|Hin].
    + rewrite decide_True; [done | by apply list_elem_of_further].
    + unfold settle. destruct (decide (i = j)) as [<-|Hne].
      * rewrite decide_True by apply list_elem_of_here.
        destruct (lookup_lt_is_Some_2 outcomes i Hi) as [o Ho]. rewrite Ho.
        apply list_lookup_insert_eq. lia.
      * rewrite decide_False by (rewrite elem_of_cons; tauto).
        destruct (outcomes !! j); [|done].
        by apply list_lookup_insert_ne.
Qed.

(** When every lookup completes, [Promise.allSettled] delivers the outcomes
    in the order of the promises, not in the order of completion. *)
Lemma allSettled_order outcomes order :
  order ≡ₚ seq 0 (length outcomes) → allSettled outcomes order = Some outcomes.
Proof.
  intros Hperm. unfold allSettled.
  assert (fold_left (settle outcomes) order (replicate (length outcomes) None)
          = Some <$> outcomes) as ->.
  { apply list_eq. intros i. destruct (decide (i < length outcomes)%nat) as [Hi|Hi].
    - rewrite fold_settle_lookup; [|apply length_replicate|done].
      rewrite decide_True by (rewrite Hperm, elem_of_seq; lia).
      rewrite list_lookup_fmap.
      by destruct (lookup_lt_is_Some_2 outcomes i Hi) as [o ->].
    - rewrite !lookup_ge_None_2; [done| |].
      + rewrite length_fmap. lia.
      + rewrite fold_settle_length, length_replicate. lia. }
  by apply mapM_fmap_Some.
Qed.

Lemma lookup_failed_cases (settled : Settled) :
  lookup_failed settled = true
  ↔ settled = rejected ∨ settled = fulfilled None
    ∨ ∃ v, settled = fulfilled (Some v) ∧ found v = Some false.
Proof.
  destruct settled as [[v|]|]; simpl.
  - rewrite bool_decide_eq_true. split.
    + intros Hf. right; right. by exists v.
    + intros [?|[?|(v' & [= <-] & Hf)]]; done.
  - split; [intros _; right; by left | done].
  - split; [intros _; by left | done].
Qed.

Lemma validate_resolved fetchUoc order s :
  detectedUoCs s ≠ [] → order ≡ₚ seq 0 (length (detectedUoCs s)) →
  validate fetchUoc order s
  = setIsProcessing false
      (setActiveReportIdx 0
         (setReports
            (imap (per_unit_report (assessmentText s) (detectedUoCs s))
                  (fetchUoc <$> detectedUoCs s))
            (setActiveTab results (setIsProcessing true s)))).
Proof.
  intros Hne Hperm. unfold validate.
  rewrite decide_False by (by destruct (detectedUoCs s)).
  cbn [detectedUoCs setActiveTab setIsProcessing].
  rewrite allSettled_order; [done|]. by rewrite length_fmap.
Qed.

Lemma failure_report_standard code : standard_failure code (failure_report code).
Proof. unfold standard_failure. repeat split. eexists. repeat split. Qed.

Lemma validate_resolved_lookup fetchUoc order s i code :
  detectedUoCs s ≠ [] → order ≡ₚ seq 0 (length (detectedUoCs s)) →
  detectedUoCs s !! i = Some code →
  reports (validate fetchUoc order s) !! i
  = Some (per_unit_report (assessmentText s) (detectedUoCs s) i (fetchUoc code)).
Proof.
  intros Hne Hperm Hi. rewrite validate_resolved by done.
  cbn [reports setIsProcessing setActiveReportIdx setReports].
  by rewrite list_lookup_imap, list_lookup_fmap, Hi.
Qed.

(** C6: for a non-empty sequence of detected codes, whatever the order in
    which the lookups complete, [validate] produces as many reports as there
    are codes, the i-th for the i-th code: the standardized failure report
    when the lookup of that code failed (it was rejected, gave [null], or
    gave a payload with [found] false), and the report built from the
    payload otherwise. *)
Theorem validate_order_and_failures (fetchUoc : string → Settled) (order : list nat)
    (s : AppState)
    (Hcodes : detectedUoCs s ≠ [])
    (Horder : order ≡ₚ seq 0 (length (detectedUoCs s))) :
  let s' := validate fetchUoc order s in
  length (reports s') = length (detectedUoCs s)
  ∧ (∀ i code, detectedUoCs s !! i = Some code →
       (lookup_failed (fetchUoc code) = true →
          ∃ r, reports s' !! i = Some r ∧ standard_failure (Some code) r)
       ∧ (lookup_failed (fetchUoc code) = false →
          ∃ v, fetchUoc code = fulfilled (Some v)
               ∧ reports s' !! i = Some (buildReportFromTGA (assessmentText s) v)))
  ∧ (∀ settled, lookup_failed settled = true
       ↔ settled = rejected ∨ settled = fulfilled None
         ∨ ∃ v, settled = fulfilled (Some v) ∧ found v = Some false).
Proof.
  cbv zeta. split; [|split].
  - rewrite validate_resolved by done.
    cbn [reports setIsProcessing setActiveReportIdx setReports].
    by rewrite length_imap, length_fmap.
  - intros i code Hi.
    rewrite (validate_resolved_lookup fetchUoc order s i code) by done.
    unfold per_unit_report. rewrite Hi. split; intros Hf; rewrite Hf.
    + eexists. split; [done | apply failure_report_standard].
    + destruct (fetchUoc code) as [[v|]|]; try done. by exists v.
  - apply lookup_failed_cases.
Qed.

Example validate_two_codes :
  reports (validate marn008_only [1; 0]%nat two_codes_state)
  = [ buildReportFromTGA "Maintain safe deck practices. Perform mooring operations."
        marn008_payload;
      failure_report (Some "UNKNOWNXYZ") ].
Proof. vm_compute. reflexivity. Qed.

(** C6 at two codes, the lookup of the second completing first. *)
Lemma validate_order_and_failures_witness :
  detectedUoCs two_codes_state ≠ []
  ∧ [1; 0]%nat ≡ₚ seq 0 (length (detectedUoCs two_codes_state))
  ∧ length (reports (validate marn008_only [1; 0]%nat two_codes_state))
    = length (detectedUoCs two_codes_state).
Proof.
  assert (H1 : detectedUoCs two_codes_state ≠ []) by (vm_compute; discriminate).
  assert (H2 : [1; 0]%nat ≡ₚ seq 0 (length (detectedUoCs two_codes_state)))
    by (vm_compute; apply perm_swap).
  split; [exact H1|]. split; [exact H2|].
  exact (proj1 (validate_order_and_failures marn008_only [1; 0]%nat two_codes_state H1 H2)).
Defined.

(** C7: with no detected code, [validate] produces one report: its unit code
    is "N/A", both coverage results are zero, the rules and principles are
    those of the fixed template, and it has one gap, which is critical. *)
Theorem validate_no_codes (fetchUoc : string → Settled) (order : list nat)
    (s : AppState) (Hempty : detectedUoCs s = []) :
  ∃ r, reports (validate fetchUoc order s) = [r]
    ∧ code (unit r) = Some "N/A"
    ∧ performanceCriteria (coverage r)
      = {| total := 0; assessed := 0; percentage := 0; missing := [] |}
    ∧ knowledge (coverage r)
      = {| total := 0; assessed := 0; percentage := 0; missing := [] |}
    ∧ validity (rulesOfEvidence r) = {| status := fail; score := 0 |}
    ∧ sufficiency (rulesOfEvidence r) = {| status := fail; score := 0 |}
    ∧ authenticity (rulesOfEvidence r) = {| status := warning; score := 50 |}
    ∧ currency (rulesOfEvidence r) = {| status := warning; score := 50 |}
    ∧ fairness (principlesOfAssessment r) = {| status := warning; score := 50 |}
    ∧ flexibility (principlesOfAssessment r) = {| status := warning; score := 50 |}
    ∧ poa_validity (principlesOfAssessment r) = {| status := fail; score := 0 |}
    ∧ reliability (principlesOfAssessment r) = {| status := warning; score := 50 |}
    ∧ ∃ g, gaps r = [g] ∧ type g = critical.
Proof.
  exists no_uoc_report. unfold validate. rewrite Hempty. simpl.
  repeat split. eexists. by split.
Qed.

(** C7 at the initial state. *)
Lemma validate_no_codes_witness :
  detectedUoCs initial_state = []
  ∧ ∃ r, reports (validate marn008_only [] initial_state) = [r]
         ∧ code (unit r) = Some "N/A".
Proof.
  split; [reflexivity|].
  destruct (validate_no_codes marn008_only [] initial_state eq_refl)
    as (r & Hr & Hc & _).
  exists r. by split.
Defined.

(** *** The selection index *)

(** On the path of resolved codes the index is reset, and it is a valid
    index into the new collection. *)
Lemma validate_resolved_resets_index fetchUoc order s :
  detectedUoCs s ≠ [] → order ≡ₚ seq 0 (length (detectedUoCs s)) →
  activeReportIdx (validate fetchUoc order s) = 0%nat
  ∧ is_Some (reports (validate fetchUoc order s)
             !! activeReportIdx (validate fetchUoc order s)).
Proof.
  intros Hne Hperm. rewrite validate_resolved by done.
  cbn [reports activeReportIdx setIsProcessing setActiveReportIdx setReports].
  split; [done|]. apply lookup_lt_is_Some_2.
  rewrite length_imap, length_fmap. destruct (detectedUoCs s); [done | simpl; lia].
Qed.

(** On the path of no detected code the index is left as it was. *)
Lemma validate_empty_keeps_index fetchUoc order s :
  detectedUoCs s = [] →
  activeReportIdx (validate fetchUoc order s) = activeReportIdx s
  ∧ reports (validate fetchUoc order s) = [no_uoc_report].
Proof. intros Hempty. unfold validate. by rewrite Hempty. Qed.

(** C8 fails on the path of no detected code: the run [stale_answer_run] is
    accepted from the initial state, its last event is a [validate] that
    rebuilds the collection to the single no-UoC report, and the selection
    index after it is still 1, which is not an index of the collection. *)
Theorem stale_selection_after_validate :
  ∃ w, run stale_answer_run initial_world = Some w
       ∧ reports (app w) = [no_uoc_report]
       ∧ activeReportIdx (app w) = 1%nat
       ∧ reports (app w) !! activeReportIdx (app w) = None.
Proof. eexists. split; [vm_compute; reflexivity|]. repeat split. Qed.

Example lit_0_35_bits :
  Binary64.lit_0_35 = S754_finite false 0x16666666666666 (-54).
Proof. vm_compute. reflexivity. Qed.

Example b64_seven_of_twenty : Binary64.b64_ratio_ok 7 20 = true.
Proof. vm_compute. reflexivity. Qed.

Example b64_six_of_twenty : Binary64.b64_ratio_ok 6 20 = false.
Proof. vm_compute. reflexivity. Qed.

Example b64_round_tie : Binary64.b64_percentage 1 8 = 13%Z.
Proof. vm_compute. reflexivity. Qed.

(** Rounding to binary64 changes no sufficiency score. *)
Lemma b64_sufficiency_agrees : Binary64.sufficiency_agrees = true.
Proof. vm_compute. reflexivity. Qed.

(** Nor the outcome of the ratio test or the percentage, here for every
    list of up to 150 items. *)
Lemma b64_ratio_agrees : Binary64.ratio_agrees 150 = true.
Proof. vm_compute. reflexivity. Qed.

Lemma b64_percentage_agrees : Binary64.percentage_agrees 150 = true.
Proof. vm_compute. reflexivity. Qed.

Example double_0_35_value : Binary64.to_Q Binary64.lit_0_35 = Binary64.double_0_35.
Proof. vm_compute. reflexivity. Qed.

(** For lists of any length below [2^32], the bound of a JavaScript array:
    the ratio test and the percentage come out the same under every rounding
    that is monotone and leaves unchanged the numbers [m / 2^k] with
    [|m| < 2^53] and [k <= 1074], all of which binary64 represents.  The
    operands [present], [key.length], [covered * 100] and [targets.length]
    are integers below [2^53]. *)
Section Rounding.

Variable rnd : Q → Q.

Hypothesis rnd_mono : ∀ x y : Q, (x <= y)%Q → (rnd x <= rnd y)%Q.

Hypothesis rnd_exact :
  ∀ (m : Z) (k : positive),
    (Z.abs m < 2 ^ 53)%Z → (k ≤ 1074)%positive → (rnd (m # 2 ^ k) == (m # 2 ^ k))%Q.

Lemma rnd_ratio_test (p n : Z) :
  (0 ≤ p)%Z → (0 < n < 2 ^ 32)%Z →
  (Binary64.double_0_35 <= rnd (inject_Z p / inject_Z n))%Q ↔ (7 * n ≤ 20 * p)%Z.
Proof.
  intros Hp Hn. split.
  - intros Hle.
    destruct (Z_le_gt_dec (7 * n) (20 * p)) as [H|H]; [exact H|exfalso].
    assert (Hy : (inject_Z p / inject_Z n <= Binary64.below_0_35)%Q).
    { destruct n as [|q|q]; try lia.
      unfold Binary64.below_0_35, Qle, Qdiv, Qinv, Qmult, inject_Z.
      simpl Qnum. simpl Qden. lia. }
    apply rnd_mono in Hy. unfold Binary64.below_0_35 in Hy at 1.
    rewrite rnd_exact in Hy by (vm_compute; (reflexivity || discriminate)).
    assert (Hlt : (Binary64.below_0_35 < Binary64.double_0_35)%Q) by reflexivity.
    apply (Qlt_irrefl Binary64.double_0_35).
    eapply Qle_lt_trans; [exact Hle|]. eapply Qle_lt_trans; [exact Hy | exact Hlt].
  - intros H.
    assert (Hy : (Binary64.double_0_35 <= inject_Z p / inject_Z n)%Q).
    { destruct n as [|q|q]; try lia.
      unfold Binary64.double_0_35, Qle, Qdiv, Qinv, Qmult, inject_Z.
      simpl Qnum. simpl Qden. lia. }
    apply rnd_mono in Hy. unfold Binary64.double_0_35 in Hy at 1.
    rewrite rnd_exact in Hy by (vm_compute; (reflexivity || discriminate)). exact Hy.
Qed.

Lemma rnd_percentage (c n : Z) :
  (0 ≤ c ≤ n)%Z → (0 < n < 2 ^ 32)%Z →
  Math_round (rnd (inject_Z (c * 100) / inject_Z n))
  = Math_round (inject_Z (c * 100) / inject_Z n).
Proof.
  intros Hc Hn. rewrite (Math_round_quotient (c * 100) n) by lia.
  set (x := (inject_Z (c * 100) / inject_Z n)%Q).
  set (k := ((2 * (c * 100) + n) / (2 * n))%Z).
  assert (Hk1 : (2 * n * k ≤ 2 * (c * 100) + n)%Z)
    by (apply Z.mul_div_le; lia).
  assert (Hk2 : (2 * (c * 100) + n < 2 * n * (k + 1))%Z).
  { pose proof (Z.mod_pos_bound (2 * (c * 100) + n) (2 * n) ltac:(lia)) as Hm.
    pose proof (Z.div_mod (2 * (c * 100) + n) (2 * n) ltac:(lia)) as Hd.
    fold k in Hd. lia. }
  assert (Hk0 : (0 ≤ k ≤ 100)%Z).
  { split; [apply Z.div_pos; lia|].
    apply Z.lt_succ_r, Z.div_lt_upper_bound; lia. }
  assert (Hlo : ((2 * k - 1 # 2 ^ 1) <= x)%Q).
  { subst x. destruct n as [|q|q]; try lia.
    unfold Qle, Qdiv, Qinv, Qmult, inject_Z. simpl Qnum. simpl Qden. lia. }
  assert (Hhi : (x <= ((2 * k + 1) * 2 ^ 32 - 1 # 2 ^ 33))%Q).
  { subst x. destruct n as [|q|q]; try lia.
    unfold Qle, Qdiv, Qinv, Qmult, inject_Z. simpl Qnum. simpl Qden. lia. }
  apply rnd_mono in Hlo, Hhi.
  rewrite rnd_exact in Hlo by (try reflexivity; lia).
  rewrite rnd_exact in Hhi by (try reflexivity; lia).
  unfold Math_round. apply Z.le_antisymm.
  - apply Z.lt_succ_r. rewrite Zlt_Qlt.
    eapply Qle_lt_trans; [apply Qfloor_le|].
    eapply Qle_lt_trans; [apply Qplus_le_compat; [exact Hhi | apply Qle_refl]|].
    unfold Qlt, Qplus, inject_Z. simpl Qnum. simpl Qden. lia.
  - assert (Hk : k = Qfloor (inject_Z k)) by (symmetry; apply Qfloor_Z).
    rewrite Hk at 1. apply Qfloor_resp_le.
    eapply Qle_trans; [|apply Qplus_le_compat; [exact Hlo | apply Qle_refl]].
    unfold Qle, Qplus, inject_Z. simpl Qnum. simpl Qden. lia.
Qed.

End Rounding.

(** * Further properties *)

(** ** The coverage evaluator and the text *)

Lemma coverageCheck_coverage_of fullText targets :
  coverageCheck fullText targets = coverage_of (haystack fullText) targets.
Proof. reflexivity. Qed.

Lemma toLowerCase_unit_idem (c : ascii) :
  CodeUnit.toLowerCase (CodeUnit.toLowerCase c) = CodeUnit.toLowerCase c.
Proof. destruct c as [[] [] [] [] [] [] [] []]; reflexivity. Qed.

Lemma toLowerCase_idem (s : string) : toLowerCase (toLowerCase s) = toLowerCase s.
Proof.
  unfold toLowerCase. induction s as [|c s IH]; [done|]. simpl.
  by rewrite toLowerCase_unit_idem, IH.
Qed.

Lemma tokenize_toLowerCase (s : string) :
  tokenize (Some (toLowerCase s)) = tokenize (Some s).
Proof. unfold tokenize. simpl. by rewrite toLowerCase_idem. Qed.

(** X1: the result depends on the assessment text through its set of tokens
    only: exchanging two passages, repeating a passage, putting the text in
    lower case, or replacing it by any text that has the same lower case
    leaves every field of the result unchanged.  (Upper case is another
    matter: it turns the sharp s into SS.) *)
Theorem coverage_text_invariance (a b : string) (targets : list Requirement) :
  coverageCheck (Some (a ++ String " " b)%string) targets
  = coverageCheck (Some (b ++ String " " a)%string) targets
  ∧ coverageCheck (Some (a ++ String " " a)%string) targets
    = coverageCheck (Some a) targets
  ∧ coverageCheck (Some (toLowerCase a)) targets = coverageCheck (Some a) targets
  ∧ (toLowerCase a = toLowerCase b →
     coverageCheck (Some a) targets = coverageCheck (Some b) targets).
Proof.
  rewrite !coverageCheck_coverage_of. unfold haystack. simpl default.
  rewrite !tokenize_app_space, tokenize_toLowerCase, !list_to_set_app_L.
  split; [|split; [|split]].
  - f_equal. apply (comm_L (∪)).
  - f_equal. apply (idemp_L (∪)).
  - done.
  - intros Hsame. by rewrite <- (tokenize_toLowerCase a), Hsame, tokenize_toLowerCase.
Qed.

(** X1 at two texts that differ in the case of letters. *)
Lemma coverage_text_invariance_witness :
  coverageCheck (Some "Safe DECK practices") [deck_item]
  = coverageCheck (Some "SAFE deck Practices") [deck_item].
Proof.
  refine (proj2 (proj2 (proj2 (coverage_text_invariance
            "Safe DECK practices" "SAFE deck Practices" [deck_item]))) _).
  vm_compute. reflexivity.
Defined.

(** ** The extremes of coverage *)

Lemma token_hits_all (hay : gset string) (key : list string) :
  (∀ k, k ∈ key → k ∈ hay) → token_hits hay key = Z.of_nat (length key).
Proof.
  induction key as [|k key IH]; intros Hall; [done|].
  cbn [token_hits length]. rewrite decide_True by (apply Hall; left).
  rewrite IH by (intros k' Hk'; apply Hall; by right). lia.
Qed.

Lemma token_hits_none (key : list string) : token_hits ∅ key = 0%Z.
Proof.
  induction key as [|k key IH]; [done|].
  cbn [token_hits]. rewrite decide_False by set_solver. by rewrite IH.
Qed.

Lemma filter_all {A} (P : A → Prop) `{!∀ x, Decision (P x)} (l : list A) :
  Forall P l → filter P l = l.
Proof.
  induction 1 as [|x l Hx _ IH]; [done|].
  by rewrite filter_cons, decide_True, IH.
Qed.

Lemma filter_none {A} (P : A → Prop) `{!∀ x, Decision (P x)} (l : list A) :
  Forall (λ x, ¬ P x) l → filter P l = [].
Proof.
  induction 1 as [|x l Hx _ IH]; [done|].
  by rewrite filter_cons, decide_False, IH.
Qed.

(** X2: when every requirement has a non-empty needle all of whose tokens
    occur in the assessment text, every requirement is assessed, nothing is
    missing and the percentage is 100. *)
Theorem full_coverage (fullText : option string) (targets : list Requirement)
    (Hsome : targets ≠ [])
    (Hall : Forall (λ t, needle t ≠ [] ∧ ∀ k, k ∈ needle t → k ∈ haystack fullText)
              targets) :
  coverageCheck fullText targets
  = {| total := Z.of_nat (length targets);
       assessed := Z.of_nat (length targets);
       percentage := 100;
       missing := [] |}.
Proof.
  assert (Hcov : Forall (covered (haystack fullText)) targets).
  { eapply Forall_impl; [exact Hall|]. intros t [Hne Hin]. split; [done|].
    apply ratio_ok_iff_Z; [done|]. rewrite token_hits_all by done. lia. }
  assert (Hunc : Forall (λ t, ¬ uncovered (haystack fullText) t) targets).
  { eapply Forall_impl; [exact Hcov|]. intros t [_ Hc] [_ Hu]. congruence. }
  pose proof (coverageCheck_total fullText targets) as Ht.
  pose proof (coverageCheck_assessed fullText targets) as Ha.
  pose proof (coverageCheck_missing fullText targets) as Hm.
  pose proof (coverageCheck_percentage fullText targets) as Hp.
  rewrite filter_all in Ha by done. rewrite filter_none in Hm by done.
  rewrite Ha, Ht in Hp.
  rewrite decide_True in Hp by (destruct targets; [done | simpl; lia]).
  rewrite Math_round_quotient in Hp by (destruct targets; [done | simpl; lia]).
  assert (Hq : ((2 * (Z.of_nat (length targets) * 100) + Z.of_nat (length targets))
                `div` (2 * Z.of_nat (length targets)))%Z = 100%Z).
  { symmetry. apply Z.div_unique with (r := Z.of_nat (length targets)).
    - destruct targets; [done | simpl; lia].
    - lia. }
  rewrite Hq in Hp.
  destruct (coverageCheck fullText targets) as [t a p m]. simpl in *. by subst.
Qed.

(** X2 at the requirement [deck_item] and a text that has its five tokens. *)
Lemma full_coverage_witness :
  [deck_item] ≠ []
  ∧ Forall (λ t, needle t ≠ []
                 ∧ ∀ k, k ∈ needle t
                        → k ∈ haystack (Some "Housekeeping: maintain SAFE deck practices!"))
      [deck_item]
  ∧ percentage (coverageCheck (Some "Housekeeping: maintain SAFE deck practices!")
                  [deck_item]) = 100%Z.
Proof.
  assert (H1 : [deck_item] ≠ []) by discriminate.
  assert (H2 : Forall (λ t, needle t ≠ []
                 ∧ ∀ k, k ∈ needle t
                        → k ∈ haystack (Some "Housekeeping: maintain SAFE deck practices!"))
      [deck_item]).
  { constructor; [|constructor]. split; [vm_compute; discriminate|].
    apply Forall_forall, (bool_decide_unpack _). vm_compute. exact I. }
  split; [exact H1|]. split; [exact H2|].
  rewrite (full_coverage _ _ H1 H2). reflexivity.
Defined.

(** X3: an assessment text without tokens (absent, empty, or made of
    punctuation and stop words only) covers nothing: nothing is assessed,
    the percentage is 0, and [missing] lists every requirement whose needle
    is not empty. *)
Theorem no_tokens_no_coverage (fullText : option string) (targets : list Requirement)
    (Hnone : tokenize fullText = []) :
  let r := coverageCheck fullText targets in
  assessed r = 0%Z ∧ percentage r = 0%Z
  ∧ missing r = label <$> filter (λ t, ¬ skipped t) targets.
Proof.
  cbv zeta.
  assert (Hhay : haystack fullText = ∅).
  { unfold haystack. by rewrite tokenize_default, Hnone. }
  assert (Hunc : ∀ t, uncovered (haystack fullText) t ↔ ¬ skipped t).
  { intros t. unfold uncovered, skipped. split; [by intros [? _]|].
    intros Hne. split; [done|]. apply not_true_is_false.
    rewrite ratio_ok_iff_Z by done. rewrite Hhay, token_hits_none.
    destruct (needle t); [done | simpl; lia]. }
  assert (Hcov : Forall (λ t, ¬ covered (haystack fullText) t) targets).
  { apply Forall_forall. intros t _ [Hne Hc].
    destruct (proj2 (Hunc t) Hne) as [_ Hu]. congruence. }
  assert (Ha : assessed (coverageCheck fullText targets) = 0%Z).
  { rewrite coverageCheck_assessed, filter_none; done. }
  split; [exact Ha|]. split.
  - rewrite coverageCheck_percentage, Ha. destruct (decide _); [|done].
    rewrite Math_round_quotient by done. apply Z.div_small. lia.
  - rewrite coverageCheck_missing. f_equal. apply list_filter_iff, Hunc.
Qed.

(** X3 at a text of punctuation and stop words. *)
Lemma no_tokens_no_coverage_witness :
  tokenize (Some "... and THE; of, it?") = []
  ∧ missing (coverageCheck (Some "... and THE; of, it?") [deck_item; stop_word_item])
    = label <$> filter (λ t, ¬ skipped t) [deck_item; stop_word_item].
Proof.
  assert (H : tokenize (Some "... and THE; of, it?") = []) by (vm_compute; reflexivity).
  split; [exact H|].
  exact (proj2 (proj2 (no_tokens_no_coverage _ [deck_item; stop_word_item] H))).
Defined.

(** ** The requirement lists of a report *)

Lemma buildReportFromTGA_pc assessmentText tgaPayload :
  performanceCriteria (coverage (buildReportFromTGA assessmentText tgaPayload))
  = coverageCheck (Some assessmentText)
      (pc_requirement <$> filter pc_usable (default [] (elementsAndPC tgaPayload))).
Proof. reflexivity. Qed.

Lemma buildReportFromTGA_ke assessmentText tgaPayload :
  knowledge (coverage (buildReportFromTGA assessmentText tgaPayload))
  = coverageCheck (Some assessmentText)
      (imap ke_requirement (default [] (knowledgeEvidence tgaPayload))).
Proof. reflexivity. Qed.

Lemma decimal_inj (n m : nat) : decimal n = decimal m → n = m.
Proof.
  unfold decimal. intros H.
  assert (Hu : Some (Nat.to_uint n) = Some (Nat.to_uint m))
    by (rewrite <- !NilEmpty.usu; by rewrite H).
  injection Hu as Hu. rewrite <- (Unsigned.of_to n), <- (Unsigned.of_to m).
  by rewrite Hu.
Qed.

Lemma label_pc_requirement (p : PCEntry) :
  pc_usable p →
  ∃ c, pcCode p = Some c ∧ c ≠ "" ∧ label (pc_requirement p) = ("PC " ++ c)%string.
Proof.
  unfold pc_usable. intros H. apply andb_true_iff in H as [Hc _].
  destruct (pcCode p) as [c|] eqn:Hp; [|done]. exists c. split; [done|].
  split.
  - intros ->. done.
  - unfold label, pc_requirement. simpl. by rewrite Hp.
Qed.

Lemma label_ke_requirement (i : nat) (t : string) :
  label (ke_requirement i t) = ("K" ++ decimal (i + 1))%string.
Proof. reflexivity. Qed.

Lemma ke_labels (items : list string) :
  label <$> imap ke_requirement items
  = (λ i, ("K" ++ decimal (i + 1))%string) <$> seq 0 (length items).
Proof.
  rewrite <- imap_seq_0. rewrite fmap_imap. apply imap_ext. intros i t _.
  apply label_ke_requirement.
Qed.

(** X4: the performance criteria of a report are the payload entries that
    have both a code and a description, the others are dropped before
    scoring and do not count in [total]; the knowledge items are all of the
    payload's; a missing criterion is labelled "PC " followed by its code,
    a missing knowledge item "K" followed by its position counted from 1,
    so that the labels of the missing knowledge items are pairwise
    distinct. *)
Theorem report_requirement_lists (assessmentText : string) (tgaPayload : TGAPayload) :
  let rep := buildReportFromTGA assessmentText tgaPayload in
  let entries := default [] (elementsAndPC tgaPayload) in
  let items := default [] (knowledgeEvidence tgaPayload) in
  total (performanceCriteria (coverage rep)) = Z.of_nat (length (filter pc_usable entries))
  ∧ total (knowledge (coverage rep)) = Z.of_nat (length items)
  ∧ Forall (λ l, ∃ p c, p ∈ entries ∧ pcCode p = Some c ∧ c ≠ ""
                        ∧ l = ("PC " ++ c)%string)
      (missing (performanceCriteria (coverage rep)))
  ∧ Forall (λ l, ∃ i, (i < length items)%nat ∧ l = ("K" ++ decimal (i + 1))%string)
      (missing (knowledge (coverage rep)))
  ∧ NoDup (missing (knowledge (coverage rep))).
Proof.
  cbv zeta. rewrite buildReportFromTGA_pc, buildReportFromTGA_ke.
  rewrite !coverageCheck_total, !coverageCheck_missing.
  set (hay := haystack (Some assessmentText)).
  set (entries := default [] (elementsAndPC tgaPayload)).
  set (items := default [] (knowledgeEvidence tgaPayload)).
  assert (Hsub : label <$> filter (uncovered hay) (imap ke_requirement items)
                 `sublist_of` label <$> imap ke_requirement items)
    by apply fmap_sublist, sublist_filter.
  rewrite ke_labels in Hsub.
  split; [by rewrite length_fmap|]. split; [by rewrite length_imap|].
  split; [|split].
  - apply Forall_forall. intros l Hl.
    apply list_elem_of_fmap in Hl as (t & -> & Ht).
    apply list_elem_of_filter in Ht as [_ Ht].
    apply list_elem_of_fmap in Ht as (p & -> & Hp).
    apply list_elem_of_filter in Hp as [Hu Hp].
    destruct (label_pc_requirement p Hu) as (c & Hc & Hne & Hl).
    by exists p, c.
  - apply Forall_forall. intros l Hl.
    apply (elem_of_sublist _ _ _ Hl) in Hsub as Hl'. clear Hl. rename Hl' into Hl.
    apply list_elem_of_fmap in Hl as (i & -> & Hi).
    apply elem_of_seq in Hi. exists i. split; [lia | done].
  - eapply sublist_NoDup; [|exact Hsub].
    apply NoDup_fmap_2; [|apply NoDup_seq].
    intros i j Hij. injection Hij as Hij.
    apply decimal_inj in Hij. lia.
Qed.

(** ** The scores of a report *)

Lemma Math_round_weighted (pc ke : Z) :
  Math_round (inject_Z pc * 0.6 + inject_Z ke * 0.4) = ((6 * pc + 4 * ke + 5) / 10)%Z.
Proof.
  unfold Math_round, Qfloor, Qplus, Qmult, inject_Z. simpl Qnum. simpl Qden.
  change (Z.pos (1 * 10 * (1 * 10) * 2)) with 200%Z.
  replace ((pc * 6 * Z.pos (1 * 10) + ke * 4 * Z.pos (1 * 10)) * 2
           + 1 * Z.pos (1 * 10 * (1 * 10)))%Z
    with ((6 * pc + 4 * ke + 5) * 20)%Z by lia.
  change 200%Z with (10 * 20)%Z. by rewrite Z.div_mul_cancel_r.
Qed.

Lemma sufficiency_score_Z (pc ke : Z) :
  sufficiency_score pc ke = Z.min 100 ((6 * pc + 4 * ke + 5) / 10).
Proof. unfold sufficiency_score. by rewrite Math_round_weighted. Qed.

Lemma sufficiency_score_mono (pc ke pc' ke' : Z) :
  (pc ≤ pc')%Z → (ke ≤ ke')%Z → (sufficiency_score pc ke ≤ sufficiency_score pc' ke')%Z.
Proof.
  intros Hp Hk. rewrite !sufficiency_score_Z.
  apply Z.min_le_compat_l, Z.div_le_mono; lia.
Qed.

Lemma sufficiency_score_range (pc ke : Z) :
  (0 ≤ pc)%Z → (0 ≤ ke)%Z → (0 ≤ sufficiency_score pc ke ≤ 100)%Z.
Proof.
  intros Hp Hk. rewrite sufficiency_score_Z. split; [|apply Z.le_min_l].
  apply Z.min_glb; [lia|]. apply Z.div_pos; lia.
Qed.

Lemma validity_status_mono (v w : Z) :
  (v ≤ w)%Z → (status_rank (validity_status v) ≤ status_rank (validity_status w))%nat.
Proof.
  intros H. unfold validity_status.
  destruct (Z.leb_spec 85 v), (Z.leb_spec 70 v), (Z.leb_spec 85 w), (Z.leb_spec 70 w);
    simpl; lia.
Qed.

Lemma sufficiency_status_mono (v w : Z) :
  (v ≤ w)%Z →
  (status_rank (sufficiency_status v) ≤ status_rank (sufficiency_status w))%nat.
Proof.
  intros H. unfold sufficiency_status.
  destruct (Z.leb_spec 90 v), (Z.leb_spec 75 v), (Z.leb_spec 90 w), (Z.leb_spec 75 w);
    simpl; lia.
Qed.

(** X5: a payload without usable performance criteria (none listed, or none
    with both a code and a description) gives validity fail with score 0
    and sufficiency fail with a score of at most 40, whatever the
    assessment text and the knowledge items. *)
Theorem no_criteria_fails (assessmentText : string) (tgaPayload : TGAPayload)
    (Hnone : filter pc_usable (default [] (elementsAndPC tgaPayload)) = []) :
  let rep := buildReportFromTGA assessmentText tgaPayload in
  validity (rulesOfEvidence rep) = {| status := fail; score := 0 |}
  ∧ status (sufficiency (rulesOfEvidence rep)) = fail
  ∧ (score (sufficiency (rulesOfEvidence rep)) ≤ 40)%Z.
Proof.
  cbv zeta.
  pose proof (buildReportFromTGA_pc assessmentText tgaPayload) as Hpc.
  rewrite Hnone in Hpc.
  pose proof (percentage_range (Some assessmentText)
                (imap ke_requirement (default [] (knowledgeEvidence tgaPayload)))) as Hke.
  rewrite <- buildReportFromTGA_ke in Hke.
  assert (Hv : validity (rulesOfEvidence (buildReportFromTGA assessmentText tgaPayload))
               = {| status := fail; score := 0 |}).
  { change (validity (rulesOfEvidence (buildReportFromTGA assessmentText tgaPayload)))
      with {| status := validity_status (percentage (performanceCriteria
                (coverage (buildReportFromTGA assessmentText tgaPayload))));
              score := percentage (performanceCriteria
                (coverage (buildReportFromTGA assessmentText tgaPayload))) |}.
    by rewrite Hpc. }
  split; [exact Hv|].
  change (sufficiency (rulesOfEvidence (buildReportFromTGA assessmentText tgaPayload)))
    with (let s := sufficiency_score
            (percentage (performanceCriteria
               (coverage (buildReportFromTGA assessmentText tgaPayload))))
            (percentage (knowledge
               (coverage (buildReportFromTGA assessmentText tgaPayload)))) in
          {| status := sufficiency_status s; score := s |}).
  cbv zeta. cbn [status score]. rewrite Hpc.
  change (percentage (coverageCheck (Some assessmentText) (pc_requirement <$> [])))
    with 0%Z.
  set (ke := percentage (knowledge (coverage (buildReportFromTGA assessmentText tgaPayload))))
    in *.
  assert (Hs : (sufficiency_score 0 ke ≤ 40)%Z).
  { rewrite sufficiency_score_Z. etrans; [apply Z.le_min_r|].
    apply Z.lt_succ_r, Z.div_lt_upper_bound; lia. }
  split; [|exact Hs].
  unfold sufficiency_status.
  destruct (Z.leb_spec 90 (sufficiency_score 0 ke)); [lia|].
  destruct (Z.leb_spec 75 (sufficiency_score 0 ke)); [lia | done].
Qed.

(** X5 at a payload whose only entry has no description. *)
Lemma no_criteria_fails_witness :
  filter pc_usable (default [] (elementsAndPC no_description_payload)) = []
  ∧ status (sufficiency (rulesOfEvidence
              (buildReportFromTGA "Safe deck practices." no_description_payload)))
    = fail.
Proof.
  assert (H : filter pc_usable (default [] (elementsAndPC no_description_payload)) = [])
    by reflexivity.
  split; [exact H|].
  exact (proj1 (proj2 (no_criteria_fails "Safe deck practices." no_description_payload H))).
Defined.

Lemma buildReportFromTGA_validity assessmentText tgaPayload :
  let rep := buildReportFromTGA assessmentText tgaPayload in
  validity (rulesOfEvidence rep)
  = {| status := validity_status (percentage (performanceCriteria (coverage rep)));
       score := percentage (performanceCriteria (coverage rep)) |}.
Proof. reflexivity. Qed.

Lemma buildReportFromTGA_sufficiency assessmentText tgaPayload :
  let rep := buildReportFromTGA assessmentText tgaPayload in
  let s := sufficiency_score (percentage (performanceCriteria (coverage rep)))
                             (percentage (knowledge (coverage rep))) in
  sufficiency (rulesOfEvidence rep) = {| status := sufficiency_status s; score := s |}.
Proof. reflexivity. Qed.

Lemma buildReportFromTGA_gaps_length assessmentText tgaPayload :
  let rep := buildReportFromTGA assessmentText tgaPayload in
  length (gaps rep)
  = (length (take 5 (missing (performanceCriteria (coverage rep))))
     + length (take 5 (missing (knowledge (coverage rep)))))%nat.
Proof.
  cbv zeta.
  change (gaps (buildReportFromTGA assessmentText tgaPayload))
    with (forEach_push ke_gap
            (take 5 (missing (knowledge
               (coverage (buildReportFromTGA assessmentText tgaPayload)))))
            (forEach_push pc_gap
               (take 5 (missing (performanceCriteria
                  (coverage (buildReportFromTGA assessmentText tgaPayload))))) [])).
  by rewrite !forEach_push_fmap, app_nil_l, length_app, !length_fmap.
Qed.

Lemma coverageCheck_in_range fullText targets :
  result_in_range (coverageCheck fullText targets).
Proof.
  split; [|apply percentage_range].
  rewrite coverageCheck_assessed, coverageCheck_total.
  pose proof (length_filter (covered (haystack fullText)) targets). lia.
Qed.

Lemma buildReportFromTGA_in_range assessmentText tgaPayload :
  report_in_range (buildReportFromTGA assessmentText tgaPayload).
Proof.
  unfold report_in_range.
  rewrite buildReportFromTGA_validity, buildReportFromTGA_sufficiency.
  pose proof (coverageCheck_in_range (Some assessmentText)
    (pc_requirement <$> filter pc_usable (default [] (elementsAndPC tgaPayload)))) as Hpc.
  pose proof (coverageCheck_in_range (Some assessmentText)
    (imap ke_requirement (default [] (knowledgeEvidence tgaPayload)))) as Hke.
  rewrite <- buildReportFromTGA_pc in Hpc. rewrite <- buildReportFromTGA_ke in Hke.
  split; [exact Hpc|]. split; [exact Hke|].
  split; [exact (proj2 Hpc)|].
  split; [apply sufficiency_score_range; [apply Hpc | apply Hke]|].
  unfold entry_in_range. repeat split; try (simpl; lia); apply Hpc.
Qed.

(** X6: in every report that [validate] produces (built from a payload, the
    failure report of a code, or the report of no detected code), the eight
    scores of the rules and principles and both coverage percentages lie
    between 0 and 100, and [0 <= assessed <= total] in both coverage
    results. *)
Theorem validate_reports_in_range (fetchUoc : string → Settled) (order : list nat)
    (s : AppState) (Horder : order ≡ₚ seq 0 (length (detectedUoCs s))) :
  Forall report_in_range (reports (validate fetchUoc order s)).
Proof.
  assert (Htemplate : ∀ c, report_in_range (failure_report c)).
  { intros c. unfold report_in_range, result_in_range, entry_in_range. simpl. lia. }
  destruct (detectedUoCs s) as [|c cs] eqn:Hd.
  - unfold validate. rewrite Hd. simpl. constructor; [|constructor].
    unfold report_in_range, result_in_range, entry_in_range. simpl. lia.
  - rewrite validate_resolved by (rewrite Hd; done).
    cbn [reports setIsProcessing setActiveReportIdx setReports].
    apply Forall_forall. intros r Hr.
    apply list_elem_of_lookup in Hr as [i Hr].
    rewrite list_lookup_imap in Hr.
    destruct ((fetchUoc <$> detectedUoCs s) !! i) as [settled|]; [|done].
    injection Hr as <-. unfold per_unit_report.
    destruct (lookup_failed settled); [apply Htemplate|].
    destruct settled as [[v|]|]; [apply buildReportFromTGA_in_range | apply Htemplate..].
Qed.

(** X6 at two codes of which one is unknown to the provider. *)
Lemma validate_reports_in_range_witness :
  [1; 0]%nat ≡ₚ seq 0 (length (detectedUoCs two_codes_state))
  ∧ Forall report_in_range (reports (validate marn008_only [1; 0]%nat two_codes_state)).
Proof.
  assert (H : [1; 0]%nat ≡ₚ seq 0 (length (detectedUoCs two_codes_state)))
    by (vm_compute; apply perm_swap).
  split; [exact H|].
  exact (validate_reports_in_range marn008_only [1; 0]%nat two_codes_state H).
Defined.

(** X7: more evidence never worsens a report: if every token of the text [A]
    is a token of the text [B], then for the same payload the validity and
    sufficiency scores of the report for [B] are at least those for [A],
    neither status is worse, and there are no more gaps. *)
Theorem report_monotone (A B : string) (tgaPayload : TGAPayload)
    (Htokens : ∀ k, k ∈ tokenize (Some A) → k ∈ tokenize (Some B)) :
  let rA := buildReportFromTGA A tgaPayload in
  let rB := buildReportFromTGA B tgaPayload in
  (score (validity (rulesOfEvidence rA)) ≤ score (validity (rulesOfEvidence rB)))%Z
  ∧ (score (sufficiency (rulesOfEvidence rA))
     ≤ score (sufficiency (rulesOfEvidence rB)))%Z
  ∧ (status_rank (status (validity (rulesOfEvidence rA)))
     ≤ status_rank (status (validity (rulesOfEvidence rB))))%nat
  ∧ (status_rank (status (sufficiency (rulesOfEvidence rA)))
     ≤ status_rank (status (sufficiency (rulesOfEvidence rB))))%nat
  ∧ (length (gaps rB) ≤ length (gaps rA))%nat.
Proof.
  cbv zeta.
  assert (Hsub : haystack (Some A) ⊆ haystack (Some B)).
  { unfold haystack. simpl default. intros k Hk.
    apply elem_of_list_to_set in Hk. apply elem_of_list_to_set. by apply Htokens. }
  destruct (coverageCheck_mono (Some A) (Some B)
    (pc_requirement <$> filter pc_usable (default [] (elementsAndPC tgaPayload))) Hsub)
    as (_ & Hpc & Hmpc).
  destruct (coverageCheck_mono (Some A) (Some B)
    (imap ke_requirement (default [] (knowledgeEvidence tgaPayload))) Hsub)
    as (_ & Hke & Hmke).
  rewrite <- !buildReportFromTGA_pc in Hpc, Hmpc.
  rewrite <- !buildReportFromTGA_ke in Hke, Hmke.
  rewrite !buildReportFromTGA_validity, !buildReportFromTGA_sufficiency,
    !buildReportFromTGA_gaps_length.
  cbn [status score].
  pose proof (sufficiency_score_mono _ _ _ _ Hpc Hke) as Hs.
  split; [exact Hpc|]. split; [exact Hs|].
  split; [by apply validity_status_mono|].
  split; [by apply sufficiency_status_mono|].
  apply sublist_length in Hmpc, Hmke. rewrite !length_take. lia.
Qed.

(** X7 at a text and the same text with one more sentence. *)
Lemma report_monotone_witness :
  (∀ k, k ∈ tokenize (Some "Safe deck.")
        → k ∈ tokenize (Some "Safe deck. Perform mooring operations."))
  ∧ (score (sufficiency (rulesOfEvidence (buildReportFromTGA "Safe deck." marn008_payload)))
     ≤ score (sufficiency (rulesOfEvidence
                (buildReportFromTGA "Safe deck. Perform mooring operations."
                   marn008_payload))))%Z.
Proof.
  assert (H : ∀ k, k ∈ tokenize (Some "Safe deck.")
        → k ∈ tokenize (Some "Safe deck. Perform mooring operations.")).
  { apply Forall_forall, (bool_decide_unpack _). vm_compute. exact I. }
  split; [exact H|].
  exact (proj1 (proj2 (report_monotone "Safe deck."
           "Safe deck. Perform mooring operations." marn008_payload H))).
Defined.

(** ** The badge of the summary *)

(** A report of 90% of the performance criteria and 85% of the knowledge
    items. *)
Example ninety_eighty_five_report :
  let rep := buildReportFromTGA "alpha" ninety_eighty_five_payload in
  percentage (performanceCriteria (coverage rep)) = 90%Z
  ∧ percentage (knowledge (coverage rep)) = 85%Z
  ∧ looks_good rep = true
  ∧ sufficiency (rulesOfEvidence rep) = {| status := warning; score := 88 |}.
Proof. vm_compute. repeat split. Qed.

(** X8: a report with the badge "Looks Good" has validity pass and a
    sufficiency score of at least 88, so its sufficiency is pass or
    warning, never fail; the reports of a failed lookup and of no detected
    code never have the badge. *)
Theorem looks_good_statuses (assessmentText : string) (tgaPayload : TGAPayload)
    (Hgood : looks_good (buildReportFromTGA assessmentText tgaPayload) = true) :
  let rep := buildReportFromTGA assessmentText tgaPayload in
  status (validity (rulesOfEvidence rep)) = pass
  ∧ (88 ≤ score (sufficiency (rulesOfEvidence rep)))%Z
  ∧ status (sufficiency (rulesOfEvidence rep)) ≠ fail
  ∧ (∀ c, looks_good (failure_report c) = false)
  ∧ looks_good no_uoc_report = false.
Proof.
  cbv zeta. unfold looks_good in Hgood.
  apply andb_true_iff in Hgood as [Hpc Hke].
  apply Z.leb_le in Hpc, Hke.
  rewrite buildReportFromTGA_validity, buildReportFromTGA_sufficiency.
  cbn [status score].
  set (pc := percentage (performanceCriteria
                (coverage (buildReportFromTGA assessmentText tgaPayload)))) in *.
  set (ke := percentage (knowledge
                (coverage (buildReportFromTGA assessmentText tgaPayload)))) in *.
  assert (Hs : (88 ≤ sufficiency_score pc ke)%Z).
  { change 88%Z with (sufficiency_score 90 85). by apply sufficiency_score_mono. }
  split.
  { unfold validity_status. destruct (Z.leb_spec 85 pc); [done | lia]. }
  split; [exact Hs|]. split; [|by split].
  unfold sufficiency_status.
  destruct (Z.leb_spec 90 (sufficiency_score pc ke)); [done|].
  destruct (Z.leb_spec 75 (sufficiency_score pc ke)); [done | lia].
Qed.

(** X8 at a text that evidences all of MARN008. *)
Lemma looks_good_statuses_witness :
  looks_good
    (buildReportFromTGA
       "Maintain safe deck practices. Perform mooring operations. Basic seamanship terminology."
       marn008_payload) = true
  ∧ status (validity (rulesOfEvidence
      (buildReportFromTGA
         "Maintain safe deck practices. Perform mooring operations. Basic seamanship terminology."
         marn008_payload))) = pass.
Proof.
  assert (H : looks_good
    (buildReportFromTGA
       "Maintain safe deck practices. Perform mooring operations. Basic seamanship terminology."
       marn008_payload) = true) by (vm_compute; reflexivity).
  split; [exact H|].
  exact (proj1 (looks_good_statuses _ marn008_payload H)).
Defined.

(** ** The selection after any run of the handlers *)

Lemma allSettled_length outcomes order results' :
  allSettled outcomes order = Some results' → length results' = length outcomes.
Proof.
  unfold allSettled. intros H. apply length_mapM in H.
  by rewrite fold_settle_length, length_replicate in H.
Qed.

Lemma validate_selection (fetchUoc : string → Settled) (order : list nat) (s : AppState) :
  (detectedUoCs s = [] →
     activeReportIdx s = 0%nat ∧ (length (reports s) ≤ 1)%nat) →
  (reports s ≠ [] → (activeReportIdx s < length (reports s))%nat) →
  let s' := validate fetchUoc order s in
  detectedUoCs s' = detectedUoCs s
  ∧ (detectedUoCs s = [] →
       activeReportIdx s' = 0%nat ∧ (length (reports s') ≤ 1)%nat)
  ∧ (reports s' ≠ [] → (activeReportIdx s' < length (reports s'))%nat).
Proof.
  intros H1 H3. cbv zeta. unfold validate.
  destruct (decide (length (detectedUoCs s) = 0%nat)) as [He|Hne].
  - apply length_zero_iff_nil in He. destruct (H1 He) as [Hi _].
    cbn [detectedUoCs reports activeReportIdx setReports setActiveTab].
    rewrite Hi. repeat split; simpl; lia.
  - assert (Hd : detectedUoCs s ≠ []) by (by destruct (detectedUoCs s)).
    cbn [detectedUoCs setActiveTab setIsProcessing].
    destruct (allSettled (fetchUoc <$> detectedUoCs s) order) as [results'|] eqn:Ha.
    + apply allSettled_length in Ha. rewrite length_fmap in Ha.
      cbn [detectedUoCs reports activeReportIdx setReports setActiveTab
           setIsProcessing setActiveReportIdx].
      rewrite length_imap, Ha. repeat split; try done. intros _. lia.
    + cbn [detectedUoCs reports activeReportIdx setActiveTab setIsProcessing].
      repeat split; done.
Qed.

Lemma handle_step_invariant (st : Step) (x x' : Session) :
  selection_invariant x →
  (starts_upload st → pending (world x) = 0%nat) →
  (uses_file_input st → validating x = None) →
  handle_step st x = Some x' → selection_invariant x'.
Proof.
  intros (H1 & H2 & H3 & H4 & H5) Hstart Hfile Hstep. unfold selection_invariant.
  destruct x as [w v]. cbn [world validating] in *.
  destruct st as [[file|detected text|fetchUoc order|idx|tab]| |status body| | |fetchUoc order];
    cbn [handle_step handle world validating] in Hstep.
  - destruct (decide _); [|done]. injection Hstep as <-.
    rewrite (Hstart I), (Hfile I). simpl. repeat split; done || lia.
  - destruct (pending w) as [|n] eqn:Hp; [done|]. injection Hstep as <-. simpl.
    assert (Hd : detectedUoCs (app w) = []) by (apply H2; lia).
    destruct (H1 Hd) as [Hi Hl].
    split; [by intros _|]. split; [intros; lia|]. split; [exact H3|].
    split; [lia|]. intros t c Hv. destruct (H5 t c Hv) as (_ & _ & ?). lia.
  - destruct (decide _); [|done]. injection Hstep as <-.
    destruct (validate_selection fetchUoc order (app w) H1 H3) as (Hd & H1' & H3').
    cbn [app pending world validating]. rewrite Hd.
    split; [exact H1'|]. split; [exact H2|]. split; [exact H3'|].
    split; [exact H4 | exact H5].
  - destruct (decide _) as [[_ Hidx]|]; [|done]. injection Hstep as <-. simpl.
    split; [|split; [exact H2 | split; [by intros _ | split; [exact H4 | exact H5]]]].
    intros Hd. destruct (H1 Hd) as [_ Hl]. split; [lia | done].
  - destruct (decide _); [|done]. injection Hstep as <-. simpl. done.
  - destruct (decide _); [|done]. injection Hstep as <-. rewrite (Hfile I). simpl.
    repeat split; done || lia.
  - destruct (pending w) as [|n] eqn:Hp; [done|]. injection Hstep as <-. simpl.
    split; [exact H1|]. split; [intros _; apply H2; lia|]. split; [exact H3|].
    split; [lia|]. intros t c Hv. destruct (H5 t c Hv) as (_ & _ & ?). lia.
  - destruct (pending w) as [|n] eqn:Hp; [done|]. injection Hstep as <-. simpl.
    split; [exact H1|]. split; [intros _; apply H2; lia|]. split; [exact H3|].
    split; [lia|]. intros t c Hv. destruct (H5 t c Hv) as (_ & _ & ?). lia.
  - destruct (decide _); [|done].
    destruct (decide (length (detectedUoCs (app w)) = 0%nat)) as [He|Hne];
      injection Hstep as <-.
    + apply length_zero_iff_nil in He. destruct (H1 He) as [Hi _]. simpl.
      rewrite Hi. split; [intros _; split; [done | lia]|]. split; [exact H2|].
      split; [intros _; lia|]. split; [exact H4 | exact H5].
    + assert (Hd : detectedUoCs (app w) ≠ []) by (by destruct (detectedUoCs (app w))).
      simpl. split; [exact H1|]. split; [exact H2|]. split; [exact H3|].
      split; [exact H4|]. intros t c [= <- <-]. split; [done|]. split; [done|].
      destruct (pending w) as [|n] eqn:Hp; [done|]. exfalso. apply Hd, H2. lia.
  - destruct v as [[text codes]|]; [|done].
    destruct (allSettled (fetchUoc <$> codes) order) as [results'|] eqn:Ha; [|done].
    injection Hstep as <-. destruct (H5 text codes eq_refl) as (Hc & Hne & Hp).
    apply allSettled_length in Ha. rewrite length_fmap in Ha. simpl.
    assert (length codes ≠ 0%nat) by (by destruct codes).
    rewrite length_imap, Ha.
    split; [intros Hd; by rewrite <- Hc in Hd|]. split; [exact H2|].
    split; [intros _; lia|]. split; [exact H4 | done].
Qed.

Lemma run_steps_invariant (steps : list Step) (x x' : Session) :
  selection_invariant x → one_at_a_time steps x →
  run_steps steps x = Some x' → selection_invariant x'.
Proof.
  revert x. induction steps as [|st steps IH]; intros x Hinv Hone Hrun.
  - by injection Hrun as <-.
  - cbn [run_steps] in Hrun. destruct Hone as (Hstart & Hfile & Hone).
    destruct (handle_step st x) as [x1|] eqn:Hstep; [|done].
    apply (IH x1); [|done..].
    by apply (handle_step_invariant st x).
Qed.

(** A call of [validate] that nothing interrupts: its two steps are
    [validate] run to its end. *)
Lemma validate_in_two_steps (fetchUoc : string → Settled) (order : list nat)
    (w : World) (results' : list Settled) :
  activeTab (app w) = upload ∧ is_Some (assessmentFile (app w))
  ∧ isProcessing (app w) = false →
  allSettled (fetchUoc <$> detectedUoCs (app w)) order = Some results' →
  detectedUoCs (app w) ≠ [] →
  run_steps [ValidateStart; LookupsDone fetchUoc order] {| world := w; validating := None |}
  = Some {| world := {| app := validate fetchUoc order (app w); pending := pending w |};
            validating := None |}.
Proof.
  intros Hguard Hall Hne. cbn [run_steps handle_step world validating].
  rewrite decide_True by done.
  assert (Hlen : length (detectedUoCs (app w)) ≠ 0%nat) by (by destruct (detectedUoCs (app w))).
  rewrite decide_False by done. cbn [mbind option_bind validating world app pending].
  rewrite Hall. unfold validate. rewrite decide_False by done. by rewrite Hall.
Qed.

(** X9: when a file is chosen only while no extraction request is pending,
    and the file input is used only while no call of [validate] waits for
    its lookups, then after any run of the handlers from the initial state
    (uploads that succeed, are refused or fail, validations that start and
    that resume, selections, tab changes) the selection index is an index
    of the report collection whenever the collection is not empty. *)
Theorem selection_valid_one_upload_at_a_time (steps : list Step) (x : Session)
    (Hrun : run_steps steps initial_session = Some x)
    (Hone : one_at_a_time steps initial_session) :
  reports (app (world x)) ≠ [] →
  is_Some (reports (app (world x)) !! activeReportIdx (app (world x))).
Proof.
  intros Hne.
  assert (Hinit : selection_invariant initial_session).
  { unfold selection_invariant. simpl. repeat split; done || lia. }
  destruct (run_steps_invariant steps initial_session x Hinit Hone Hrun)
    as (_ & _ & H3 & _).
  apply lookup_lt_is_Some_2, H3, Hne.
Qed.

(** X9 at a run with a validated file, a selection, and a refused second
    file. *)
Lemma selection_valid_one_upload_at_a_time_witness :
  ∃ x, run_steps patient_run initial_session = Some x
       ∧ one_at_a_time patient_run initial_session
       ∧ reports (app (world x)) ≠ []
       ∧ is_Some (reports (app (world x)) !! activeReportIdx (app (world x))).
Proof.
  assert (Hrun : ∃ x, run_steps patient_run initial_session = Some x
                      ∧ reports (app (world x)) ≠ []).
  { eexists. split; [vm_compute; reflexivity | discriminate]. }
  destruct Hrun as (x & Hrun & Hne).
  assert (Hone : one_at_a_time patient_run initial_session).
  { vm_compute. repeat split; intros; reflexivity || contradiction. }
  exists x. split; [exact Hrun|]. split; [exact Hone|]. split; [exact Hne|].
  exact (selection_valid_one_upload_at_a_time patient_run x Hrun Hone Hne).
Defined.

(** The condition on the file input is needed: when a second file is chosen
    while the validation of the first waits, the validation resumes with the
    codes of the first file, and a later Validate without codes leaves one
    report and the selection on index 1. *)
Example impatient_run_selection :
  ∃ x, run_steps impatient_run initial_session = Some x
       ∧ length (reports (app (world x))) = 1%nat
       ∧ activeReportIdx (app (world x)) = 1%nat
       ∧ ¬ one_at_a_time impatient_run initial_session.
Proof.
  eexists. split; [vm_compute; reflexivity|]. split; [reflexivity|].
  split; [reflexivity|]. vm_compute.
  intros (_ & _ & _ & _ & _ & _ & _ & _ & (_ & Hv & _)). by specialize (Hv I).
Qed.

(** ** A refused upload *)

Lemma truthy_not_empty (v : option string) :
  truthy v = true → ∃ s, v = Some s ∧ s ≠ "".
Proof.
  destruct v as [s|]; [|done]. simpl. intros H. exists s. split; [done|].
  intros ->. done.
Qed.






(** ** The server: unit codes in a text *)

Example findUocCandidates_sample :
  Server.findUocCandidates
    (Some "Units marn008 and MARJ006 (see COVID19 rules, ISO9001); MARN008 again, abc123456.")
  = [Server.units "MARN008"; Server.units "MARJ006"].
Proof. vm_compute. reflexivity. Qed.

(** The sharp s (code unit 223) becomes SS in upper case. *)
Example findUocCandidates_sharp_s :
  Server.findUocCandidates (Some (String "m" (String "a" (String "223" "12"))))
  = [Server.units "MASS12"].
Proof. vm_compute. reflexivity. Qed.

Import Server.

(** What a quantified class matches: [j] code units of the class, within
    the bounds, and then what follows. *)
Lemma rep_sound (P : N → bool) (k : Continuation) (s : jsstring) :
  ∀ min max prev n r,
    rep P min max k prev s n = Some r →
    ∃ j prev',
      (min ≤ j ≤ length s)%nat
      ∧ (∀ m, max = Some m → j ≤ m)%nat
      ∧ Forall (λ c, P c = true) (take j s)
      ∧ k prev' (drop j s) (n + j)%nat = Some r.
Proof.
  assert (Hstop : ∀ min max prev n r (s : jsstring),
    match min with O => k prev s n | S _ => None end = Some r →
    ∃ j prev', (min ≤ j ≤ length s)%nat
      ∧ (∀ m, max = Some m → j ≤ m)%nat
      ∧ Forall (λ c, P c = true) (take j s)
      ∧ k prev' (drop j s) (n + j)%nat = Some r).
  { intros min max prev n r s' Hk. destruct min; [|done].
    exists 0%nat, prev. rewrite Nat.add_0_r.
    split; [lia|]. split; [intros; lia|]. split; [constructor | done]. }
  induction s as [|c s IH]; intros min max prev n r H; cbn [rep] in H.
  - by apply (Hstop min max prev).
  - destruct (P c && match max with Some O => false | _ => true end) eqn:Hc;
      [|by apply (Hstop min max prev)].
    apply andb_true_iff in Hc as [HP Hmax].
    destruct (rep P (pred min) (pred <$> max) k (Some c) s (S n)) as [r'|] eqn:Hrec;
      [|by apply (Hstop min max prev)].
    injection H as ->.
    apply IH in Hrec as (j & prev' & Hj & Hm & Hall & Hk).
    exists (S j), prev'.
    split; [simpl; lia|]. split.
    { intros m ->. destruct m; [done|]. specialize (Hm m eq_refl). lia. }
    split; [simpl; by constructor|].
    simpl. by rewrite <- Nat.add_succ_comm.
Qed.

Lemma boundary_sound (k : Continuation) prev s n r :
  boundary k prev s n = Some r → at_boundary prev s = true ∧ k prev s n = Some r.
Proof. unfold boundary. by destruct (at_boundary prev s). Qed.

(** A match is a unit code, and lies within the input. *)
Lemma match_here_sound (prev : option N) (s : jsstring) (len : nat) :
  match_here prev s = Some len →
  (len ≤ length s)%nat ∧ uoc_shape (take len s).
Proof.
  unfold match_here. intros H.
  apply boundary_sound in H as [_ H].
  apply rep_sound in H as (j1 & p1 & Hj1 & Hm1 & Hall1 & H).
  apply rep_sound in H as (j2 & p2 & Hj2 & Hm2 & Hall2 & H).
  apply rep_sound in H as (j3 & p3 & Hj3 & Hm3 & Hall3 & H).
  apply boundary_sound in H as [_ H]. injection H as <-.
  rewrite !length_drop in *. specialize (Hm3 4%nat eq_refl).
  split; [lia|].
  exists (take (j1 + j2) s), (take j3 (drop (j1 + j2) s)).
  split; [|split; [|split; [|split]]].
  - simpl. rewrite <- (take_drop (j1 + j2) (take (j1 + j2 + j3) s)) at 1.
    rewrite take_take, skipn_firstn_comm.
    f_equal; f_equal; lia.
  - rewrite <- (take_drop j1 (take (j1 + j2) s)).
    apply Forall_app. split.
    + rewrite take_take. by replace (j1 `min` (j1 + j2))%nat with j1 by lia.
    + rewrite skipn_firstn_comm. by replace (j1 + j2 - j1)%nat with j2 by lia.
  - rewrite length_take. lia.
  - by rewrite <- drop_drop.
  - rewrite length_take, length_drop. lia.
Qed.

Lemma uoc_shape_tests (code : jsstring) :
  uoc_shape code → test is_upper code = true ∧ test is_digit code = true.
Proof.
  intros (letters & digits & -> & Hl & Hnl & Hd & Hnd).
  unfold test. rewrite !existsb_app. split.
  - destruct letters as [|c letters]; [simpl in Hnl; lia|].
    inversion Hl; subst. simpl. by rewrite H1.
  - destruct digits as [|c digits]; [simpl in Hnd; lia|].
    inversion Hd; subst. simpl. rewrite H1. apply orb_true_r.
Qed.

Lemma uoc_shape_not_nil : ¬ uoc_shape [].
Proof.
  intros (letters & digits & H & _ & Hn & _).
  symmetry in H. apply app_eq_nil in H as [-> _]. simpl in Hn. lia.
Qed.

Lemma match_here_nil (prev : option N) : match_here prev [] = None.
Proof.
  destruct (match_here prev []) as [len|] eqn:H; [|done].
  apply match_here_sound in H as [_ H]. rewrite take_nil in H.
  by apply uoc_shape_not_nil in H.
Qed.

Lemma matchAll_from_sound (s : jsstring) :
  ∀ skip prev, Forall uoc_shape (matchAll_from skip prev s).
Proof.
  induction s as [|c s IH]; intros skip prev; cbn [matchAll_from].
  - rewrite match_here_nil. by destruct skip.
  - destruct skip as [|k]; [|apply IH].
    destruct (match_here prev (c :: s)) as [len|] eqn:H; [|apply IH].
    constructor; [|apply IH]. by apply match_here_sound in H as [_ H].
Qed.

Lemma elem_of_add (code x : jsstring) (hits : list jsstring) :
  x ∈ add code hits ↔ x ∈ hits ∨ x = code.
Proof.
  unfold add. destruct (decide (code ∈ hits)) as [Hin|Hin].
  - split; [by left | intros [?| ->]; done].
  - rewrite elem_of_app, list_elem_of_singleton. done.
Qed.

Lemma NoDup_add (code : jsstring) (hits : list jsstring) :
  NoDup hits → NoDup (add code hits).
Proof.
  intros H. unfold add. destruct (decide (code ∈ hits)) as [Hin|Hin]; [done|].
  apply NoDup_app. split; [done|]. split; [|apply NoDup_singleton].
  intros x Hx Hc. apply list_elem_of_singleton in Hc as ->. done.
Qed.

(** The loop keeps the matches that are not blacklisted, each once. *)
Lemma fold_collect (matches hits : list jsstring) :
  Forall uoc_shape matches → NoDup hits →
  NoDup (fold_left collect matches hits)
  ∧ ∀ code, code ∈ fold_left collect matches hits
            ↔ code ∈ hits ∨ (code ∈ matches ∧ code ∉ BLACKLIST).
Proof.
  revert hits. induction matches as [|m matches IH]; intros hits Hall Hnd; simpl.
  - split; [done|]. intros code. rewrite elem_of_nil. tauto.
  - inversion Hall as [|? ? Hm Hall']; subst.
    destruct (uoc_shape_tests m Hm) as [Hu Hd].
    assert (Hc : collect hits m = if decide (m ∈ BLACKLIST) then hits else add m hits).
    { unfold collect. rewrite Hu, Hd, !andb_true_r.
      by destruct (decide (m ∈ BLACKLIST)) as [Hb|Hb];
        [rewrite bool_decide_eq_true_2 | rewrite bool_decide_eq_false_2]. }
    rewrite Hc. destruct (decide (m ∈ BLACKLIST)) as [Hb|Hb].
    + destruct (IH hits Hall' Hnd) as [Hn Hiff]. split; [done|].
      intros code. rewrite Hiff, elem_of_cons. split.
      * intros [?|[? ?]]; [by left | right; split; [by right | done]].
      * intros [?|[[->|?] ?]]; [by left | done | right; by split].
    + destruct (IH (add m hits) Hall' (NoDup_add m hits Hnd)) as [Hn Hiff].
      split; [done|]. intros code. rewrite Hiff, elem_of_add, elem_of_cons. split.
      * intros [[?| ->]|[? ?]];
          [by left | right; split; [by left | done] | right; split; [by right | done]].
      * intros [?|[[->|?] ?]]; [left; by left | left; by right | right; by split].
Qed.

Lemma findUocCandidates_set_iff (t : string) (code : jsstring) :
  code ∈ findUocCandidates (Some t)
  ↔ t ≠ "" ∧ code ∈ matchAll (toUpperCase t) ∧ code ∉ BLACKLIST.
Proof.
  unfold findUocCandidates. destruct (decide (t = "")) as [->|Hne].
  - rewrite elem_of_nil. tauto.
  - pose proof (matchAll_from_sound (toUpperCase t) 0 None) as Hm.
    destruct (fold_collect (matchAll (toUpperCase t)) [] Hm (NoDup_nil_2)) as [Hn Hiff].
    rewrite Hiff, elem_of_nil. tauto.
Qed.

(** X11: every code that [findUocCandidates] returns is made of three or
    more letters A-Z followed by two to four digits, whatever the text. *)
Theorem findUocCandidates_shape (text : option string) :
  Forall uoc_shape (findUocCandidates text).
Proof.
  destruct text as [t|]; [|constructor]. unfold findUocCandidates.
  destruct (decide (t = "")); [constructor|].
  pose proof (matchAll_from_sound (toUpperCase t) 0 None) as Hm.
  destruct (fold_collect (matchAll (toUpperCase t)) [] Hm (NoDup_nil_2)) as [_ Hiff].
  apply Forall_forall. intros code Hc. apply Hiff in Hc as [Hc|[Hc _]].
  - by apply elem_of_nil in Hc.
  - rewrite Forall_forall in Hm. by apply Hm.
Qed.

(** X12: the codes that [findUocCandidates] returns are the matches of the
    pattern in the upper-cased text that are not blacklisted, each listed
    once; an absent or empty text gives none. *)
Theorem findUocCandidates_set (t : string) :
  NoDup (findUocCandidates (Some t))
  ∧ (∀ code, code ∈ findUocCandidates (Some t)
             ↔ t ≠ "" ∧ code ∈ matchAll (toUpperCase t) ∧ code ∉ BLACKLIST)
  ∧ findUocCandidates None = [] ∧ findUocCandidates (Some "") = [].
Proof.
  unfold findUocCandidates. destruct (decide (t = "")) as [->|Hne].
  - split; [constructor|]. split; [|done]. intros code. rewrite elem_of_nil. tauto.
  - pose proof (matchAll_from_sound (toUpperCase t) 0 None) as Hm.
    destruct (fold_collect (matchAll (toUpperCase t)) [] Hm (NoDup_nil_2)) as [Hn Hiff].
    split; [done|]. split; [|done]. intros code. rewrite Hiff, elem_of_nil. tauto.
Qed.

(** ** Every unit code that stands as a word is found *)

Lemma prev_after_cons prev x xs : prev_after prev (x :: xs) = prev_after (Some x) xs.
Proof. unfold prev_after. rewrite last_cons. by destruct (last xs). Qed.

(** The greedy choice: when [xs] is all that the quantifier can take and
    the rest of the pattern matches after it, that is the match. *)
Lemma rep_greedy (P : N → bool) (k : Continuation) (xs rest : jsstring) :
  ∀ min max prev n r,
    Forall (λ c, P c = true) xs → (min ≤ length xs)%nat →
    (∀ m, max = Some m → length xs ≤ m)%nat →
    max = Some (length xs) ∨ from_option P false (head rest) = false →
    k (prev_after prev xs) rest (n + length xs)%nat = Some r →
    rep P min max k prev (xs ++ rest) n = Some r.
Proof.
  induction xs as [|x xs IH]; intros min max prev n r Hall Hmin Hmax Hstop Hk.
  - simpl in *. rewrite Nat.add_0_r in Hk. assert (min = 0%nat) as -> by lia.
    destruct rest as [|c rest]; cbn [rep]; [done|].
    destruct Hstop as [->|Hc]; [rewrite andb_false_r; exact Hk|].
    simpl in Hc. rewrite Hc. exact Hk.
  - inversion Hall as [|? ? Hx Hall']; subst.
    change ((x :: xs) ++ rest) with (x :: (xs ++ rest)). cbn [rep]. rewrite Hx.
    assert (Hm : match max with Some O => false | _ => true end = true).
    { destruct max as [[|m]|]; [|done..]. specialize (Hmax 0%nat eq_refl).
      simpl in Hmax. lia. }
    rewrite Hm. cbn [andb].
    rewrite (IH (pred min) (pred <$> max) (Some x) (S n) r); [done|done|..].
    + simpl in Hmin. lia.
    + intros m Hm'. destruct max as [m0|]; [|done]. injection Hm' as <-.
      specialize (Hmax m0 eq_refl). simpl in Hmax. lia.
    + destruct Hstop as [->|?]; [left; done | by right].
    + rewrite <- (prev_after_cons prev). simpl in Hk. by rewrite Nat.add_succ_comm.
Qed.

Lemma is_upper_word c : is_upper c = true → is_word c = true.
Proof. unfold is_word. intros ->. done. Qed.

Lemma is_digit_word c : is_digit c = true → is_word c = true.
Proof. unfold is_word. intros ->. by rewrite !orb_true_r. Qed.

Lemma upper_not_digit c : is_digit c = true → is_upper c = false.
Proof.
  unfold is_digit, is_upper. rewrite andb_true_iff, andb_false_iff, !N.leb_le, !N.leb_gt.
  lia.
Qed.

Lemma uoc_shape_word (code : jsstring) :
  uoc_shape code → Forall (λ c, is_word c = true) code.
Proof.
  intros (letters & digits & -> & Hl & _ & Hd & _). apply Forall_app. split.
  - eapply Forall_impl; [exact Hl|]. apply is_upper_word.
  - eapply Forall_impl; [exact Hd|]. apply is_digit_word.
Qed.

(** The pattern matches a unit code that stands between two positions
    where no word goes on. *)
Lemma match_here_complete (prev : option N) (code post : jsstring) :
  uoc_shape code → not_word prev → not_word (head post) →
  match_here prev (code ++ post) = Some (length code).
Proof.
  intros (letters & digits & -> & Hl & Hnl & Hd & Hnd) Hprev Hpost.
  unfold not_word in *.
  destruct letters as [|l0 letters]; [simpl in Hnl; lia|].
  destruct digits as [|d0 digits]; [simpl in Hnd; lia|].
  assert (Hl0 : is_upper l0 = true) by (by inversion Hl).
  assert (Hd0 : is_digit d0 = true) by (by inversion Hd).
  unfold match_here, boundary at 1.
  assert (at_boundary prev (((l0 :: letters) ++ d0 :: digits) ++ post) = true) as ->.
  { unfold at_boundary. simpl. by rewrite Hprev, (is_upper_word l0 Hl0). }
  set (ls := l0 :: letters) in *. set (ds := d0 :: digits) in *.
  rewrite <- (take_drop 10 ls), <- !app_assoc.
  apply rep_greedy.
  - by apply Forall_take.
  - rewrite length_take. lia.
  - intros m [= <-]. rewrite length_take. lia.
  - rewrite length_take. destruct (decide (10 ≤ length ls)%nat) as [Hge|Hlt].
    + left. f_equal. lia.
    + right. rewrite drop_ge by lia. simpl. by apply upper_not_digit.
  - apply rep_greedy.
    + by apply Forall_drop.
    + lia.
    + done.
    + right. simpl. by apply upper_not_digit.
    + apply rep_greedy.
      * done.
      * lia.
      * intros m [= <-]. lia.
      * right. destruct post as [|p post]; [done|]. simpl in *.
        destruct (is_digit p) eqn:Hp; [|done].
        apply is_digit_word in Hp. congruence.
      * unfold boundary.
        assert (at_boundary
                  (prev_after (prev_after (prev_after prev (take 10 ls)) (drop 10 ls)) ds)
                  post = true) as ->.
        { unfold at_boundary. rewrite Hpost.
          assert (∃ d, prev_after (prev_after (prev_after prev (take 10 ls)) (drop 10 ls)) ds
                       = Some d ∧ is_digit d = true) as (d & -> & Hdig).
          { unfold prev_after at 1. subst ds.
            destruct (last (d0 :: digits)) as [d|] eqn:Hlast;
              [|rewrite last_cons in Hlast; by destruct (last digits)].
            exists d. split; [done|]. apply last_Some in Hlast as [l' Hl'].
            rewrite Hl' in Hd. apply Forall_app in Hd as [_ Hd]. by inversion Hd. }
          simpl. by rewrite (is_digit_word d Hdig). }
        f_equal. rewrite !length_app, length_take, length_drop. lia.
Qed.

Lemma match_here_not_upper (prev : option N) (x : N) (s : jsstring) :
  is_upper x = false → match_here prev (x :: s) = None.
Proof.
  intros Hx. destruct (match_here prev (x :: s)) as [len|] eqn:H; [|done].
  apply match_here_sound in H as [_ (letters & digits & Heq & Hl & Hn & _)].
  destruct letters as [|l letters]; [simpl in Hn; lia|].
  destruct len; [done|]. simpl in Heq. injection Heq as -> _.
  inversion Hl; subst. congruence.
Qed.

(** The search passes a stretch of text that ends where no word goes on,
    and is then at a position where it tries the pattern. *)
Lemma matchAll_from_prefix (pre : jsstring) :
  ∀ skip prev rest,
    Forall (λ c, is_word c = true) (take skip (pre ++ rest)) →
    (pre = [] → skip = 0%nat) →
    (∀ x, last pre = Some x → is_word x = false) →
    ∃ front,
      matchAll_from skip prev (pre ++ rest)
      = front ++ matchAll_from 0 (prev_after prev pre) rest.
Proof.
  induction pre as [|x pre IH]; intros skip prev rest Hskip Hnil Hlast.
  - rewrite (Hnil eq_refl). by exists [].
  - change ((x :: pre) ++ rest) with (x :: (pre ++ rest)) in *.
    rewrite prev_after_cons.
    assert (Hlast' : ∀ y, last pre = Some y → is_word y = false).
    { intros y Hy. apply Hlast. rewrite last_cons, Hy. done. }
    assert (Hx : pre = [] → is_word x = false).
    { intros ->. by apply Hlast. }
    assert (Hstep : ∀ k, Forall (λ c, is_word c = true) (take (S k) (x :: (pre ++ rest))) →
              ∃ front, matchAll_from k (Some x) (pre ++ rest)
                       = front ++ matchAll_from 0 (prev_after (Some x) pre) rest).
    { intros k Hk. simpl in Hk. inversion Hk as [|? ? Hwx Hk']; subst.
      apply IH; [done| |done].
      intros Hp. specialize (Hx Hp). congruence. }
    cbn [matchAll_from]. destruct skip as [|k]; [|by apply Hstep].
    destruct (match_here prev (x :: (pre ++ rest))) as [len|] eqn:Hm.
    + pose proof Hm as Hs. apply match_here_sound in Hs as [Hlen Hshape].
      assert (len ≠ 0%nat) as Hne.
      { intros ->. by apply uoc_shape_not_nil in Hshape. }
      destruct (Hstep (len - 1)%nat) as [front Hfront].
      { replace (S (len - 1)) with len by lia. by apply uoc_shape_word. }
      exists (take len (x :: (pre ++ rest)) :: front). by rewrite Hfront.
    + destruct (IH 0%nat (Some x) rest) as [front Hfront]; [constructor|done|done|].
      by exists front.
Qed.

(** X13: a unit code that stands in the upper-cased text as a word of its
    own (what is before it, if anything, ends with a code unit that is not
    a word character, what is after it begins with one) and is not
    blacklisted is among the codes that [findUocCandidates] returns,
    however many letters it has. *)
Theorem findUocCandidates_complete (t : string) (pre code post : jsstring)
    (Htext : toUpperCase t = pre ++ code ++ post)
    (Hshape : uoc_shape code)
    (Hallowed : code ∉ BLACKLIST)
    (Hbefore : ∀ x, last pre = Some x → is_word x = false)
    (Hafter : ∀ x, head post = Some x → is_word x = false) :
  code ∈ findUocCandidates (Some t).
Proof.
  assert (Hne : t ≠ "").
  { intros ->. simpl in Htext. symmetry in Htext.
    apply app_eq_nil in Htext as [_ Htext]. apply app_eq_nil in Htext as [-> _].
    by apply uoc_shape_not_nil in Hshape. }
  apply findUocCandidates_set_iff. split; [done|]. split; [|done].
  unfold matchAll. rewrite Htext.
  destruct (matchAll_from_prefix pre 0 None (code ++ post)) as [front ->];
    [constructor | done | done |].
  apply elem_of_app. right.
  assert (Hprev : not_word (prev_after None pre)).
  { unfold not_word, prev_after. destruct (last pre) as [x|] eqn:Hl; [|done].
    simpl. by apply Hbefore. }
  assert (Hpost : not_word (head post)).
  { unfold not_word. destruct (head post) as [x|] eqn:Hh; [|done].
    simpl. by apply Hafter. }
  pose proof (match_here_complete _ code post Hshape Hprev Hpost) as Hm.
  destruct (code ++ post) as [|c s] eqn:Hcs.
  { apply app_eq_nil in Hcs as [-> _]. by apply uoc_shape_not_nil in Hshape. }
  cbn [matchAll_from]. rewrite Hm. rewrite <- Hcs, take_app_length. left.
Qed.

Lemma findUocCandidates_complete_witness :
  units "MARN008" ∈ findUocCandidates (Some "Unit marn008, on deck.").
Proof.
  apply (findUocCandidates_complete "Unit marn008, on deck."
           (units "UNIT ") (units "MARN008") (units ", ON DECK.")).
  - vm_compute. reflexivity.
  - exists (units "MARN"), (units "008"). vm_compute.
    repeat split; repeat constructor.
  - apply (bool_decide_unpack _). vm_compute. exact I.
  - vm_compute. intros x [= <-]. reflexivity.
  - vm_compute. intros x [= <-]. reflexivity.
Defined.

Lemma detected_shape (text : option string) (code : jsstring) :
  code ∈ findUocCandidates text → uoc_shape code.
Proof.
  destruct text as [t|]; [|by intros ?%elem_of_nil].
  intros (_ & Hm & _)%findUocCandidates_set_iff.
  pose proof (matchAll_from_sound (toUpperCase t) 0 None) as Hall.
  rewrite Forall_forall in Hall. by apply Hall.
Qed.

(** ** The server: the payload of a unit *)

Lemma MOCKS_entries :
  Forall (λ e : jsstring * Mock,
    mock_code e.2 = e.1 ∧ mock_title e.2 ≠ []
    ∧ Forall (λ c, pcCode c ≠ [] ∧ description c ≠ []) (mock_elementsAndPC e.2)
    ∧ Forall (λ t, t ≠ []) (mock_knowledgeEvidence e.2)) MOCKS.
Proof. repeat constructor; discriminate. Qed.

Lemma mock_payload_answer (code : jsstring) :
  code ≠ [] → answer_for code (mock_payload code).
Proof.
  intros Hcode. unfold answer_for, usable, mock_payload, MOCKS_lookup.
  destruct (list_find _ MOCKS) as [[i e]|] eqn:Hfind; cbn [fmap option_fmap option_map default].
  - apply list_find_Some in Hfind as (Hi & He & _).
    pose proof (proj1 (Forall_lookup _ _) MOCKS_entries i e Hi) as (Hc & Ht & Hp & Hk).
    cbn in *. rewrite Hc. auto 6.
  - cbn. split; [done|]. split; [by destruct code|].
    split; [|by right]. split; repeat constructor; discriminate.
Qed.

Lemma pc_of_row_usable (cols : list jsstring) :
  Forall (λ e, pcCode e ≠ [] ∧ description e ≠ []) (pc_of_row cols).
Proof.
  destruct cols as [|c0 [|c1 cols]]; cbn; try constructor.
  destruct (decide _) as [[H0 H1]|_]; repeat constructor; done.
Qed.

Lemma fetchFromTGA_answer (page : option Page) (code : jsstring) (p : Payload) :
  fetchFromTGA page code = Some p → answer_for code p.
Proof.
  unfold fetchFromTGA. intros H.
  destruct (encodeURIComponent code) as [encoded|]; [|done].
  destruct page as [pg|]; [|done]. cbn in H.
  destruct (decide (status pg ≠ 200%N)); [done|].
  destruct (decide (trim (h1 pg) = [])) as [|Htitle]; [done|].
  injection H as <-. unfold answer_for, usable; cbn.
  split; [done|]. split; [done|]. split; [|by left]. split.
  - apply Forall_bind, Forall_forall. intros cols _. apply pc_of_row_usable.
  - apply Forall_forall. intros t Ht. by apply list_elem_of_filter in Ht as [Ht _].
Qed.

Lemma fetchFromTGA_source (page : option Page) (code : jsstring) (p : Payload) :
  fetchFromTGA page code = Some p → source p = units "tga".
Proof.
  unfold fetchFromTGA. intros H.
  destruct (encodeURIComponent code); [|done]. destruct page as [pg|]; [|done].
  cbn in H. repeat destruct (decide _); try done. by injection H as <-.
Qed.

(** The bytes of the address: a string of letters, digits and marks stands
    for itself. *)
Lemma encodeURIComponent_unreserved (s : jsstring) :
  Forall (λ c, unreserved c = true) s → encodeURIComponent s = Some s.
Proof.
  induction 1 as [|c s Hc _ IH]; [done|]. cbn [encodeURIComponent].
  by rewrite Hc, IH.
Qed.

Lemma uoc_shape_unreserved (code : jsstring) :
  uoc_shape code → Forall (λ c, unreserved c = true) code.
Proof.
  intros (letters & digits & -> & Hl & _ & Hd & _). apply Forall_app. split.
  - eapply Forall_impl; [exact Hl|]. intros c Hc. unfold unreserved. by rewrite Hc.
  - eapply Forall_impl; [exact Hd|]. intros c Hc. unfold unreserved.
    rewrite Hc. by rewrite orb_true_r.
Qed.

(** A code without surrogates has an address. *)
Lemma encodeURIComponent_total (s : jsstring) :
  Forall (λ c, (c < 0xD800)%N) s → is_Some (encodeURIComponent s).
Proof.
  induction 1 as [|c s Hc _ [e IH]]; [by eexists|]. cbn [encodeURIComponent].
  rewrite IH.
  assert (is_low_surrogate c = false) as ->.
  { unfold is_low_surrogate. apply andb_false_iff. left. apply N.leb_gt. lia. }
  assert (is_high_surrogate c = false) as ->.
  { unfold is_high_surrogate. apply andb_false_iff. left. apply N.leb_gt. lia. }
  destruct (unreserved c); by eexists.
Qed.

Lemma units_bound (t : string) : Forall (λ c, (c < 256)%N) (units t).
Proof.
  unfold units. apply Forall_fmap, Forall_forall. intros a _. cbn.
  apply N_ascii_bounded.
Qed.

Lemma upper_unit_bound (c : N) : (c < 256)%N → Forall (λ u, (u < 0xD800)%N) (upper_unit c).
Proof.
  intros Hc. unfold upper_unit.
  repeat match goal with |- context [if ?b then _ else _] => destruct b end;
    repeat constructor; lia.
Qed.

Lemma toUpperCase_bound (t : string) : Forall (λ u, (u < 0xD800)%N) (toUpperCase t).
Proof.
  unfold toUpperCase. apply Forall_bind. eapply Forall_impl; [apply units_bound|].
  intros c Hc. by apply upper_unit_bound.
Qed.

Lemma fetchFromTGA_fails (page : option Page) (t : string) :
  fetchFromTGA page (toUpperCase t) = None
  ↔ page = None ∨ ∃ pg, page = Some pg ∧ (status pg ≠ 200%N ∨ trim (h1 pg) = []).
Proof.
  unfold fetchFromTGA.
  destruct (encodeURIComponent_total _ (toUpperCase_bound t)) as [e ->].
  destruct page as [pg|]; cbn; [|by split; [left|]].
  destruct (decide (status pg ≠ 200%N)) as [Hs|Hs].
  { split; [|done]. intros _. right. exists pg. auto. }
  destruct (decide (trim (h1 pg) = [])) as [Ht|Ht].
  { split; [|done]. intros _. right. exists pg. auto. }
  split; [done|]. intros [?|(pg' & [= <-] & [?|?])]; done.
Qed.

Lemma fetchFromTGA_url (page : option Page) (code : jsstring) (p : Payload) :
  uoc_shape code → fetchFromTGA page code = Some p → url p = details_url ++ code.
Proof.
  intros Hshape. unfold fetchFromTGA.
  rewrite (encodeURIComponent_unreserved code (uoc_shape_unreserved code Hshape)).
  destruct page as [pg|]; [|done]. cbn.
  repeat destruct (decide _); try done. by intros [= <-].
Qed.

Lemma toUpperCase_upper (raw : string) :
  Forall (λ c, unreserved c = true ∧ upper_unit c = [c]) (units raw) →
  toUpperCase raw = units raw.
Proof.
  unfold toUpperCase. induction 1 as [|c s [_ Hc] _ IH]; [done|].
  cbn. by rewrite Hc, IH.
Qed.

Ltac bounds :=
  repeat match goal with
         | H : (_ && _) = true |- _ => apply andb_true_iff in H as [? ?]
         | H : (_ || _) = true |- _ => apply orb_true_iff in H as [?|?]
         | H : (_ <=? _)%N = true |- _ => apply N.leb_le in H
         | H : (_ =? _)%N = true |- _ => apply N.eqb_eq in H
         | H : negb _ = true |- _ => apply negb_true_iff in H
         end.

Lemma uoc_shape_upper (code : jsstring) :
  uoc_shape code → Forall (λ c, unreserved c = true ∧ upper_unit c = [c]) code.
Proof.
  intros Hshape. pose proof (uoc_shape_unreserved code Hshape) as Hun.
  destruct Hshape as (letters & digits & -> & Hl & _ & Hd & _).
  apply Forall_app in Hun as [Hul Hud]. apply Forall_app. split.
  - apply Forall_forall. intros c Hc. rewrite !Forall_forall in *.
    split; [by apply Hul|]. specialize (Hl c Hc). revert Hl.
    unfold is_upper, upper_unit. intros Hl.
    apply andb_true_iff in Hl as [H1%N.leb_le H2%N.leb_le].
    repeat match goal with |- context [if ?b then _ else _] => destruct b eqn:? end;
      try done; bounds; lia.
  - apply Forall_forall. intros c Hc. rewrite !Forall_forall in *.
    split; [by apply Hud|]. specialize (Hd c Hc). revert Hd.
    unfold is_digit, upper_unit. intros Hd.
    apply andb_true_iff in Hd as [H1%N.leb_le H2%N.leb_le].
    repeat match goal with |- context [if ?b then _ else _] => destruct b eqn:? end;
      try done; bounds; lia.
Qed.

(** What a lookup that asked the registry answers. *)
Lemma finish_good (page : option Page) (code : jsstring) :
  code ≠ [] → good_answer (code, default (mock_payload code) (fetchFromTGA page code)).
Proof.
  intros Hcode. unfold good_answer. cbn [fst snd].
  destruct (fetchFromTGA page code) as [live|] eqn:Hlive; cbn [default from_option id].
  - split; [by eapply fetchFromTGA_answer|]. intros Hshape. by eapply fetchFromTGA_url.
  - split; [by apply mock_payload_answer|]. done.
Qed.

Lemma server_step_invariant (s : ServerState) (e : ServerEvent) :
  server_invariant s →
  server_invariant (server_step s e).1 ∧ Forall good_answer (server_step s e).2.
Proof.
  intros [Hcache Hwaiting]. destruct e as [codeRaw|i page]; cbn [server_step].
  - destruct (decide _) as [|Hcode]; [by split|].
    destruct (cache s !! _) as [hit|] eqn:Hhit.
    { split; [by split|]. apply Forall_singleton. by apply (Hcache _ _ Hhit). }
    destruct (encodeURIComponent _) as [encoded|] eqn:Henc; cbn [fst snd].
    + split; [|constructor]. split; [done|]. cbn [waiting].
      apply Forall_app. split; [done|]. by apply Forall_singleton.
    + pose proof (finish_good None _ Hcode) as Hgood.
      unfold fetchFromTGA in Hgood. rewrite Henc in Hgood.
      change (default _ (None ≫= _)) with
        (mock_payload (toUpperCase (default "" codeRaw))) in Hgood.
      split; [|by apply Forall_singleton]. split; [|done]. cbn [cache].
      by apply map_Forall_insert_2.
  - destruct (waiting s !! i) as [code|] eqn:Hi; [|by split].
    assert (Hcode : code ≠ []).
    { rewrite Forall_forall in Hwaiting. apply Hwaiting. by eapply list_elem_of_lookup_2. }
    pose proof (finish_good page code Hcode) as Hgood. cbn [fst snd].
    split; [|by apply Forall_singleton]. split; cbn [cache waiting].
    + by apply map_Forall_insert_2.
    + by apply Forall_delete.
Qed.

Lemma server_run_invariant (events : list ServerEvent) (s : ServerState) :
  server_invariant s →
  server_invariant (server_run events s).1 ∧ Forall good_answer (server_run events s).2.
Proof.
  revert s. induction events as [|e events IH]; intros s Hs; cbn [server_run fst snd].
  - by split.
  - destruct (server_step_invariant s e Hs) as [Hs1 Ha1].
    destruct (IH _ Hs1) as [Hs2 Ha2]. split; [done|]. by apply Forall_app.
Qed.

Lemma server_start_invariant : server_invariant server_start.
Proof. split; [apply map_Forall_empty | constructor]. Qed.

(** X14: whatever requests arrive and however their lookups overlap, every
    answer of [getUocPayload] is a payload of the code asked for, in upper
    case, with a title, whose performance criteria all have a code and a
    description and whose knowledge items all have a text, from the registry
    or from the mocks; the link of a unit code is the address of the registry
    followed by the code. *)
Theorem every_answer_is_good (events : list ServerEvent) :
  Forall good_answer (server_run events server_start).2.
Proof. apply server_run_invariant, server_start_invariant. Qed.

Lemma server_step_settled (s : ServerState) (e : ServerEvent) (code : jsstring)
    (p : Payload) :
  cache s !! code = Some p → code ∉ waiting s →
  (cache (server_step s e).1) !! code = Some p
  ∧ (code ∉ waiting (server_step s e).1)
  ∧ Forall (λ a, a.1 = code → a.2 = p) (server_step s e).2.
Proof.
  intros Hin Hidle. destruct e as [codeRaw|i page]; cbn [server_step].
  - destruct (decide _) as [|Hcode]; [by repeat split|].
    destruct (cache s !! toUpperCase _) as [hit|] eqn:Hhit.
    { repeat split; try done. apply Forall_singleton. cbn. intros <-. congruence. }
    assert (Hother : toUpperCase (default "" codeRaw) ≠ code) by congruence.
    destruct (encodeURIComponent _); cbn [fst snd cache waiting].
    + repeat split; [done| |constructor].
      rewrite elem_of_app, list_elem_of_singleton. intros [?|?]; done.
    + repeat split; [by rewrite lookup_insert_ne|done|].
      apply Forall_singleton. cbn. done.
  - destruct (waiting s !! i) as [c|] eqn:Hi; [|by repeat split].
    assert (Hother : c ≠ code).
    { intros ->. by apply Hidle, (list_elem_of_lookup_2 _ i). }
    cbn [fst snd cache waiting]. repeat split.
    + by rewrite lookup_insert_ne.
    + intros Hd. apply Hidle. eapply elem_of_sublist; [exact Hd|apply sublist_delete].
    + apply Forall_singleton. cbn. done.
Qed.

(** X15: once a code is in the cache and no lookup of it still waits for
    the registry, the code is settled: whatever requests follow and whatever
    the registry answers, every later answer for that code is the cached
    payload, and the cache keeps it. *)
Theorem settled_code_is_final (s : ServerState) (code : jsstring) (p : Payload)
    (events : list ServerEvent)
    (Hcached : cache s !! code = Some p)
    (Hidle : code ∉ waiting s) :
  (cache (server_run events s).1) !! code = Some p
  ∧ Forall (λ a, a.1 = code → a.2 = p) (server_run events s).2.
Proof.
  revert s Hcached Hidle.
  induction events as [|e events IH]; intros s Hcached Hidle; cbn [server_run fst snd].
  - by split.
  - destruct (server_step_settled s e code p Hcached Hidle) as (Hc1 & Hi1 & Ha1).
    destruct (IH _ Hc1 Hi1) as [Hc2 Ha2]. split; [done|]. by apply Forall_app.
Qed.

Lemma settled_code_is_final_witness :
  (cache (server_run [Lookup (Some "marj006"); Lookup (Some "MARN008");
                      Arrive 0 (Some sample_page); Lookup (Some "Marn008")]
            {| cache := {[ units "MARN008" := mock_payload (units "MARN008") ]};
               waiting := [] |}).1)
    !! units "MARN008" = Some (mock_payload (units "MARN008"))
  ∧ Forall (λ a, a.1 = units "MARN008" → a.2 = mock_payload (units "MARN008"))
      (server_run [Lookup (Some "marj006"); Lookup (Some "MARN008");
                   Arrive 0 (Some sample_page); Lookup (Some "Marn008")]
         {| cache := {[ units "MARN008" := mock_payload (units "MARN008") ]};
            waiting := [] |}).2.
Proof.
  apply (settled_code_is_final
           {| cache := {[ units "MARN008" := mock_payload (units "MARN008") ]};
              waiting := [] |}
           (units "MARN008") (mock_payload (units "MARN008"))).
  - vm_compute. reflexivity.
  - apply (bool_decide_unpack _). vm_compute. exact I.
Defined.

(** X16: a code that is not in the cache is answered from the mocks exactly
    when the registry fails: the request fails, the status is not 200, or the
    page has no title; a code of any letters has an address to ask for. *)
Theorem mock_when_registry_fails (known : gmap jsstring Payload)
    (page : option Page) (codeRaw : string)
    (Hcode : toUpperCase codeRaw ≠ [])
    (Hnew : known !! toUpperCase codeRaw = None) :
  (∃ p, (getUocPayload page (Some codeRaw) known).1 = Some p
        ∧ source p = units "mock")
  ↔ page = None ∨ ∃ pg, page = Some pg ∧ (status pg ≠ 200%N ∨ trim (h1 pg) = []).
Proof.
  rewrite <- (fetchFromTGA_fails page codeRaw). unfold getUocPayload.
  change (default "" (Some codeRaw)) with codeRaw.
  destruct (decide _); [done|]. rewrite Hnew.
  destruct (fetchFromTGA page (toUpperCase codeRaw)) as [live|] eqn:Hlive; cbn [fst].
  - split; [|done]. intros (p & [= <-] & Hsrc).
    apply fetchFromTGA_source in Hlive. rewrite Hlive in Hsrc. discriminate.
  - split; [done|]. intros _. by eexists.
Qed.

Lemma mock_when_registry_fails_witness :
  (∃ p, (getUocPayload (Some {| status := 404; h1 := []; pc_rows := []; ke_items := [] |})
           (Some "marn008") ∅).1 = Some p
        ∧ source p = units "mock")
  ↔ Some {| status := 404; h1 := []; pc_rows := []; ke_items := [] |} = None
    ∨ ∃ pg, Some {| status := 404; h1 := []; pc_rows := []; ke_items := [] |} = Some pg
            ∧ (status pg ≠ 200%N ∨ trim (h1 pg) = []).
Proof.
  apply (mock_when_registry_fails ∅
           (Some {| status := 404; h1 := []; pc_rows := []; ke_items := [] |}) "marn008").
  - vm_compute. discriminate.
  - reflexivity.
Defined.

(** A lookup that no other request overlaps: its two steps are
    [getUocPayload] run to its end. *)
Lemma getUocPayload_alone (known : gmap jsstring Payload) (page : option Page)
    (codeRaw : option string) :
  server_run [Lookup codeRaw; Arrive 0 page] {| cache := known; waiting := [] |}
  = ({| cache := (getUocPayload page codeRaw known).2; waiting := [] |},
     match (getUocPayload page codeRaw known).1 with
     | Some p => [(toUpperCase (default "" codeRaw), p)]
     | None => []
     end).
Proof.
  unfold getUocPayload. cbn [server_run server_step cache waiting].
  destruct (decide _) as [|Hcode]; [done|].
  destruct (known !! _) as [hit|] eqn:Hhit; [done|].
  destruct (encodeURIComponent _) as [encoded|] eqn:Henc.
  - cbn [fst snd waiting cache]. rewrite app_nil_l.
    cbn [lookup list_lookup delete list_delete fst snd].
    by destruct (fetchFromTGA page _).
  - assert (fetchFromTGA page (toUpperCase (default "" codeRaw)) = None) as ->.
    { unfold fetchFromTGA. by rewrite Henc. }
    done.
Qed.

(** X17: a code that [findUocCandidates] detects in a text can be looked up
    as it is: in any state that the server reaches, the lookup and the answer
    of the registry to it, if it asks, give one answer, a payload of that
    very code whose link is the address of the registry followed by the
    code. *)
Theorem detected_code_lookup (text : option string) (raw : string)
    (events : list ServerEvent) (page : option Page)
    (Hdetected : units raw ∈ findUocCandidates text) :
  let s := (server_run events server_start).1 in
  ∃ p, (server_run [Lookup (Some raw); Arrive (length (waiting s)) page] s).2
       = [(units raw, p)]
       ∧ answer_for (units raw) p
       ∧ url p = details_url ++ units raw.
Proof.
  intros s. apply detected_shape in Hdetected as Hshape.
  pose proof (toUpperCase_upper raw (uoc_shape_upper _ Hshape)) as Hupper.
  assert (Hcode : units raw ≠ []).
  { intros Hnil. rewrite Hnil in Hshape. by apply uoc_shape_not_nil in Hshape. }
  destruct (server_run_invariant events server_start server_start_invariant)
    as [[Hcache Hwaiting] _]. fold s in Hcache, Hwaiting.
  cbn [server_run server_step]. change (default "" (Some raw)) with raw.
  rewrite Hupper. destruct (decide _) as [|_]; [done|].
  destruct (cache s !! units raw) as [hit|] eqn:Hhit.
  - cbn [fst snd]. rewrite lookup_ge_None_2 by done. cbn [fst snd app].
    exists hit. split; [done|]. destruct (Hcache _ _ Hhit) as [Ha Hu]. split; [done|].
    by apply Hu.
  - rewrite (encodeURIComponent_unreserved _ (uoc_shape_unreserved _ Hshape)).
    cbn [fst snd waiting cache]. rewrite lookup_app_r by done.
    rewrite Nat.sub_diag. cbn [lookup list_lookup fst snd app].
    eexists. split; [done|].
    destruct (finish_good page (units raw) Hcode) as [Ha Hu]. split; [done|].
    by apply Hu.
Qed.

Lemma detected_code_lookup_witness :
  ∃ p, (server_run [Lookup (Some "MARN008"); Arrive 1 (Some sample_page)]
          {| cache := ∅; waiting := [units "MARJ006"] |}).2
       = [(units "MARN008", p)]
       ∧ answer_for (units "MARN008") p
       ∧ url p = details_url ++ units "MARN008".
Proof.
  apply (detected_code_lookup (Some "Unit marn008, on deck.") "MARN008"
           [Lookup (Some "marj006")] (Some sample_page)).
  vm_compute. apply list_elem_of_here.
Defined.

(** X18: two lookups of the same code that overlap, the code not being in
    the cache, both ask the registry; each is answered from what the registry
    answers to it, and the cache keeps the payload of the one that ends
    last. *)
Theorem overlapping_lookups (known : gmap jsstring Payload) (codeRaw : string)
    (page1 page2 : option Page)
    (Hcode : toUpperCase codeRaw ≠ [])
    (Hnew : known !! toUpperCase codeRaw = None) :
  let code := toUpperCase codeRaw in
  let run := server_run [Lookup (Some codeRaw); Lookup (Some codeRaw);
                         Arrive 0 page1; Arrive 0 page2]
               {| cache := known; waiting := [] |} in
  run.2 = [ (code, default (mock_payload code) (fetchFromTGA page1 code));
            (code, default (mock_payload code) (fetchFromTGA page2 code)) ]
  ∧ (cache run.1) !! code = Some (default (mock_payload code) (fetchFromTGA page2 code))
  ∧ waiting run.1 = [].
Proof.
  intros code run. subst run code. cbn [server_run server_step cache waiting].
  change (default "" (Some codeRaw)) with codeRaw.
  destruct (decide _) as [|_]; [done|]. rewrite Hnew.
  destruct (encodeURIComponent_total _ (toUpperCase_bound codeRaw)) as [encoded Henc].
  rewrite Henc. cbn [fst snd cache waiting]. rewrite Hnew.
  split; [reflexivity|]. split; [|reflexivity]. apply lookup_insert_eq.
Qed.

Lemma overlapping_lookups_witness :
  (server_run [Lookup (Some "marn008"); Lookup (Some "marn008");
               Arrive 0 None; Arrive 0 (Some sample_page)]
     {| cache := ∅; waiting := [] |}).2
  = [ (units "MARN008", mock_payload (units "MARN008"));
      (units "MARN008",
       default (mock_payload (units "MARN008"))
         (fetchFromTGA (Some sample_page) (units "MARN008"))) ]
  ∧ (cache (server_run [Lookup (Some "marn008"); Lookup (Some "marn008");
                        Arrive 0 None; Arrive 0 (Some sample_page)]
              {| cache := ∅; waiting := [] |}).1) !! units "MARN008"
    = Some (default (mock_payload (units "MARN008"))
              (fetchFromTGA (Some sample_page) (units "MARN008")))
  ∧ waiting (server_run [Lookup (Some "marn008"); Lookup (Some "marn008");
                         Arrive 0 None; Arrive 0 (Some sample_page)]
               {| cache := ∅; waiting := [] |}).1 = [].
Proof.
  apply (overlapping_lookups ∅ "marn008" None (Some sample_page)).
  - vm_compute. discriminate.
  - reflexivity.
Defined.
